(** * parabolic.time_steppers: one-step time integrators for [du/dt = F(u)]

    A shallow embedding of [src/parabolic/time_steppers.py].  The Python
    module drives the FEniCS/dolfin library; the embedding keeps the
    control flow and the object sharing of the Python code and models the
    dolfin objects it touches as follows.

    - Scalars (Python floats) are exact rationals [Qc]; rounding is not
      modelled.
    - A dolfin vector is the list of its degree-of-freedom values, a dolfin
      matrix the list of its rows.  A [Function] of a space is identified
      with its coefficient vector.
    - Vectors and matrices are mutable Python objects: they live in a heap
      and are passed around by location, so that aliasing ([A = self.M])
      and in-place updates ([axpy], [bc.apply], [solver.solve]) are visible.
    - The iterative linear solvers are an interface ([Backend]); every call
      to a solver is also recorded in the heap's call log. *)

From Stdlib Require Import QArith Qcanon.
From Stdlib Require Qcabs.
From stdpp Require Import base option list strings numbers.

Open Scope Qc_scope.

(** ** Dense linear algebra over [Qc] *)

Abbreviation vec := (list Qc).
Abbreviation matrix := (list (list Qc)).

Module LinAlg.

(** The rational [n/d], for float literals. *)
Definition q (n : Z) (d : positive) : Qc := Q2Qc (n # d).

Definition vzero (n : nat) : vec := replicate n 0.
Definition vadd : vec → vec → vec := zip_with Qcplus.
Definition vneg : vec → vec := fmap Qcopp.
Definition vscale (c : Qc) : vec → vec := fmap (Qcmult c).
Definition vsub (a b : vec) : vec := vadd a (vneg b).

(** [y.axpy(a, x)]: [y += a*x]; the new value of [y]. *)
Definition vaxpy (y : vec) (a : Qc) (x : vec) : vec := vadd y (vscale a x).

Definition dot (r x : vec) : Qc := foldr Qcplus 0 (zip_with Qcmult r x).

(** [L.mult(x, y)] stores [mvmul L x] into [y]. *)
Definition mvmul (L : matrix) (x : vec) : vec := (λ r, dot r x) <$> L.

Definition madd : matrix → matrix → matrix := zip_with vadd.
Definition mscale (c : Qc) : matrix → matrix := fmap (vscale c).

Definition unit_row (n i : nat) : vec := <[i := 1]> (vzero n).

(** [A.ident(row)]: row [i] becomes the [i]-th unit row. *)
Definition ident_row (i : nat) (A : matrix) : matrix :=
  match A !! i with
  | Some r => <[i := unit_row (length r) i]> A
  | None => A
  end.

End LinAlg.
Export LinAlg.

(** ** Boundary expressions (sympy) and dolfin's [Expression], [DirichletBC] *)

(** The polynomial fragment of sympy expressions in the time symbol [t]
    and the coordinates [x[i]]. *)
Inductive sympy_expr : Type :=
  | Num (q : Qc)
  | Sym_t
  | Sym_x (i : nat)
  | Add (a b : sympy_expr)
  | Mul (a b : sympy_expr).

Fixpoint diff_t (e : sympy_expr) : sympy_expr :=
  match e with
  | Num _ => Num 0
  | Sym_t => Num 1
  | Sym_x _ => Num 0
  | Add a b => Add (diff_t a) (diff_t b)
  | Mul a b => Add (Mul (diff_t a) b) (Mul a (diff_t b))
  end.

(** [sympy.diff(expr, tt, k)]: the [k]-th derivative with respect to [t]. *)
Definition sympy_diff (e : sympy_expr) (k : nat) : sympy_expr :=
  Nat.iter k diff_t e.

Fixpoint sympy_eval (e : sympy_expr) (t : Qc) (x : vec) : Qc :=
  match e with
  | Num q => q
  | Sym_t => t
  | Sym_x i => default 0 (x !! i)
  | Add a b => sympy_eval a t x + sympy_eval b t x
  | Mul a b => sympy_eval a t x * sympy_eval b t x
  end.

(** [Expression(code, t=...)]: compiled code together with the current
    value of its user parameter [t]. *)
Record Expression : Type := mkExpression {
  cppcode : sympy_expr;
  expr_t : Qc
}.

Definition Expression_eval (e : Expression) (x : vec) : Qc :=
  sympy_eval (cppcode e) (expr_t e) x.

(** A discrete function space: the coordinates of its degrees of freedom
    and the assembled form [u*v*dx]. *)
Record FunctionSpace : Type := mkFunctionSpace {
  dof_coordinates : list vec;
  mass_dx : matrix
}.

Definition dim (V : FunctionSpace) : nat := length (dof_coordinates V).

(** [DirichletBC(V, value, boundary)].  [bc_attr_t] is the Python
    attribute [t] of the DirichletBC object itself (absent until some
    code assigns it); it is distinct from the parameter [t] of the
    Expression held in [bc_value]. *)
Record DirichletBC : Type := mkDirichletBC {
  bc_space : FunctionSpace;
  bc_value : Expression;
  bc_boundary : vec → bool;
  bc_attr_t : option Qc
}.

(** The constrained degrees of freedom of a condition with their
    prescribed values, in dof order. *)
Definition boundary_values (bc : DirichletBC) : list (nat * Qc) :=
  omap (λ '(d, x), if bc_boundary bc x
                   then Some (d, Expression_eval (bc_value bc) x)
                   else None)
       (imap pair (dof_coordinates (bc_space bc))).

(** [bc.apply(A, b)] on the values of [A] and [b]: every constrained row of
    [A] becomes a unit row and the entry of [b] the prescribed value. *)
Definition DirichletBC_apply (sys : matrix * vec) (bc : DirichletBC)
    : matrix * vec :=
  foldl (λ s '(d, g), (ident_row d s.1, <[d := g]> s.2)) sys
        (boundary_values bc).

(** Applying a list of conditions in list order. *)
Definition apply_bcs (bcs : list DirichletBC) (sys : matrix * vec)
    : matrix * vec :=
  foldl DirichletBC_apply sys bcs.

(** ** Solver interface *)

Record krylov_parameters : Type := mkKrylovParameters {
  relative_tolerance : Qc;
  absolute_tolerance : Qc;
  maximum_iterations : nat;
  monitor_convergence : bool
}.

(** The [solver_parameters] dictionary of [runge_kutta_step]. *)
Record solver_parameters : Type := mkSolverParameters {
  linear_solver : string;
  symmetric : bool;
  preconditioner : string;
  krylov_solver : krylov_parameters
}.

(** [KrylovSolver(method, preconditioner)] with its parameter set. *)
Record KrylovSolver : Type := mkKrylovSolver {
  ks_method : string;
  ks_preconditioner : string;
  ks_parameters : krylov_parameters
}.

(** One request to a linear solver. *)
Inductive solve_call : Type :=
  | KrylovCall (solver : KrylovSolver) (A : matrix) (P : option matrix)
               (rhs x0 : vec)
  | VariationalCall (params : solver_parameters) (a : matrix) (L : vec)
                    (bcs : list DirichletBC) (x0 : vec).

(** The linear-algebra backend.  [krylov_solve s A P rhs x0] is
    [solver.solve(x, rhs)] for operator [A] and optional preconditioning
    operator [P], entered with [x = x0]; [variational_solve p a L bcs x0]
    is dolfin's [solve(a == L, u, bcs, solver_parameters=p)] on the
    assembled forms.  [None] is a failed solve (no convergence). *)
Class Backend : Type := mkBackend {
  krylov_solve : KrylovSolver → matrix → option matrix → vec → vec
                 → option vec;
  variational_solve : solver_parameters → matrix → vec → list DirichletBC
                      → vec → option vec
}.

(** ** The heap and its monad *)

Abbreviation loc := nat (only parsing).

Record heap : Type := mkHeap {
  vecs : list vec;
  mats : list matrix;
  solves : list solve_call
}.

Inductive exn : Type :=
  | AssertionError
  | IndexError
  | ValueError
  | RuntimeError
  | InvalidReference.

Inductive result (A : Type) : Type :=
  | Ok (a : A)
  | Raise (e : exn).
Arguments Ok {A} a.
Arguments Raise {A} e.

Definition St (A : Type) : Type := heap → result A * heap.

Definition raise {A} (e : exn) : St A := λ h, (Raise e, h).

#[global] Instance St_ret : MRet St := λ A a h, (Ok a, h).
#[global] Instance St_bind : MBind St := λ A B f m h,
  match m h with
  | (Ok a, h') => f a h'
  | (Raise e, h') => (Raise e, h')
  end.

(** [for x in l: body x]. *)
Fixpoint for_each {A} (l : list A) (body : A → St unit) : St unit :=
  match l with
  | [] => mret tt
  | x :: l' => body x;; for_each l' body
  end.

(** A loop that carries the local variables [s] it rebinds. *)
Fixpoint for_fold {A S} (l : list A) (body : S → A → St S) (s : S) : St S :=
  match l with
  | [] => mret s
  | x :: l' => s' ← body s x; for_fold l' body s'
  end.

Definition lift_option {A} (e : exn) (o : option A) : St A :=
  match o with Some a => mret a | None => raise e end.

Definition new_vector (v : vec) : St loc :=
  λ h, (Ok (length (vecs h)),
        mkHeap (vecs h ++ [v]) (mats h) (solves h)).

Definition new_matrix (m : matrix) : St loc :=
  λ h, (Ok (length (mats h)),
        mkHeap (vecs h) (mats h ++ [m]) (solves h)).

Definition vector (r : loc) : St vec :=
  λ h, lift_option InvalidReference (vecs h !! r) h.

Definition get_matrix (r : loc) : St matrix :=
  λ h, lift_option InvalidReference (mats h !! r) h.

Definition set_vector (r : loc) (v : vec) : St unit :=
  λ h, (Ok tt, mkHeap (<[r := v]> (vecs h)) (mats h) (solves h)).

Definition set_matrix (r : loc) (m : matrix) : St unit :=
  λ h, (Ok tt, mkHeap (vecs h) (<[r := m]> (mats h)) (solves h)).

Definition log_call (c : solve_call) : St unit :=
  λ h, (Ok tt, mkHeap (vecs h) (mats h) (solves h ++ [c])).

(** [Function(V)]: a new function with zero coefficients. *)
Definition Function (V : FunctionSpace) : St loc :=
  new_vector (vzero (dim V)).

(** [y.axpy(a, x)] on the vector object [y]. *)
Definition axpy (y : loc) (a : Qc) (x : vec) : St unit :=
  yv ← vector y; set_vector y (vaxpy yv a x).

(** [bc.apply(A, rhs)]: both objects are updated in place. *)
Definition bc_apply (bc : DirichletBC) (A rhs : loc) : St unit :=
  Av ← get_matrix A;
  bv ← vector rhs;
  let sys := DirichletBC_apply (Av, bv) bc in
  set_matrix A sys.1;;
  set_vector rhs sys.2.

(** [solver.solve(x, rhs)] after [solver.set_operator(A)] or
    [solver.set_operators(A, P)]: the operators and the right-hand side are
    read from the heap as they are when the solve starts, the request is
    logged, and the solution is stored into the vector object [x]. *)
Definition KrylovSolver_solve `{Backend} (solver : KrylovSolver)
    (A : loc) (P : option loc) (x rhs : loc) : St unit :=
  Av ← get_matrix A;
  Pv ← match P with
       | Some p => Pv ← get_matrix p; mret (Some Pv)
       | None => mret None
       end;
  bv ← vector rhs;
  x0 ← vector x;
  log_call (KrylovCall solver Av Pv bv x0);;
  xv ← lift_option RuntimeError (krylov_solve solver Av Pv bv x0);
  set_vector x xv.

(** ** The problem contract and the single-step schemes *)

(** A concrete [ParabolicProblem].  [mass_form] is the assembled bilinear
    form [u * v * dx_multiplier * dx] of the problem's space [V]:
    [assemble] of that form allocates a matrix with this value, and
    [assemble] of its action on a function [u0]
    ([u0 * v * dx_multiplier * dx]) allocates the vector
    [mvmul mass_form u0]. *)
Record ParabolicProblem : Type := mkParabolicProblem {
  V : FunctionSpace;
  mass_form : matrix;
  get_system : Qc → matrix * vec;
  get_bcs : Qc → list DirichletBC;
  get_preconditioner : Qc → option matrix
}.

Definition assemble_mass (problem : ParabolicProblem) : St loc :=
  new_matrix (mass_form problem).

Definition assemble_mass_action (problem : ParabolicProblem) (u0 : loc)
    : St loc :=
  u0v ← vector u0;
  new_vector (mvmul (mass_form problem) u0v).

(** The attributes of a stepper object: [self.problem] and, for the three
    Euler-type schemes, [self.M] (a matrix object). *)
Record stepper : Type := mkStepper {
  problem : ParabolicProblem;
  M : loc
}.

Definition krylov_params (tol : Qc) (maxiter : nat) (verbose : bool)
    : krylov_parameters :=
  {| relative_tolerance := tol;
     absolute_tolerance := 0;
     maximum_iterations := maxiter;
     monitor_convergence := verbose |}.

Module Dummy.

(** [Dummy.step(self, u0, t, dt, bcs1, tol, verbose)]; only
    [self.problem] is used. *)
Definition step (problem : ParabolicProblem) (u0 : loc) (t dt : Qc)
    (bcs1 : list DirichletBC) (tol : Qc) (verbose : bool) : St loc :=
  u1 ← Function (V problem);
  (* u1.interpolate(u0): u0 is a function of the same space *)
  u0v ← vector u0;
  set_vector u1 u0v;;
  mret u1.

End Dummy.

Module ExplicitEuler.

Definition init (problem : ParabolicProblem) : St stepper :=
  m ← assemble_mass problem;
  mret (mkStepper problem m).

Definition step `{Backend} (self : stepper) (u1 u0 : loc) (t dt : Qc)
    (tol : Qc) (maxiter : nat) (verbose : bool) : St unit :=
  let '(L, b) := get_system (problem self) t in
  Lu0 ← Function (V (problem self));
  u0v ← vector u0;
  set_vector Lu0 (mvmul L u0v);;
  rhs ← assemble_mass_action (problem self) u0;
  Lu0v ← vector Lu0;
  axpy rhs dt (vadd (vneg Lu0v) b);;
  let A := M self in
  for_each (get_bcs (problem self) (t + dt)) (λ bc, bc_apply bc A rhs);;
  let solver := mkKrylovSolver "cg" "amg" (krylov_params tol maxiter verbose) in
  KrylovSolver_solve solver A None u1 rhs.

End ExplicitEuler.

Module ImplicitEuler.

Definition init (problem : ParabolicProblem) : St stepper :=
  m ← assemble_mass problem;
  mret (mkStepper problem m).

Definition step `{Backend} (self : stepper) (u1 u0 : loc) (t dt : Qc)
    (tol : Qc) (maxiter : nat) (verbose : bool)
    (krylov preconditioner : string) : St unit :=
  let '(L, b) := get_system (problem self) (t + dt) in
  Mv ← get_matrix (M self);
  A ← new_matrix (madd Mv (mscale dt L));
  rhs ← assemble_mass_action (problem self) u0;
  axpy rhs dt b;;
  for_each (get_bcs (problem self) (t + dt)) (λ bc, bc_apply bc A rhs);;
  let solver :=
    mkKrylovSolver krylov preconditioner (krylov_params tol maxiter verbose) in
  P ← match get_preconditioner (problem self) (t + dt) with
      | Some P =>
          Mv' ← get_matrix (M self);
          Pm ← new_matrix (madd Mv' (mscale dt P));
          mret (Some Pm)
      | None => mret None
      end;
  KrylovSolver_solve solver A P u1 rhs.

End ImplicitEuler.

Module Trapezoidal.

Definition init (problem : ParabolicProblem) : St stepper :=
  m ← assemble_mass problem;
  mret (mkStepper problem m).

Definition step `{Backend} (self : stepper) (u1 u0 : loc) (t dt : Qc)
    (tol : Qc) (verbose : bool) (maxiter : nat)
    (krylov preconditioner : string) : St unit :=
  let '(L0, b0) := get_system (problem self) t in
  let '(L1, b1) := get_system (problem self) (t + dt) in
  Lu0 ← Function (V (problem self));
  u0v ← vector u0;
  set_vector Lu0 (mvmul L0 u0v);;
  rhs ← assemble_mass_action (problem self) u0;
  Lu0v ← vector Lu0;
  axpy rhs (- dt * Q2Qc (1 # 2)) Lu0v;;
  axpy rhs (dt * Q2Qc (1 # 2)) (vadd b0 b1);;
  Mv ← get_matrix (M self);
  A ← new_matrix (madd Mv (mscale (Q2Qc (1 # 2) * dt) L1));
  for_each (get_bcs (problem self) (t + dt)) (λ bc, bc_apply bc A rhs);;
  let solver :=
    mkKrylovSolver krylov preconditioner (krylov_params tol maxiter verbose) in
  KrylovSolver_solve solver A None u1 rhs.

End Trapezoidal.

(** ** The generic explicit Runge-Kutta step *)

(** UFL expressions over functions: the code only forms sums and products
    with a scalar factor on the left.  An expression refers to the
    [Function] objects it mentions; their values are read when a form
    containing the expression is assembled. *)
Inductive ufl : Type :=
  | Coefficient (f : loc)
  | Sum (a b : ufl)
  | Scaled (c : Qc) (a : ufl).

Fixpoint ufl_eval (h : heap) (e : ufl) : option vec :=
  match e with
  | Coefficient f => vecs h !! f
  | Sum a b => va ← ufl_eval h a; vb ← ufl_eval h b; Some (vadd va vb)
  | Scaled c a => vscale c <$> ufl_eval h a
  end.

(** A linear form in the test function [v], given by the expression it
    depends on and the load vector it assembles to for each value of that
    expression. *)
Record form : Type := mkForm {
  form_coefficient : ufl;
  form_load : vec → vec
}.

Definition assemble (L : form) : St vec :=
  λ h, match ufl_eval h (form_coefficient L) with
       | Some U => (Ok (form_load L U), h)
       | None => (Raise InvalidReference, h)
       end.

(** [solve(u * v * dx == L, target, bcs=bcs, solver_parameters=params)]. *)
Definition solve_variational `{Backend} (V : FunctionSpace) (L : form)
    (target : loc) (bcs : list DirichletBC) (params : solver_parameters)
    : St unit :=
  Lv ← assemble L;
  x0 ← vector target;
  log_call (VariationalCall params (mass_dx V) Lv bcs x0);;
  xv ← lift_option RuntimeError
         (variational_solve params (mass_dx V) Lv bcs x0);
  set_vector target xv.

Module RungeKutta.

(** [numpy.array(A)] of a list of rows: a two-dimensional array when the
    rows have one length.  (An empty list gives a one-dimensional array,
    which the index step refuses.) *)
Definition numpy_array (A : list (list Qc)) : St matrix :=
  match A with
  | [] => mret []
  | r :: _ =>
      if forallb (λ r', bool_decide (length r' = length r)) A
      then mret A
      else raise ValueError
  end.

(** [numpy.triu_indices(s)]: the index pairs [(i, j)], [i <= j < s]. *)
Definition triu_indices (s : nat) : list (nat * nat) :=
  i ← seq 0 s; j ← seq i (s - i); mret (i, j).

(** [A[idx]] for a list of index pairs. *)
Definition fancy_index (A : matrix) (idx : list (nat * nat)) : St vec :=
  match A with
  | [] => raise IndexError
  | _ => lift_option IndexError
           (mapM (λ '(i, j), r ← A !! i; r !! j) idx)
  end.

Definition assert (b : bool) : St unit :=
  if b then mret tt else raise AssertionError.

(** The float literal [1.0e-15]. *)
Definition eps : Qc := q 1 1000000000000000.

Definition solver_params (tol : Qc) (verbose : bool) : solver_parameters :=
  {| linear_solver := "iterative";
     symmetric := true;
     preconditioner := "hypre_amg";
     krylov_solver := krylov_params tol 100 verbose |}.

(** The list [BCS]: for [k = 0, 1] the conditions whose value is the
    [k]-th time derivative of the given expression, each created with
    [t = t + dt]. *)
Definition make_BCS (V : FunctionSpace)
    (sympy_dirichlet_bcs : list ((vec → bool) * sympy_expr)) (t dt : Qc)
    : list (list DirichletBC) :=
  (λ k, (λ '(boundary, expr),
           mkDirichletBC V (mkExpression (sympy_diff expr k) (t + dt))
                         boundary None)
        <$> sympy_dirichlet_bcs)
  <$> seq 0 2.

(** [g.t = tau] for a DirichletBC object [g]: the attribute [t] of [g]
    is (re)bound; the Expression [g] was created from is a different
    object and keeps its own [t]. *)
Definition set_attr_t (tau : Qc) (g : DirichletBC) : DirichletBC :=
  {| bc_space := bc_space g;
     bc_value := bc_value g;
     bc_boundary := bc_boundary g;
     bc_attr_t := Some tau |}.

(** [U = u0; for j in range(i): U += ddt * A[i][j] * k[j]]. *)
Definition stage_state (A : matrix) (u0 : loc) (ddt : Qc) (k : list loc)
    (i : nat) : St ufl :=
  for_fold (seq 0 i)
    (λ U j,
       a ← lift_option IndexError (r ← A !! i; r !! j);
       kj ← lift_option IndexError (k !! j);
       mret (Sum U (Scaled (ddt * a) (Coefficient kj))))
    (Coefficient u0).

(** [U = u0; for i in range(s): U += b[i] * k[i]]. *)
Definition combine (b : list Qc) (u0 : loc) (k : list loc) (s : nat)
    : St ufl :=
  for_fold (seq 0 s)
    (λ U i,
       bi ← lift_option IndexError (b !! i);
       ki ← lift_option IndexError (k !! i);
       mret (Sum U (Scaled bi (Coefficient ki))))
    (Coefficient u0).

(** One pass of the stage loop; the loop carries the list [k] and the
    objects of [BCS[1]]. *)
Definition stage `{Backend} (A : matrix) (c : list Qc) (V : FunctionSpace)
    (F : Qc → vec → vec) (u0 : loc) (t dt : Qc)
    (params : solver_parameters)
    (st : list loc * list DirichletBC) (i : nat)
    : St (list loc * list DirichletBC) :=
  let '(k, BCS1) := st in
  U ← stage_state A u0 dt k i;
  ci ← lift_option IndexError (c !! i);
  let L := mkForm U (F (t + ci * dt)) in
  ki ← Function V;
  let k := k ++ [ki] in
  let BCS1 := set_attr_t (t + ci * dt) <$> BCS1 in
  ki' ← lift_option IndexError (k !! i);
  solve_variational V L ki' BCS1 params;;
  mret (k, BCS1).

Definition runge_kutta_step `{Backend} (A : list (list Qc)) (b c : list Qc)
    (V : FunctionSpace) (F : Qc → vec → vec) (u0 : loc) (t dt : Qc)
    (sympy_dirichlet_bcs : list ((vec → bool) * sympy_expr))
    (tol : Qc) (verbose : bool) : St loc :=
  let s := length b in
  A ← numpy_array A;
  upper ← fancy_index A (triu_indices s);
  assert (forallb (λ a, bool_decide (Qcabs.Qcabs a < eps)) upper);;
  let params := solver_params tol verbose in
  let BCS := make_BCS V sympy_dirichlet_bcs t dt in
  BCS0 ← lift_option IndexError (BCS !! 0%nat);
  BCS1 ← lift_option IndexError (BCS !! 1%nat);
  '(k, _) ← for_fold (seq 0 s) (stage A c V F u0 t dt params) ([], BCS1);
  U ← combine b u0 k s;
  theta ← Function V;
  let BCS0 := set_attr_t (t + dt) <$> BCS0 in
  solve_variational V
    (mkForm (Sum (Coefficient u0) (Scaled dt U)) (mvmul (mass_dx V)))
    theta BCS0 params;;
  mret theta.

Definition heun_step `{Backend} (V : FunctionSpace) (F : Qc → vec → vec)
    (u0 : loc) (t dt : Qc)
    (sympy_dirichlet_bcs : list ((vec → bool) * sympy_expr))
    (tol : Qc) (verbose : bool) : St loc :=
  let alpha := q 2 1 / q 3 1 in
  let c := [q 0 1; alpha] in
  let A := [[q 0 1; q 0 1];
            [alpha; q 0 1]] in
  let b := [q 1 1 - q 1 1 / (q 2 1 * alpha); q 1 1 / (q 2 1 * alpha)] in
  runge_kutta_step A b c V F u0 t dt sympy_dirichlet_bcs tol verbose.

Definition rk4_step `{Backend} (V : FunctionSpace) (F : Qc → vec → vec)
    (u0 : loc) (t dt : Qc)
    (sympy_dirichlet_bcs : list ((vec → bool) * sympy_expr))
    (tol : Qc) (verbose : bool) : St loc :=
  let c := [q 0 1; q 1 2; q 1 2; q 1 1] in
  let A := [[q 0 1; q 0 1; q 0 1; q 0 1];
            [q 1 2; q 0 1; q 0 1; q 0 1];
            [q 0 1; q 1 2; q 0 1; q 0 1];
            [q 0 1; q 0 1; q 1 1; q 0 1]] in
  let b := [q 1 6; q 1 3; q 1 3; q 1 6] in
  runge_kutta_step A b c V F u0 t dt sympy_dirichlet_bcs tol verbose.

Definition rkf_step `{Backend} (V : FunctionSpace) (F : Qc → vec → vec)
    (u0 : loc) (t dt : Qc)
    (sympy_dirichlet_bcs : list ((vec → bool) * sympy_expr))
    (tol : Qc) (verbose : bool) : St loc :=
  let c := [q 0 1; q 1 4; q 3 8; q 12 13; q 1 1; q 1 2] in
  let A :=
    [[q 0 1; q 0 1; q 0 1; q 0 1; q 0 1; q 0 1];
     [q 1 4; q 0 1; q 0 1; q 0 1; q 0 1; q 0 1];
     [q 3 32; q 9 32; q 0 1; q 0 1; q 0 1; q 0 1];
     [q 1932 2197; q (-7200) 2197; q 7296 2197; q 0 1; q 0 1; q 0 1];
     [q 439 216; q (-8) 1; q 3680 513; q (-845) 4104; q 0 1; q 0 1];
     [q (-8) 27; q 2 1; q (-3544) 2565; q 1859 4104; q (-11) 40; q 0 1]] in
  let b := [q 16 135; q 0 1; q 6656 12825; q 28561 56430; q (-9) 50;
            q 2 55] in
  runge_kutta_step A b c V F u0 t dt sympy_dirichlet_bcs tol verbose.

End RungeKutta.

(** ** A reference backend

    A small backend on which the steps can be run: Jacobi iteration from
    the zero vector, stopped when the squared residual norm is at most
    [tol^2] times that of the right-hand side, failing when the iteration
    cap is reached first.  The method names, the preconditioning operator,
    the entry value of the solution vector and the monitoring flag play no
    part in it. *)
Module Reference.

Definition residual (A : matrix) (x b : vec) : vec :=
  vsub b (mvmul A x).

Definition converged (tol : Qc) (A : matrix) (x b : vec) : bool :=
  let r := residual A x b in
  bool_decide (dot r r ≤ tol * tol * dot b b).

Definition jacobi_sweep (A : matrix) (b x : vec) : vec :=
  imap (λ i row,
          let aii := default 0 (row !! i) in
          let xi := default 0 (x !! i) in
          let bi := default 0 (b !! i) in
          (bi - (dot row x - aii * xi)) / aii) A.

Fixpoint jacobi (n : nat) (tol : Qc) (A : matrix) (b x : vec) : option vec :=
  if converged tol A x b then Some x
  else match n with
       | O => None
       | S n' => jacobi n' tol A b (jacobi_sweep A b x)
       end.

Definition solve (p : krylov_parameters) (A : matrix) (b : vec)
    : option vec :=
  jacobi (maximum_iterations p) (relative_tolerance p) A b
         (vzero (length b)).

#[global] Instance backend : Backend :=
  {| krylov_solve := λ s A _ b _, solve (ks_parameters s) A b;
     variational_solve := λ p a L bcs _,
       let sys := apply_bcs bcs (a, L) in
       solve (krylov_solver p) sys.1 sys.2 |}.

End Reference.

(** ** The systems of the specification

    The linear systems the specification gives for the three Euler-type
    schemes, written from its formulas: operator and right-hand side, with
    the Dirichlet conditions of time [t + dt] applied to the pair. *)
Module Spec.

(** [M u1 = M u0 + dt (b(t) - L(t) u0)]. *)
Definition explicit_euler_system (p : ParabolicProblem) (u0 : vec)
    (t dt : Qc) : matrix * vec :=
  let Mv := mass_form p in
  let L := (get_system p t).1 in
  let b := (get_system p t).2 in
  apply_bcs (get_bcs p (t + dt))
    (Mv, vadd (mvmul Mv u0) (vscale dt (vsub b (mvmul L u0)))).

(** [(M + dt L(t+dt)) u1 = M u0 + dt b(t+dt)]. *)
Definition implicit_euler_system (p : ParabolicProblem) (u0 : vec)
    (t dt : Qc) : matrix * vec :=
  let Mv := mass_form p in
  let L := (get_system p (t + dt)).1 in
  let b := (get_system p (t + dt)).2 in
  apply_bcs (get_bcs p (t + dt))
    (madd Mv (mscale dt L), vadd (mvmul Mv u0) (vscale dt b)).

(** [(M + dt/2 L(t+dt)) u1
     = M u0 + dt/2 (b(t) + b(t+dt)) - dt/2 L(t) u0]. *)
Definition trapezoidal_system (p : ParabolicProblem) (u0 : vec)
    (t dt : Qc) : matrix * vec :=
  let Mv := mass_form p in
  let half := Q2Qc (1 # 2) in
  let L0 := (get_system p t).1 in
  let b0 := (get_system p t).2 in
  let L1 := (get_system p (t + dt)).1 in
  let b1 := (get_system p (t + dt)).2 in
  apply_bcs (get_bcs p (t + dt))
    (madd Mv (mscale (half * dt) L1),
     vsub (vadd (mvmul Mv u0) (vscale (half * dt) (vadd b0 b1)))
          (vscale (half * dt) (mvmul L0 u0))).

(** [sum_i w[i] k[i]] for vectors of [n] entries. *)
Definition weighted_sum (n : nat) (w : list Qc) (k : list vec) : vec :=
  foldr vadd (vzero n) (zip_with vscale w k).

(** The intermediate state of stage [i]:
    [U_i = u0 + dt sum_{j<i} A[i][j] k[j]], for the row [Ai] of [A] and the
    stage derivatives [k] computed so far. *)
Definition rk_stage_state (u0 : vec) (dt : Qc) (Ai : list Qc)
    (k : list vec) : vec :=
  vadd u0 (vscale dt (weighted_sum (length u0) Ai k)).

(** The right-hand side of the combining solve: the mass form applied to
    [U = u0 + dt sum_i b[i] k[i]]. *)
Definition rk_final_rhs (V : FunctionSpace) (u0 : vec) (dt : Qc)
    (b : list Qc) (k : list vec) : vec :=
  mvmul (mass_dx V) (vadd u0 (vscale dt (weighted_sum (length u0) b k))).

(** The Dirichlet data of the specification: for each prescribed boundary
    expression, the constrained degrees of freedom with the values of its
    [order]-th time derivative at time [tau]. *)
Definition rk_dirichlet_data (V : FunctionSpace)
    (sympy_dirichlet_bcs : list ((vec → bool) * sympy_expr))
    (order : nat) (tau : Qc) : list (list (nat * Qc)) :=
  (λ '(boundary, expr),
     boundary_values
       (mkDirichletBC V (mkExpression (sympy_diff expr order) tau)
                      boundary None))
  <$> sympy_dirichlet_bcs.

End Spec.

(** ** Reading the call log *)

Definition call_rhs (c : solve_call) : vec :=
  match c with
  | KrylovCall _ _ _ rhs _ => rhs
  | VariationalCall _ _ L _ _ => L
  end.

Definition call_bcs (c : solve_call) : list DirichletBC :=
  match c with
  | KrylovCall _ _ _ _ _ => []
  | VariationalCall _ _ _ bcs _ => bcs
  end.

(** The operator a logged solve was given. *)
Definition call_operator (c : solve_call) : matrix :=
  match c with
  | KrylovCall _ A _ _ _ => A
  | VariationalCall _ a _ _ _ => a
  end.

(** The Dirichlet data a logged solve was given. *)
Definition call_dirichlet_data (c : solve_call) : list (list (nat * Qc)) :=
  boundary_values <$> call_bcs c.

(** The outcome of handing the system [(A, bv)] to [solver] for the
    vector object [x] (holding [x0]) on heap [h]: the request is logged;
    on success [x] receives the solution, otherwise the step fails. *)
Definition solve_outcome `{Backend} (solver : KrylovSolver) (A : matrix)
    (P : option matrix) (x : loc) (bv x0 : vec) (h : heap)
    : result unit * heap :=
  let log := solves h ++ [KrylovCall solver A P bv x0] in
  match krylov_solve solver A P bv x0 with
  | Some xv => (Ok tt, mkHeap (<[x := xv]> (vecs h)) (mats h) log)
  | None => (Raise RuntimeError, mkHeap (vecs h) (mats h) log)
  end.


(** [step] hands [sys] (with preconditioning operator [P]) to [solver]
    exactly once, for the vector of [u1]: afterwards the log has grown by
    that one request and, when the solver succeeds, [u1] holds its
    solution; when it fails, the step fails with it. *)
Definition solved_by `{Backend} (solver : KrylovSolver) (sys : matrix * vec)
    (P : option matrix) (x0 : vec) (u1 : loc) (h : heap)
    (r : result unit * heap) : Prop :=
  solves r.2 = solves h ++ [KrylovCall solver sys.1 P sys.2 x0]
  ∧ match krylov_solve solver sys.1 P sys.2 x0 with
    | Some x => r.1 = Ok tt ∧ vecs r.2 !! u1 = Some x
    | None => r.1 = Raise RuntimeError
    end.

(** [m] leaves the first [n] matrix objects of the heap as they are, and
    its result, if any, satisfies [Q]. *)
Definition stable (n : nat) {A} (m : St A) (Q : A → Prop) : Prop :=
  ∀ h : heap, (n ≤ length (mats h))%nat →
    take n (mats (m h).2) = take n (mats h)
    ∧ ∀ a : A, (m h).1 = Ok a → Q a.

(** ** Erasing the monitoring flag *)

Definition quiet_params (p : krylov_parameters) : krylov_parameters :=
  {| relative_tolerance := relative_tolerance p;
     absolute_tolerance := absolute_tolerance p;
     maximum_iterations := maximum_iterations p;
     monitor_convergence := false |}.

Definition quiet_solver (s : KrylovSolver) : KrylovSolver :=
  {| ks_method := ks_method s;
     ks_preconditioner := ks_preconditioner s;
     ks_parameters := quiet_params (ks_parameters s) |}.

Definition quiet_solver_parameters (p : solver_parameters)
    : solver_parameters :=
  {| linear_solver := linear_solver p;
     symmetric := symmetric p;
     preconditioner := preconditioner p;
     krylov_solver := quiet_params (krylov_solver p) |}.

Definition quiet_call (c : solve_call) : solve_call :=
  match c with
  | KrylovCall s A P rhs x0 => KrylovCall (quiet_solver s) A P rhs x0
  | VariationalCall p a L bcs x0 =>
      VariationalCall (quiet_solver_parameters p) a L bcs x0
  end.

(** The heap with the monitoring flag erased from the logged requests. *)
Definition quiet_heap (h : heap) : heap :=
  mkHeap (vecs h) (mats h) (quiet_call <$> solves h).

(** What a run leaves behind, up to the monitoring flag in the log: the
    returned value or exception, every vector and matrix object, and the
    sequence of solver requests. *)
Definition observable {A} (r : result A * heap) : result A * heap :=
  (r.1, quiet_heap r.2).

(** The solvers' side of the contract: the monitoring flag selects
    progress reporting and has no influence on the computed solution. *)
Definition monitor_only_reports `{Backend} : Prop :=
  (∀ s A P rhs x0,
     krylov_solve s A P rhs x0 = krylov_solve (quiet_solver s) A P rhs x0)
  ∧ (∀ p a L bcs x0,
       variational_solve p a L bcs x0
       = variational_solve (quiet_solver_parameters p) a L bcs x0).

(** Two computations that, started on heaps equal up to the monitoring
    flag, end with the same result on heaps equal up to that flag. *)
Definition agree {A} (m1 m2 : St A) : Prop :=
  ∀ h1 h2 : heap, quiet_heap h1 = quiet_heap h2 →
    observable (m1 h1) = observable (m2 h2).

(** Every solver request that [m] adds to the log satisfies [P], and the
    result of [m], if any, satisfies [Q]. *)
Definition logs (P : solve_call → Prop) {A} (m : St A) (Q : A → Prop)
    : Prop :=
  ∀ h : heap, ∃ new : list solve_call,
    solves (m h).2 = solves h ++ new
    ∧ Forall P new
    ∧ ∀ a : A, (m h).1 = Ok a → Q a.

(** The expression [combine] builds when every index is in range. *)
Definition combined (b : list Qc) (u0 : loc) (k : list loc) : ufl :=
  foldl (λ U bk, Sum U (Scaled bk.1 (Coefficient bk.2))) (Coefficient u0)
        (zip b k).

(** The degrees of freedom a list of conditions constrains, in the order
    [apply_bcs] visits them. *)
Definition constrained_dofs (bcs : list DirichletBC) : list nat :=
  bc ← bcs; (boundary_values bc).*1.

(** [A.ident(rows)] for a list of rows. *)
Definition ident_rows (ds : list nat) (A : matrix) : matrix :=
  foldl (λ A d, ident_row d A) A ds.

(** ** Sample data *)
Module Sample.
Import RungeKutta.

(** Two degrees of freedom at [x = 0] and [x = 1]. *)
Definition V2 : FunctionSpace :=
  mkFunctionSpace [[q 0 1]; [q 1 1]] [[q 2 1; q 1 1]; [q 1 1; q 2 1]].

Definition at_origin (x : vec) : bool := bool_decide (x = [q 0 1]).

(** A heat problem on [V2] with the value 5 prescribed at [x = 0]. *)
Definition heat : ParabolicProblem :=
  {| V := V2;
     mass_form := [[q 2 1; q 1 1]; [q 1 1; q 2 1]];
     get_system := λ _, ([[q 1 1; q (-1) 1]; [q (-1) 1; q 1 1]],
                         [q 0 1; q 0 1]);
     get_bcs := λ t, [mkDirichletBC V2 (mkExpression (Num (q 5 1)) t)
                                    at_origin None];
     get_preconditioner := λ _, None |}.

(** The same problem with the condition at [x = 0] lifted after
    [t = 1]. *)
Definition released : ParabolicProblem :=
  {| V := V2;
     mass_form := mass_form heat;
     get_system := get_system heat;
     get_bcs := λ t, if bool_decide (t ≤ q 1 1) then get_bcs heat t else [];
     get_preconditioner := λ _, None |}.

(** A heap holding [u0 = (1, 1)], [u1 = (0, 0)] and the mass matrix of
    [heat] (as left by the constructors). *)
Definition heap2 : heap :=
  mkHeap [[q 1 1; q 1 1]; [q 0 1; q 0 1]] [mass_form heat] [].

Definition stepper2 : stepper := mkStepper heat 0.

(** The same heap before any stepper is constructed. *)
Definition heap0 : heap := mkHeap [[q 1 1; q 1 1]; [q 0 1; q 0 1]] [] [].

Definition tol10 : Qc := q 1 10000000000.

(** One degree of freedom, unit mass; the decay [F(t, u) = -u]. *)
Definition V1 : FunctionSpace := mkFunctionSpace [[q 0 1]] [[q 1 1]].

Definition decay (t : Qc) (U : vec) : vec := vneg U.

(** A heap holding [u0 = (1)]. *)
Definition heap1 : heap := mkHeap [[q 1 1]] [] [].

(** Two degrees of freedom at [x = 0] and [x = 1] with a lumped (unit)
    mass form; the value [t^2] prescribed at [x = 0]. *)
Definition V2_lumped : FunctionSpace :=
  mkFunctionSpace [[q 0 1]; [q 1 1]] [[q 1 1; q 0 1]; [q 0 1; q 1 1]].

Definition t_squared : list ((vec → bool) * sympy_expr) :=
  [(at_origin, Mul Sym_t Sym_t)].

(** The tableau of [heun_step]. *)
Definition heun_A : list (list Qc) := [[q 0 1; q 0 1]; [q 2 3; q 0 1]].
Definition heun_b : list Qc := [q 1 4; q 3 4].
Definition heun_c : list Qc := [q 0 1; q 2 3].

(** A one-stage tableau whose diagonal entry is [1e-16]. *)
Definition tiny_tableau : list (list Qc) := [[q 1 10000000000000000]].

End Sample.

(** ** Counting solver requests and framing vector objects *)

(** [m] adds at most [n] requests to the log, and exactly [n] when it
    returns normally. *)
Definition requests (n : nat) {A} (m : St A) : Prop :=
  ∀ h : heap, ∃ new : list solve_call,
    solves (m h).2 = solves h ++ new
    ∧ (length new ≤ n)%nat
    ∧ ∀ a : A, (m h).1 = Ok a → length new = n.

(** [m] leaves every vector object below [n] other than [x] as it is,
    never shrinks the heap, and its result, if any, satisfies [Q]. *)
Definition vkeeps (n : nat) (x : loc) {A} (m : St A) (Q : A → Prop) : Prop :=
  ∀ h : heap, (n ≤ length (vecs h))%nat →
    (n ≤ length (vecs (m h).2))%nat
    ∧ (∀ r : loc, (r < n)%nat → r ≠ x → vecs (m h).2 !! r = vecs h !! r)
    ∧ ∀ a : A, (m h).1 = Ok a → Q a.

(** [m] neither creates nor changes a matrix object. *)
Definition mats_unchanged {A} (m : St A) : Prop :=
  ∀ h : heap, mats (m h).2 = mats h.

(** ** The systems [runge_kutta_step] solves, in closed form *)

(** The entries [A[triu_indices(s)]], when all are in range. *)
Definition upper_triangle (A : matrix) (s : nat) : option vec :=
  mapM (λ '(i, j), r ← A !! i; r !! j) (RungeKutta.triu_indices s).

(** The explicitness check of [runge_kutta_step] as a test on [A]. *)
Definition explicit_tableau (A : matrix) (s : nat) : bool :=
  match upper_triangle A s with
  | Some upper =>
      forallb (λ a, bool_decide (Qcabs.Qcabs a < RungeKutta.eps)) upper
  | None => false
  end.

(** The expression the loop of [stage_state] leaves in [U] when every
    index is in range. *)
Definition staged (dt : Qc) (Ai : list Qc) (u0 : loc) (k : list loc) : ufl :=
  foldl (λ U ak, Sum U (Scaled (dt * ak.1) (Coefficient ak.2)))
        (Coefficient u0) (zip Ai k).

(** The value of that expression, for the values [kv] of the stage
    derivatives: [u0 + (dt A[i][0]) k[0] + (dt A[i][1]) k[1] + ...]. *)
Definition stage_value (u0v : vec) (dt : Qc) (Ai : list Qc) (kv : list vec)
    : vec :=
  foldl (λ W av, vadd W (vscale (dt * av.1) av.2)) u0v (zip Ai kv).

(** The value of the expression [combined]: [u0 + b[0] k[0] + ...]. *)
Definition combined_value (u0v : vec) (b : list Qc) (kv : list vec) : vec :=
  foldl (λ W bv, vadd W (vscale bv.1 bv.2)) u0v (zip b kv).

(** What the backend answers to a logged request. *)
Definition answer `{Backend} (call : solve_call) : option vec :=
  match call with
  | KrylovCall s A P rhs x0 => krylov_solve s A P rhs x0
  | VariationalCall p a L bcs x0 => variational_solve p a L bcs x0
  end.

Section RungeKuttaSystems.
Context (A : matrix) (b c : list Qc) (V : FunctionSpace)
        (F : Qc → vec → vec) (u0v : vec) (t dt : Qc)
        (sympy_dirichlet_bcs : list ((vec → bool) * sympy_expr))
        (tol : Qc) (verbose : bool).

(** The conditions of [BCS[order]] as created, with the attribute [t]
    set to [tau] by the loop over them. *)
Definition rk_bcs (order : nat) (tau : Qc) : list DirichletBC :=
  RungeKutta.set_attr_t tau
  <$> default [] (RungeKutta.make_BCS V sympy_dirichlet_bcs t dt !! order).

(** The request of stage [i], given the derivatives [kv] of the earlier
    stages. *)
Definition stage_call (kv : list vec) (i : nat) : solve_call :=
  let Ai := default [] (A !! i) in
  let ci := default 0 (c !! i) in
  VariationalCall (RungeKutta.solver_params tol verbose) (mass_dx V)
                  (F (t + ci * dt) (stage_value u0v dt Ai (take i kv)))
                  (rk_bcs 1 (t + ci * dt)) (vzero (dim V)).

(** The request of the combining solve, given all stage derivatives. *)
Definition final_call (kv : list vec) : solve_call :=
  VariationalCall (RungeKutta.solver_params tol verbose) (mass_dx V)
                  (mvmul (mass_dx V)
                     (vadd u0v (vscale dt (combined_value u0v b kv))))
                  (rk_bcs 0 (t + dt)) (vzero (dim V)).

End RungeKuttaSystems.

(** A second backend for running the steps: a fixed number of Jacobi
    sweeps (the iteration cap) from the zero vector, without a convergence
    test, so that every solve returns. *)
Module Sweeps.

Definition solve (p : krylov_parameters) (A : matrix) (b : vec) : vec :=
  Nat.iter (maximum_iterations p) (Reference.jacobi_sweep A b)
           (vzero (length b)).

Definition backend : Backend :=
  {| krylov_solve := λ s A _ b _, Some (solve (ks_parameters s) A b);
     variational_solve := λ p a L bcs _,
       let sys := apply_bcs bcs (a, L) in
       Some (solve (krylov_solver p) sys.1 sys.2) |}.

End Sweeps.

(** A tableau [runge_kutta_step] runs through: at least one stage, [A]
    an [s x s] array passing the explicitness check, [c] as long as [b]. *)
Definition tableau_accepted (A : matrix) (b c : list Qc) : Prop :=
  (0 < length b)%nat
  ∧ length A = length b
  ∧ Forall (λ r, length r = length b) A
  ∧ explicit_tableau A (length b) = true
  ∧ length c = length b.

(** Every variational solve of the backend returns. *)
Definition solves_return `{Backend} : Prop :=
  ∀ p a L bcs x0, is_Some (variational_solve p a L bcs x0).

(** [m] never returns normally. *)
Definition fails {A} (m : St A) : Prop :=
  ∀ h : heap, ∃ e : exn, (m h).1 = Raise e.

(** From heap [h], a step returns the function it created last, after
    [s] stage solves and the combining solve. *)
Definition returns_after (h : heap) (s : nat) (r : result loc * heap) : Prop :=
  r.1 = Ok (length (vecs h) + s)%nat
  ∧ length (vecs r.2) = (length (vecs h) + s + 1)%nat
  ∧ length (solves r.2) = (length (solves h) + s + 1)%nat.

(** * Properties *)

(** ** Running the heap monad *)

Lemma bind_run {A B} (m : St A) (f : A → St B) (h : heap) :
  (m ≫= f) h = match m h with
               | (Ok a, h') => f a h'
               | (Raise e, h') => (Raise e, h')
               end.
Proof. reflexivity. Qed.

Lemma vector_ok (r : loc) (h : heap) (v : vec) :
  vecs h !! r = Some v → vector r h = (Ok v, h).
Proof. unfold vector. intros ->. reflexivity. Qed.

Lemma get_matrix_ok (r : loc) (h : heap) (m : matrix) :
  mats h !! r = Some m → get_matrix r h = (Ok m, h).
Proof. unfold get_matrix. intros ->. reflexivity. Qed.

Lemma insert_snoc {A} (l : list A) (x y : A) :
  <[length l := y]> (l ++ [x]) = l ++ [y].
Proof.
  rewrite insert_app_r_alt by lia.
  replace (length l - length l)%nat with 0%nat by lia. reflexivity.
Qed.

Lemma lookup_snoc {A} (l : list A) (x : A) :
  (l ++ [x]) !! length l = Some x.
Proof.
  rewrite lookup_app_r by lia.
  replace (length l - length l)%nat with 0%nat by lia. reflexivity.
Qed.

Lemma mret_run {A} (a : A) (h : heap) : (mret a : St A) h = (Ok a, h).
Proof. reflexivity. Qed.

Lemma new_vector_run (v : vec) (h : heap) :
  new_vector v h
  = (Ok (length (vecs h)), mkHeap (vecs h ++ [v]) (mats h) (solves h)).
Proof. reflexivity. Qed.

Lemma new_matrix_run (m : matrix) (h : heap) :
  new_matrix m h
  = (Ok (length (mats h)), mkHeap (vecs h) (mats h ++ [m]) (solves h)).
Proof. reflexivity. Qed.

Lemma set_vector_run (r : loc) (v : vec) (h : heap) :
  set_vector r v h = (Ok tt, mkHeap (<[r := v]> (vecs h)) (mats h) (solves h)).
Proof. reflexivity. Qed.

Lemma set_matrix_run (r : loc) (m : matrix) (h : heap) :
  set_matrix r m h = (Ok tt, mkHeap (vecs h) (<[r := m]> (mats h)) (solves h)).
Proof. reflexivity. Qed.

Lemma log_call_run (c : solve_call) (h : heap) :
  log_call c h = (Ok tt, mkHeap (vecs h) (mats h) (solves h ++ [c])).
Proof. reflexivity. Qed.

Lemma Function_run (V : FunctionSpace) (h : heap) :
  Function V h
  = (Ok (length (vecs h)),
     mkHeap (vecs h ++ [vzero (dim V)]) (mats h) (solves h)).
Proof. reflexivity. Qed.

Lemma axpy_run (y : loc) (a : Qc) (x : vec) (h : heap) (yv : vec) :
  vecs h !! y = Some yv →
  axpy y a x h
  = (Ok tt, mkHeap (<[y := vaxpy yv a x]> (vecs h)) (mats h) (solves h)).
Proof.
  intros Hy. unfold axpy. rewrite bind_run, (vector_ok _ _ _ Hy).
  reflexivity.
Qed.

Lemma assemble_mass_action_run (p : ParabolicProblem) (u0 : loc) (h : heap)
    (u0v : vec) :
  vecs h !! u0 = Some u0v →
  assemble_mass_action p u0 h
  = (Ok (length (vecs h)),
     mkHeap (vecs h ++ [mvmul (mass_form p) u0v]) (mats h) (solves h)).
Proof.
  intros Hu. unfold assemble_mass_action.
  rewrite bind_run, (vector_ok _ _ _ Hu). reflexivity.
Qed.

Create HintDb heap.
#[global] Hint Resolve lookup_app_l_Some lookup_snoc : heap.

(** One step of symbolic execution of a [≫=] chain on a heap whose
    lookups are known. *)
Ltac run1 :=
  rewrite bind_run; cbv beta iota;
  first [ rewrite new_vector_run | rewrite new_matrix_run
        | rewrite set_vector_run | rewrite set_matrix_run
        | rewrite log_call_run | rewrite mret_run
        | rewrite Function_run
        | erewrite vector_ok by (simpl; eauto with heap)
        | erewrite get_matrix_ok by (simpl; eauto with heap)
        | erewrite axpy_run by (simpl; eauto with heap)
        | erewrite assemble_mass_action_run by (simpl; eauto with heap) ];
  cbv beta iota; simpl vecs; simpl mats; simpl solves.

(** ** Dummy *)

Lemma Dummy_step_run (problem : ParabolicProblem) (u0 : loc) (t dt : Qc)
    (bcs1 : list DirichletBC) (tol : Qc) (verbose : bool)
    (h : heap) (u0v : vec) :
  vecs h !! u0 = Some u0v →
  Dummy.step problem u0 t dt bcs1 tol verbose h
  = (Ok (length (vecs h)), mkHeap (vecs h ++ [u0v]) (mats h) (solves h)).
Proof.
  intros Hu0. unfold Dummy.step.
  do 3 run1. rewrite mret_run, insert_snoc. reflexivity.
Qed.

(** C8. [Dummy.step] returns a newly allocated function (a location that
    was not in use, hence different from [u0]) whose coefficients equal
    those of [u0]; every earlier object, [u0] included, keeps its value,
    and no linear solve is requested. *)
Theorem Dummy_step_copies (problem : ParabolicProblem) (u0 : loc) (t dt : Qc)
    (bcs1 : list DirichletBC) (tol : Qc) (verbose : bool)
    (h : heap) (u0v : vec) :
  vecs h !! u0 = Some u0v →
  ∃ (u1 : loc) (h' : heap),
    Dummy.step problem u0 t dt bcs1 tol verbose h = (Ok u1, h')
    ∧ u1 ≠ u0
    ∧ vecs h !! u1 = None
    ∧ vecs h' !! u1 = Some u0v
    ∧ (∀ r : loc, r ≠ u1 → vecs h' !! r = vecs h !! r)
    ∧ mats h' = mats h
    ∧ solves h' = solves h.
Proof.
  intros Hu0. eexists _, _. split; [by apply Dummy_step_run|].
  pose proof (lookup_lt_Some _ _ _ Hu0) as Hlt. simpl.
  split; [lia|]. split; [by apply lookup_ge_None_2|].
  split; [apply lookup_snoc|]. split; [|done].
  intros r Hr. destruct (decide (r < length (vecs h))%nat) as [Hlt'|Hge].
  - by rewrite lookup_app_l.
  - rewrite !lookup_ge_None_2; [done|lia|rewrite length_app; simpl; lia].
Qed.

(** ** Vector identities *)

Ltac vec_ring :=
  apply list_eq; intros ?i;
  unfold vsub, vaxpy, vadd, vneg, vscale;
  repeat first
    [ rewrite lookup_zip_with
    | rewrite list_lookup_fmap
    | match goal with
      | |- context [?l !! ?i] => is_var l; destruct (l !! i); simpl
      end ];
  try reflexivity; f_equal; ring.

Lemma explicit_rhs (m lu b : vec) (dt : Qc) :
  vaxpy m dt (vadd (vneg lu) b) = vadd m (vscale dt (vsub b lu)).
Proof. vec_ring. Qed.

Lemma trapezoidal_rhs (m lu b0 b1 : vec) (dt : Qc) :
  vaxpy (vaxpy m (- dt * Q2Qc (1 # 2)) lu) (dt * Q2Qc (1 # 2)) (vadd b0 b1)
  = vsub (vadd m (vscale (Q2Qc (1 # 2) * dt) (vadd b0 b1)))
         (vscale (Q2Qc (1 # 2) * dt) lu).
Proof. vec_ring. Qed.

(** ** Applying boundary conditions and solving, on a known heap *)

Lemma heap_eta (h : heap) : mkHeap (vecs h) (mats h) (solves h) = h.
Proof. by destruct h. Qed.

Lemma bc_apply_run (bc : DirichletBC) (A rhs : loc) (h : heap)
    (Av : matrix) (bv : vec) :
  mats h !! A = Some Av → vecs h !! rhs = Some bv →
  bc_apply bc A rhs h
  = (Ok tt, mkHeap (<[rhs := (DirichletBC_apply (Av, bv) bc).2]> (vecs h))
                   (<[A := (DirichletBC_apply (Av, bv) bc).1]> (mats h))
                   (solves h)).
Proof.
  intros HA Hb. unfold bc_apply. do 3 run1. by rewrite set_vector_run.
Qed.

Lemma for_each_bc_apply_run (bcs : list DirichletBC) (A rhs : loc) (h : heap)
    (Av : matrix) (bv : vec) :
  mats h !! A = Some Av → vecs h !! rhs = Some bv →
  for_each bcs (λ bc, bc_apply bc A rhs) h
  = (Ok tt, mkHeap (<[rhs := (apply_bcs bcs (Av, bv)).2]> (vecs h))
                   (<[A := (apply_bcs bcs (Av, bv)).1]> (mats h))
                   (solves h)).
Proof.
  revert h Av bv. induction bcs as [|bc bcs IH]; intros h Av bv HA Hb; simpl.
  - rewrite mret_run, !list_insert_id by done. by rewrite heap_eta.
  - rewrite bind_run, (bc_apply_run _ _ _ _ _ _ HA Hb).
    pose proof (lookup_lt_Some _ _ _ HA). pose proof (lookup_lt_Some _ _ _ Hb).
    unfold apply_bcs; simpl. fold (apply_bcs bcs).
    destruct (DirichletBC_apply (Av, bv) bc) as [A' b'] eqn:E; simpl.
    rewrite (IH _ A' b'); simpl.
    + by rewrite !list_insert_insert_eq.
    + by apply list_lookup_insert_eq.
    + by apply list_lookup_insert_eq.
Qed.

Section WithBackend.
Context `{Backend}.

Lemma KrylovSolver_solve_run (solver : KrylovSolver) (A x rhs : loc)
    (h : heap) (Av : matrix) (bv x0 : vec) :
  mats h !! A = Some Av → vecs h !! rhs = Some bv → vecs h !! x = Some x0 →
  KrylovSolver_solve solver A None x rhs h
  = solve_outcome solver Av None x bv x0 h.
Proof.
  intros HA Hb Hx. unfold KrylovSolver_solve, solve_outcome. do 5 run1.
  rewrite bind_run. by destruct (krylov_solve _ _ _ _ _).
Qed.

Lemma KrylovSolver_solve_run_pc (solver : KrylovSolver) (A p x rhs : loc)
    (h : heap) (Av Pv : matrix) (bv x0 : vec) :
  mats h !! A = Some Av → mats h !! p = Some Pv →
  vecs h !! rhs = Some bv → vecs h !! x = Some x0 →
  KrylovSolver_solve solver A (Some p) x rhs h
  = solve_outcome solver Av (Some Pv) x bv x0 h.
Proof.
  intros HA HP Hb Hx. unfold KrylovSolver_solve, solve_outcome. run1.
  rewrite bind_run, bind_run. erewrite get_matrix_ok by eauto.
  rewrite mret_run. do 3 run1.
  rewrite bind_run. by destruct (krylov_solve _ _ _ _ _).
Qed.

End WithBackend.

Section Steppers.
Context `{Backend}.

Lemma ExplicitEuler_step_run (self : stepper) (u1 u0 : loc) (t dt tol : Qc)
    (maxiter : nat) (verbose : bool) (h : heap) (Mv : matrix) (u0v x0 : vec) :
  mats h !! M self = Some Mv →
  vecs h !! u0 = Some u0v →
  vecs h !! u1 = Some x0 →
  let p := problem self in
  let Lu0v := mvmul (get_system p t).1 u0v in
  let rhs := vaxpy (mvmul (mass_form p) u0v) dt
                   (vadd (vneg Lu0v) (get_system p t).2) in
  let sys := apply_bcs (get_bcs p (t + dt)) (Mv, rhs) in
  ExplicitEuler.step self u1 u0 t dt tol maxiter verbose h
  = solve_outcome
      (mkKrylovSolver "cg" "amg" (krylov_params tol maxiter verbose))
      sys.1 None u1 sys.2 x0
      (mkHeap (vecs h ++ [Lu0v; sys.2]) (<[M self := sys.1]> (mats h))
              (solves h)).
Proof.
  intros HM Hu0 Hu1 p Lu0v rhs sys. unfold ExplicitEuler.step.
  fold p. destruct (get_system p t) as [L b] eqn:E. simpl in Lu0v, rhs.
  do 3 run1. rewrite insert_snoc. do 3 run1. rewrite insert_snoc.
  rewrite bind_run.
  erewrite for_each_bc_apply_run by (simpl; eauto with heap).
  fold Lu0v rhs sys. simpl vecs; simpl mats; simpl solves.
  rewrite insert_snoc.
  pose proof (lookup_lt_Some _ _ _ HM).
  erewrite KrylovSolver_solve_run; simpl vecs; simpl mats.
  - by rewrite <- app_assoc.
  - by apply list_lookup_insert_eq.
  - apply lookup_snoc.
  - eauto with heap.
Qed.

Lemma ImplicitEuler_step_run (self : stepper) (u1 u0 : loc) (t dt tol : Qc)
    (maxiter : nat) (verbose : bool) (krylov preconditioner : string)
    (h : heap) (Mv : matrix) (u0v x0 : vec) :
  mats h !! M self = Some Mv →
  vecs h !! u0 = Some u0v →
  vecs h !! u1 = Some x0 →
  let p := problem self in
  let A := madd Mv (mscale dt (get_system p (t + dt)).1) in
  let rhs := vaxpy (mvmul (mass_form p) u0v) dt (get_system p (t + dt)).2 in
  let sys := apply_bcs (get_bcs p (t + dt)) (A, rhs) in
  let P := (λ P, madd Mv (mscale dt P)) <$> get_preconditioner p (t + dt) in
  ImplicitEuler.step self u1 u0 t dt tol maxiter verbose krylov preconditioner h
  = solve_outcome
      (mkKrylovSolver krylov preconditioner (krylov_params tol maxiter verbose))
      sys.1 P u1 sys.2 x0
      (mkHeap (vecs h ++ [sys.2]) (mats h ++ sys.1 :: option_list P)
              (solves h)).
Proof.
  intros HM Hu0 Hu1 p A rhs sys P. unfold ImplicitEuler.step.
  fold p. destruct (get_system p (t + dt)) as [L b] eqn:E. simpl in A, rhs.
  do 4 run1. rewrite insert_snoc.
  rewrite bind_run.
  erewrite for_each_bc_apply_run by (simpl; eauto with heap).
  fold A rhs sys. simpl vecs; simpl mats; simpl solves.
  rewrite !insert_snoc.
  subst P. destruct (get_preconditioner p (t + dt)) as [P|]; simpl.
  - rewrite bind_run, bind_run.
    erewrite get_matrix_ok by (simpl; eauto with heap).
    rewrite bind_run, new_matrix_run, mret_run. cbv beta iota.
    simpl vecs; simpl mats; simpl solves.
    erewrite KrylovSolver_solve_run_pc; simpl vecs; simpl mats.
    + by rewrite <- app_assoc.
    + eauto with heap.
    + eauto with heap.
    + eauto with heap.
    + eauto with heap.
  - run1. erewrite KrylovSolver_solve_run; simpl vecs; simpl mats;
      eauto with heap.
Qed.

Lemma Trapezoidal_step_run (self : stepper) (u1 u0 : loc) (t dt tol : Qc)
    (verbose : bool) (maxiter : nat) (krylov preconditioner : string)
    (h : heap) (Mv : matrix) (u0v x0 : vec) :
  mats h !! M self = Some Mv →
  vecs h !! u0 = Some u0v →
  vecs h !! u1 = Some x0 →
  let p := problem self in
  let Lu0v := mvmul (get_system p t).1 u0v in
  let A := madd Mv (mscale (Q2Qc (1 # 2) * dt) (get_system p (t + dt)).1) in
  let rhs :=
    vaxpy (vaxpy (mvmul (mass_form p) u0v) (- dt * Q2Qc (1 # 2)) Lu0v)
          (dt * Q2Qc (1 # 2))
          (vadd (get_system p t).2 (get_system p (t + dt)).2) in
  let sys := apply_bcs (get_bcs p (t + dt)) (A, rhs) in
  Trapezoidal.step self u1 u0 t dt tol verbose maxiter krylov preconditioner h
  = solve_outcome
      (mkKrylovSolver krylov preconditioner (krylov_params tol maxiter verbose))
      sys.1 None u1 sys.2 x0
      (mkHeap (vecs h ++ [Lu0v; sys.2]) (mats h ++ [sys.1]) (solves h)).
Proof.
  intros HM Hu0 Hu1 p Lu0v A rhs sys. unfold Trapezoidal.step.
  fold p. destruct (get_system p t) as [L0 b0] eqn:E0.
  destruct (get_system p (t + dt)) as [L1 b1] eqn:E1.
  simpl in Lu0v, A, rhs.
  do 3 run1. rewrite insert_snoc. do 3 run1. rewrite insert_snoc.
  run1. rewrite insert_snoc. do 2 run1.
  rewrite bind_run.
  erewrite for_each_bc_apply_run by (simpl; eauto with heap).
  fold Lu0v A rhs sys. simpl vecs; simpl mats; simpl solves.
  rewrite !insert_snoc.
  erewrite KrylovSolver_solve_run; simpl vecs; simpl mats.
  - by rewrite <- app_assoc.
  - eauto with heap.
  - eauto with heap.
  - eauto with heap.
Qed.

End Steppers.

(** ** The three Euler-type schemes *)

Section Schemes.
Context `{Backend}.

Lemma solve_outcome_solved_by (solver : KrylovSolver) (sys : matrix * vec)
    (P : option matrix) (x0 : vec) (u1 : loc) (h h1 : heap) :
  solves h1 = solves h → (u1 < length (vecs h1))%nat →
  solved_by solver sys P x0 u1 h (solve_outcome solver sys.1 P u1 sys.2 x0 h1).
Proof.
  intros Hs Hlt. unfold solved_by, solve_outcome.
  destruct (krylov_solve _ _ _ _ _); simpl; rewrite Hs; [|done].
  split; [done|]. split; [done|]. by apply list_lookup_insert_eq.
Qed.

(** On a stepper whose [self.M] holds the assembled mass operator,
    [ExplicitEuler.step] computes [u1] as the solver's solution of the
    system [M u1 = M u0 + dt (b(t) - L(t) u0)], with the Dirichlet
    conditions of [get_bcs(t + dt)] applied to the pair [(M, rhs)] before
    the solve. *)
Theorem ExplicitEuler_step_system (self : stepper) (u1 u0 : loc)
    (t dt tol : Qc) (maxiter : nat) (verbose : bool) (h : heap)
    (u0v x0 : vec) :
  mats h !! M self = Some (mass_form (problem self)) →
  vecs h !! u0 = Some u0v →
  vecs h !! u1 = Some x0 →
  solved_by (mkKrylovSolver "cg" "amg" (krylov_params tol maxiter verbose))
            (Spec.explicit_euler_system (problem self) u0v t dt) None x0 u1 h
            (ExplicitEuler.step self u1 u0 t dt tol maxiter verbose h).
Proof.
  intros HM Hu0 Hu1.
  rewrite (ExplicitEuler_step_run _ _ _ _ _ _ _ _ _ _ _ _ HM Hu0 Hu1).
  rewrite explicit_rhs. apply solve_outcome_solved_by; simpl; [done|].
  rewrite length_app. pose proof (lookup_lt_Some _ _ _ Hu1). lia.
Qed.

(** C5. On a stepper whose [self.M] holds the assembled mass operator,
    [ImplicitEuler.step] computes [u1] as the solver's solution of
    [(M + dt L(t+dt)) u1 = M u0 + dt b(t+dt)], operator and source both
    taken from [get_system(t + dt)], with the Dirichlet conditions of
    [get_bcs(t + dt)] applied before the solve; a preconditioner [P]
    supplied by the problem enters as [M + dt P]. *)
Theorem ImplicitEuler_step_system (self : stepper) (u1 u0 : loc)
    (t dt tol : Qc) (maxiter : nat) (verbose : bool)
    (krylov preconditioner : string) (h : heap) (u0v x0 : vec) :
  mats h !! M self = Some (mass_form (problem self)) →
  vecs h !! u0 = Some u0v →
  vecs h !! u1 = Some x0 →
  solved_by
    (mkKrylovSolver krylov preconditioner (krylov_params tol maxiter verbose))
    (Spec.implicit_euler_system (problem self) u0v t dt)
    ((λ P, madd (mass_form (problem self)) (mscale dt P))
       <$> get_preconditioner (problem self) (t + dt))
    x0 u1 h
    (ImplicitEuler.step self u1 u0 t dt tol maxiter verbose
                        krylov preconditioner h).
Proof.
  intros HM Hu0 Hu1.
  rewrite (ImplicitEuler_step_run _ _ _ _ _ _ _ _ _ _ _ _ _ _ HM Hu0 Hu1).
  apply solve_outcome_solved_by; simpl; [done|].
  rewrite length_app. pose proof (lookup_lt_Some _ _ _ Hu1). lia.
Qed.

(** C6. On a stepper whose [self.M] holds the assembled mass operator,
    [Trapezoidal.step] computes [u1] as the solver's solution of
    [(M + dt/2 L(t+dt)) u1 = M u0 + dt/2 (b(t) + b(t+dt)) - dt/2 L(t) u0],
    with [(L(t), b(t)) = get_system(t)],
    [(L(t+dt), b(t+dt)) = get_system(t + dt)] and the Dirichlet conditions
    of [get_bcs(t + dt)] applied before the solve. *)
Theorem Trapezoidal_step_system (self : stepper) (u1 u0 : loc)
    (t dt tol : Qc) (verbose : bool) (maxiter : nat)
    (krylov preconditioner : string) (h : heap) (u0v x0 : vec) :
  mats h !! M self = Some (mass_form (problem self)) →
  vecs h !! u0 = Some u0v →
  vecs h !! u1 = Some x0 →
  solved_by
    (mkKrylovSolver krylov preconditioner (krylov_params tol maxiter verbose))
    (Spec.trapezoidal_system (problem self) u0v t dt) None x0 u1 h
    (Trapezoidal.step self u1 u0 t dt tol verbose maxiter
                      krylov preconditioner h).
Proof.
  intros HM Hu0 Hu1.
  rewrite (Trapezoidal_step_run _ _ _ _ _ _ _ _ _ _ _ _ _ _ HM Hu0 Hu1).
  rewrite trapezoidal_rhs. apply solve_outcome_solved_by; simpl; [done|].
  rewrite length_app. pose proof (lookup_lt_Some _ _ _ Hu1). lia.
Qed.

End Schemes.

Import Sample.

Lemma ExplicitEuler_step_system_witness :
  solved_by (mkKrylovSolver "cg" "amg" (krylov_params tol10 100 true))
            (Spec.explicit_euler_system heat [q 1 1; q 1 1] (q 0 1) (q 1 1))
            None [q 0 1; q 0 1] 1 heap2
            (ExplicitEuler.step stepper2 1 0 (q 0 1) (q 1 1) tol10 100 true
                                heap2).
Proof.
  apply (ExplicitEuler_step_system stepper2 1 0 (q 0 1) (q 1 1) tol10 100
           true heap2 [q 1 1; q 1 1] [q 0 1; q 0 1]); reflexivity.
Defined.

Lemma ImplicitEuler_step_system_witness :
  solved_by (mkKrylovSolver "gmres" "ilu" (krylov_params tol10 1000 true))
            (Spec.implicit_euler_system heat [q 1 1; q 1 1] (q 0 1) (q 1 1))
            None [q 0 1; q 0 1] 1 heap2
            (ImplicitEuler.step stepper2 1 0 (q 0 1) (q 1 1) tol10 1000 true
                                "gmres" "ilu" heap2).
Proof.
  apply (ImplicitEuler_step_system stepper2 1 0 (q 0 1) (q 1 1) tol10 1000
           true "gmres" "ilu" heap2 [q 1 1; q 1 1] [q 0 1; q 0 1]);
    reflexivity.
Defined.

Lemma Trapezoidal_step_system_witness :
  solved_by (mkKrylovSolver "gmres" "ilu" (krylov_params tol10 1000 true))
            (Spec.trapezoidal_system heat [q 1 1; q 1 1] (q 0 1) (q 1 1))
            None [q 0 1; q 0 1] 1 heap2
            (Trapezoidal.step stepper2 1 0 (q 0 1) (q 1 1) tol10 true 1000
                              "gmres" "ilu" heap2).
Proof.
  apply (Trapezoidal_step_system stepper2 1 0 (q 0 1) (q 1 1) tol10 true 1000
           "gmres" "ilu" heap2 [q 1 1; q 1 1] [q 0 1; q 0 1]);
    reflexivity.
Defined.

(** ** The mass matrix of an [ExplicitEuler] stepper across steps *)

Lemma length_unit_row (n i : nat) : length (unit_row n i) = n.
Proof. unfold unit_row, vzero. by rewrite length_insert, length_replicate. Qed.

Lemma ident_row_lookup (d : nat) (A : matrix) (i : nat) :
  ident_row d A !! i
  = (λ r, if decide (i = d) then unit_row (length r) i else r) <$> A !! i.
Proof.
  unfold ident_row. destruct (A !! d) as [r|] eqn:Hd.
  - destruct (decide (i = d)) as [->|Hne].
    + rewrite list_lookup_insert_eq by by eapply lookup_lt_Some.
      by rewrite Hd.
    + rewrite list_lookup_insert_ne by done. by destruct (A !! i).
  - destruct (A !! i) as [r|] eqn:Hi; simpl; [|done].
    destruct (decide (i = d)) as [->|Hne]; [congruence|done].
Qed.

Lemma ident_rows_lookup (ds : list nat) (A : matrix) (i : nat) :
  ident_rows ds A !! i
  = (λ r, if decide (i ∈ ds) then unit_row (length r) i else r) <$> A !! i.
Proof.
  revert A. induction ds as [|d ds IH]; intros A.
  - simpl. destruct (A !! i); simpl; [|done].
    destruct (decide (i ∈ [])) as [Hin|_]; [|done].
    by apply not_elem_of_nil in Hin.
  - change (ident_rows (d :: ds) A) with (ident_rows ds (ident_row d A)).
    rewrite IH, ident_row_lookup.
    destruct (A !! i) as [r|]; simpl; [|done]. f_equal.
    destruct (decide (i = d)) as [->|Hne];
      destruct (decide (_ ∈ ds)) as [Hin|Hnin];
      destruct (decide (_ ∈ d :: ds)) as [Hin'|Hnin'];
      rewrite ?length_unit_row; try done.
    + exfalso. apply Hnin'. by right.
    + exfalso. apply Hnin'. by left.
    + exfalso. apply Hnin'. by right.
    + exfalso. apply elem_of_cons in Hin' as [?|?]; done.
Qed.

Lemma ident_rows_absorb (ds' ds : list nat) (A : matrix) :
  ds' ⊆ ds → ident_rows ds (ident_rows ds' A) = ident_rows ds A.
Proof.
  intros Hsub. apply list_eq. intros i. rewrite !ident_rows_lookup.
  destruct (A !! i) as [r|]; simpl; [|done]. f_equal.
  destruct (decide (i ∈ ds)) as [Hin|Hnin];
    destruct (decide (i ∈ ds')) as [Hin'|Hnin'];
    rewrite ?length_unit_row; try done.
  exfalso. by apply Hnin, Hsub.
Qed.

Lemma DirichletBC_apply_matrix (bc : DirichletBC) (A : matrix) (b : vec) :
  (DirichletBC_apply (A, b) bc).1 = ident_rows (boundary_values bc).*1 A.
Proof.
  unfold DirichletBC_apply, ident_rows.
  generalize (boundary_values bc). intros l. revert A b.
  induction l as [|[d g] l IH]; intros A b; [done|]. simpl. apply IH.
Qed.

Lemma DirichletBC_apply_vector (bc : DirichletBC) (A A' : matrix) (b : vec) :
  (DirichletBC_apply (A, b) bc).2 = (DirichletBC_apply (A', b) bc).2.
Proof.
  unfold DirichletBC_apply.
  generalize (boundary_values bc). intros l. revert A A' b.
  induction l as [|[d g] l IH]; intros A A' b; [done|]. simpl. apply IH.
Qed.

Lemma apply_bcs_matrix (bcs : list DirichletBC) (A : matrix) (b : vec) :
  (apply_bcs bcs (A, b)).1 = ident_rows (constrained_dofs bcs) A.
Proof.
  unfold apply_bcs, constrained_dofs. revert A b.
  induction bcs as [|bc bcs IH]; intros A b; [done|]. simpl.
  destruct (DirichletBC_apply (A, b) bc) as [A1 b1] eqn:E.
  rewrite IH. unfold ident_rows. rewrite foldl_app. f_equal.
  change A1 with (A1, b1).1. rewrite <- E. apply DirichletBC_apply_matrix.
Qed.

Lemma apply_bcs_vector (bcs : list DirichletBC) (A A' : matrix) (b : vec) :
  (apply_bcs bcs (A, b)).2 = (apply_bcs bcs (A', b)).2.
Proof.
  unfold apply_bcs. revert A A' b.
  induction bcs as [|bc bcs IH]; intros A A' b; [done|]. simpl.
  pose proof (DirichletBC_apply_vector bc A A' b) as Hv.
  destruct (DirichletBC_apply (A, b) bc) as [A1 b1].
  destruct (DirichletBC_apply (A', b) bc) as [A1' b1'].
  simpl in Hv. subst b1'. apply IH.
Qed.

(** Rows that are already unit rows and are constrained again make no
    difference to the constrained system. *)
Lemma apply_bcs_absorb (bcs : list DirichletBC) (ds' : list nat)
    (A : matrix) (b : vec) :
  ds' ⊆ constrained_dofs bcs →
  apply_bcs bcs (ident_rows ds' A, b) = apply_bcs bcs (A, b).
Proof.
  intros Hsub.
  rewrite (surjective_pairing (apply_bcs bcs (ident_rows ds' A, b))).
  rewrite (surjective_pairing (apply_bcs bcs (A, b))).
  rewrite !apply_bcs_matrix, ident_rows_absorb by done.
  by rewrite (apply_bcs_vector bcs _ A).
Qed.

Section ExplicitEulerMass.
Context `{Backend}.

Lemma mats_solve_outcome (solver : KrylovSolver) (A : matrix)
    (P : option matrix) (x : loc) (bv x0 : vec) (h : heap) :
  mats (solve_outcome solver A P x bv x0 h).2 = mats h.
Proof. unfold solve_outcome. by destruct (krylov_solve _ _ _ _ _). Qed.

(** X14. After [ExplicitEuler.step] the matrix object [self.M] holds its
    entry value with the rows of all degrees of freedom constrained at
    [t + dt] replaced by unit rows. *)
Lemma ExplicitEuler_step_M (self : stepper) (u1 u0 : loc) (t dt tol : Qc)
    (maxiter : nat) (verbose : bool) (h : heap) (Mv : matrix) (u0v x0 : vec) :
  mats h !! M self = Some Mv →
  vecs h !! u0 = Some u0v →
  vecs h !! u1 = Some x0 →
  mats (ExplicitEuler.step self u1 u0 t dt tol maxiter verbose h).2 !! M self
  = Some (ident_rows (constrained_dofs (get_bcs (problem self) (t + dt))) Mv).
Proof.
  intros HM Hu0 Hu1.
  rewrite (ExplicitEuler_step_run _ _ _ _ _ _ _ _ _ _ _ _ HM Hu0 Hu1).
  rewrite mats_solve_outcome. simpl.
  rewrite list_lookup_insert_eq by by eapply lookup_lt_Some.
  by rewrite apply_bcs_matrix.
Qed.

(** X15. The system of the specification is also the one solved on later
    steps, as long as the rows of [self.M] overwritten so far belong to
    degrees of freedom that are constrained again at [t + dt] (which is
    the case when the constrained boundary does not change with time). *)
Lemma ExplicitEuler_step_system_reused (self : stepper) (u1 u0 : loc)
    (t dt tol : Qc) (maxiter : nat) (verbose : bool) (h : heap)
    (ds : list nat) (u0v x0 : vec) :
  mats h !! M self = Some (ident_rows ds (mass_form (problem self))) →
  ds ⊆ constrained_dofs (get_bcs (problem self) (t + dt)) →
  vecs h !! u0 = Some u0v →
  vecs h !! u1 = Some x0 →
  solved_by (mkKrylovSolver "cg" "amg" (krylov_params tol maxiter verbose))
            (Spec.explicit_euler_system (problem self) u0v t dt) None x0 u1 h
            (ExplicitEuler.step self u1 u0 t dt tol maxiter verbose h).
Proof.
  intros HM Hsub Hu0 Hu1.
  rewrite (ExplicitEuler_step_run _ _ _ _ _ _ _ _ _ _ _ _ HM Hu0 Hu1).
  rewrite explicit_rhs, apply_bcs_absorb by done.
  apply solve_outcome_solved_by; simpl; [done|].
  rewrite length_app. pose proof (lookup_lt_Some _ _ _ Hu1). lia.
Qed.

End ExplicitEulerMass.

(** ** A frame rule for the matrix objects *)

Lemma stable_bind (n : nat) {A B} (m : St A) (f : A → St B)
    (Q : A → Prop) (R : B → Prop) :
  stable n m Q → (∀ a, Q a → stable n (f a) R) → stable n (m ≫= f) R.
Proof.
  intros Hm Hf h Hn. rewrite bind_run.
  destruct (Hm h Hn) as [Ht HQ]. destruct (m h) as [[a|e] h']; simpl in *.
  - assert (n ≤ length (mats h'))%nat as Hn'.
    { apply (f_equal length) in Ht. rewrite !length_take in Ht. lia. }
    destruct (Hf a (HQ a eq_refl) h' Hn') as [Ht' HR].
    split; [by rewrite Ht', Ht|done].
  - split; [done|]. intros b [=].
Qed.

Lemma stable_same (n : nat) {A} (m : St A) :
  (∀ h, mats (m h).2 = mats h) → stable n m (λ _, True).
Proof. intros Hm h _. by rewrite Hm. Qed.

Lemma stable_mret (n : nat) {A} (a : A) : stable n (mret a) (λ _, True).
Proof. by apply stable_same. Qed.

Lemma stable_lift_option (n : nat) {A} (e : exn) (o : option A) :
  stable n (lift_option e o) (λ _, True).
Proof. apply stable_same. intros h. by destruct o. Qed.

Lemma stable_vector (n : nat) (r : loc) : stable n (vector r) (λ _, True).
Proof. apply stable_same. intros h. unfold vector. by destruct (_ !! _). Qed.

Lemma stable_get_matrix (n : nat) (r : loc) :
  stable n (get_matrix r) (λ _, True).
Proof.
  apply stable_same. intros h. unfold get_matrix. by destruct (_ !! _).
Qed.

Lemma stable_new_vector (n : nat) (v : vec) :
  stable n (new_vector v) (λ _, True).
Proof. by apply stable_same. Qed.

Lemma stable_set_vector (n : nat) (r : loc) (v : vec) :
  stable n (set_vector r v) (λ _, True).
Proof. by apply stable_same. Qed.

Lemma stable_log_call (n : nat) (c : solve_call) :
  stable n (log_call c) (λ _, True).
Proof. by apply stable_same. Qed.

Lemma stable_new_matrix (n : nat) (m : matrix) :
  stable n (new_matrix m) (λ A, (n ≤ A)%nat).
Proof.
  intros h Hn. simpl. split; [by apply take_app_le|]. by intros a [= <-].
Qed.

Lemma stable_set_matrix (n : nat) (r : loc) (m : matrix) :
  (n ≤ r)%nat → stable n (set_matrix r m) (λ _, True).
Proof. intros Hr h Hn. simpl. split; [by apply take_insert_ge|done]. Qed.

Lemma stable_for_each (n : nat) {A} (l : list A) (body : A → St unit) :
  (∀ x, stable n (body x) (λ _, True)) →
  stable n (for_each l body) (λ _, True).
Proof.
  intros Hbody. induction l as [|x l IH]; simpl.
  - apply stable_mret.
  - eapply stable_bind; [apply Hbody|]. by intros _ _.
Qed.

(** Chaining the frame rule through a [≫=] sequence of operations that
    write no matrix below [n]. *)
Ltac stable_step :=
  first
    [ apply stable_mret | apply stable_lift_option | apply stable_vector
    | apply stable_get_matrix | apply stable_new_vector
    | apply stable_set_vector | apply stable_log_call
    | apply stable_set_matrix; assumption
    | eapply stable_bind; [apply stable_new_matrix | intros ? ?]
    | eapply stable_bind; [stable_step | intros ? _] ].

Lemma stable_Function (n : nat) (V : FunctionSpace) :
  stable n (Function V) (λ _, True).
Proof. apply stable_new_vector. Qed.

Lemma stable_axpy (n : nat) (y : loc) (a : Qc) (x : vec) :
  stable n (axpy y a x) (λ _, True).
Proof. unfold axpy. repeat stable_step. Qed.

Lemma stable_assemble_mass_action (n : nat) (p : ParabolicProblem)
    (u0 : loc) :
  stable n (assemble_mass_action p u0) (λ _, True).
Proof. unfold assemble_mass_action. repeat stable_step. Qed.

Lemma stable_bc_apply (n : nat) (bc : DirichletBC) (A rhs : loc) :
  (n ≤ A)%nat → stable n (bc_apply bc A rhs) (λ _, True).
Proof. intros HA. unfold bc_apply. repeat stable_step. Qed.

Lemma stable_KrylovSolver_solve `{Backend} (n : nat) (solver : KrylovSolver)
    (A : loc) (P : option loc) (x rhs : loc) :
  stable n (KrylovSolver_solve solver A P x rhs) (λ _, True).
Proof.
  unfold KrylovSolver_solve. destruct P; repeat stable_step.
Qed.

Lemma stable_lookup (n : nat) {A} (m : St A) (Q : A → Prop) (h : heap)
    (r : loc) (Mv : matrix) :
  stable n m Q → n = length (mats h) →
  mats h !! r = Some Mv → mats (m h).2 !! r = Some Mv.
Proof.
  intros Hm -> Hr. destruct (Hm h (le_n _)) as [Ht _].
  pose proof (lookup_lt_Some _ _ _ Hr) as Hlt.
  rewrite <- (lookup_take_lt _ (length (mats h))) by done.
  rewrite Ht, lookup_take_lt by done. done.
Qed.

Section Frame.
Context `{Backend}.

Lemma ImplicitEuler_step_stable (n : nat) (self : stepper) (u1 u0 : loc)
    (t dt tol : Qc) (maxiter : nat) (verbose : bool)
    (krylov preconditioner : string) :
  stable n (ImplicitEuler.step self u1 u0 t dt tol maxiter verbose
                               krylov preconditioner) (λ _, True).
Proof.
  unfold ImplicitEuler.step. destruct (get_system _ _) as [L b].
  eapply stable_bind; [apply stable_get_matrix|intros Mv _].
  eapply stable_bind; [apply stable_new_matrix|intros A HA].
  eapply stable_bind; [apply stable_assemble_mass_action|intros rhs _].
  eapply stable_bind; [apply stable_axpy|intros _ _].
  eapply stable_bind.
  { apply stable_for_each. intros bc. by apply stable_bc_apply. }
  intros _ _.
  eapply (stable_bind _ _ _ (λ _, True)).
  { destruct (get_preconditioner _ _); repeat stable_step. }
  intros P _. apply stable_KrylovSolver_solve.
Qed.

Lemma Trapezoidal_step_stable (n : nat) (self : stepper) (u1 u0 : loc)
    (t dt tol : Qc) (verbose : bool) (maxiter : nat)
    (krylov preconditioner : string) :
  stable n (Trapezoidal.step self u1 u0 t dt tol verbose maxiter
                             krylov preconditioner) (λ _, True).
Proof.
  unfold Trapezoidal.step. destruct (get_system _ t) as [L0 b0].
  destruct (get_system _ (t + dt)) as [L1 b1].
  eapply stable_bind; [apply stable_Function|intros Lu0 _].
  eapply stable_bind; [apply stable_vector|intros u0v _].
  eapply stable_bind; [apply stable_set_vector|intros _ _].
  eapply stable_bind; [apply stable_assemble_mass_action|intros rhs _].
  eapply stable_bind; [apply stable_vector|intros Lu0v _].
  eapply stable_bind; [apply stable_axpy|intros _ _].
  eapply stable_bind; [apply stable_axpy|intros _ _].
  eapply stable_bind; [apply stable_get_matrix|intros Mv _].
  eapply stable_bind; [apply stable_new_matrix|intros A HA].
  eapply stable_bind.
  { apply stable_for_each. intros bc. by apply stable_bc_apply. }
  intros _ _. apply stable_KrylovSolver_solve.
Qed.

(** C10. [ImplicitEuler.step] and [Trapezoidal.step] leave the stored
    mass matrix unchanged on every call, whatever the outcome of the
    step: the operator [A] is a newly created matrix object, and applying
    the boundary conditions writes only to it and to the right-hand side,
    so [self.M] holds after the step the value it held before. *)
Theorem implicit_steps_keep_M (self : stepper) (u1 u0 : loc)
    (t dt tol : Qc) (maxiter : nat) (verbose : bool)
    (krylov preconditioner : string) (h : heap) (Mv : matrix) :
  mats h !! M self = Some Mv →
  mats (ImplicitEuler.step self u1 u0 t dt tol maxiter verbose
                           krylov preconditioner h).2 !! M self = Some Mv
  ∧ mats (Trapezoidal.step self u1 u0 t dt tol verbose maxiter
                           krylov preconditioner h).2 !! M self = Some Mv.
Proof.
  intros HM. split.
  - eapply stable_lookup; [apply ImplicitEuler_step_stable|done..].
  - eapply stable_lookup; [apply Trapezoidal_step_stable|done..].
Qed.

End Frame.

Lemma implicit_steps_keep_M_witness :
  mats (ImplicitEuler.step Sample.stepper2 1 0 (q 0 1) (q 1 1) Sample.tol10
          1000 true "gmres" "ilu" Sample.heap2).2 !! 0%nat
  = Some (mass_form Sample.heat)
  ∧ mats (Trapezoidal.step Sample.stepper2 1 0 (q 0 1) (q 1 1) Sample.tol10
            true 1000 "gmres" "ilu" Sample.heap2).2 !! 0%nat
    = Some (mass_form Sample.heat).
Proof.
  apply (implicit_steps_keep_M Sample.stepper2 1 0 (q 0 1) (q 1 1)
           Sample.tol10 1000 true "gmres" "ilu" Sample.heap2
           (mass_form Sample.heat)).
  reflexivity.
Defined.

(** ** The verbose flag *)

Lemma quiet_heap_inv (h1 h2 : heap) :
  quiet_heap h1 = quiet_heap h2 →
  vecs h1 = vecs h2 ∧ mats h1 = mats h2
  ∧ quiet_call <$> solves h1 = quiet_call <$> solves h2.
Proof. unfold quiet_heap. by intros [= -> -> ->]. Qed.

Lemma agree_bind {A B} (m1 m2 : St A) (f1 f2 : A → St B) :
  agree m1 m2 → (∀ a, agree (f1 a) (f2 a)) →
  agree (m1 ≫= f1) (m2 ≫= f2).
Proof.
  intros Hm Hf h1 h2 Hq. rewrite !bind_run.
  specialize (Hm h1 h2 Hq). unfold observable in Hm.
  destruct (m1 h1) as [r1 h1'], (m2 h2) as [r2 h2'].
  pose proof (f_equal fst Hm) as Hr. pose proof (f_equal snd Hm) as Hq'.
  simpl in Hr, Hq'. subst r1.
  destruct r2 as [a|e]; [by apply Hf|].
  unfold observable; simpl. by rewrite Hq'.
Qed.

(** A computation that neither reads nor writes the log agrees with
    itself. *)
Lemma agree_log_free {A} (m : St A) (f : list vec → list matrix →
    result A * (list vec * list matrix)) :
  (∀ h, m h = ((f (vecs h) (mats h)).1,
               mkHeap (f (vecs h) (mats h)).2.1 (f (vecs h) (mats h)).2.2
                      (solves h))) →
  agree m m.
Proof.
  intros Hm h1 h2 Hq. destruct (quiet_heap_inv _ _ Hq) as (Hv & Hmt & Hs).
  rewrite (Hm h1), (Hm h2), Hv, Hmt. unfold observable, quiet_heap; simpl.
  by rewrite Hs.
Qed.

Lemma agree_mret {A} (a : A) : agree (mret a) (mret a).
Proof.
  apply (agree_log_free _ (λ v m, (Ok a, (v, m)))).
  intros h. by destruct h.
Qed.

Lemma agree_raise {A} (e : exn) : agree (raise e : St A) (raise e).
Proof.
  apply (agree_log_free _ (λ v m, (Raise e, (v, m)))).
  intros h. by destruct h.
Qed.

Lemma agree_lift_option {A} (e : exn) (o : option A) :
  agree (lift_option e o) (lift_option e o).
Proof. destruct o; [apply agree_mret|apply agree_raise]. Qed.

Lemma agree_vector (r : loc) : agree (vector r) (vector r).
Proof.
  apply (agree_log_free _
    (λ v m, (match v !! r with Some x => Ok x | None => Raise InvalidReference
             end, (v, m)))).
  intros h. unfold vector. destruct (vecs h !! r); by destruct h.
Qed.

Lemma agree_get_matrix (r : loc) : agree (get_matrix r) (get_matrix r).
Proof.
  apply (agree_log_free _
    (λ v m, (match m !! r with Some x => Ok x | None => Raise InvalidReference
             end, (v, m)))).
  intros h. unfold get_matrix. destruct (mats h !! r); by destruct h.
Qed.

Lemma agree_new_vector (x : vec) : agree (new_vector x) (new_vector x).
Proof.
  apply (agree_log_free _ (λ v m, (Ok (length v), (v ++ [x], m)))).
  intros h. by destruct h.
Qed.

Lemma agree_new_matrix (x : matrix) : agree (new_matrix x) (new_matrix x).
Proof.
  apply (agree_log_free _ (λ v m, (Ok (length m), (v, m ++ [x])))).
  intros h. by destruct h.
Qed.

Lemma agree_set_vector (r : loc) (x : vec) :
  agree (set_vector r x) (set_vector r x).
Proof.
  apply (agree_log_free _ (λ v m, (Ok tt, (<[r := x]> v, m)))).
  intros h. by destruct h.
Qed.

Lemma agree_set_matrix (r : loc) (x : matrix) :
  agree (set_matrix r x) (set_matrix r x).
Proof.
  apply (agree_log_free _ (λ v m, (Ok tt, (v, <[r := x]> m)))).
  intros h. by destruct h.
Qed.

Lemma agree_log_call (c1 c2 : solve_call) :
  quiet_call c1 = quiet_call c2 → agree (log_call c1) (log_call c2).
Proof.
  intros Hc h1 h2 Hq. destruct (quiet_heap_inv _ _ Hq) as (Hv & Hm & Hs).
  unfold observable, quiet_heap; simpl.
  by rewrite !fmap_app, Hv, Hm, Hs; simpl; rewrite Hc.
Qed.

Lemma agree_for_each {A} (l : list A) (body1 body2 : A → St unit) :
  (∀ x, agree (body1 x) (body2 x)) →
  agree (for_each l body1) (for_each l body2).
Proof.
  intros Hb. induction l as [|x l IH]; simpl; [apply agree_mret|].
  apply agree_bind; [apply Hb|]. by intros _.
Qed.

Lemma agree_for_fold {A S} (l : list A) (body1 body2 : S → A → St S)
    (s : S) :
  (∀ s x, agree (body1 s x) (body2 s x)) →
  agree (for_fold l body1 s) (for_fold l body2 s).
Proof.
  intros Hb. revert s. induction l as [|x l IH]; intros s; simpl;
    [apply agree_mret|].
  apply agree_bind; [apply Hb|]. apply IH.
Qed.

(** Discharging [agree] goals along a [≫=] chain. *)
Ltac agree_step :=
  first
    [ apply agree_mret | apply agree_raise | apply agree_lift_option
    | apply agree_vector | apply agree_get_matrix | apply agree_new_vector
    | apply agree_new_matrix | apply agree_set_vector
    | apply agree_set_matrix
    | apply agree_bind; [|intros ?] ].

Lemma agree_Function (V : FunctionSpace) : agree (Function V) (Function V).
Proof. apply agree_new_vector. Qed.

Lemma agree_axpy (y : loc) (a : Qc) (x : vec) :
  agree (axpy y a x) (axpy y a x).
Proof. unfold axpy. repeat agree_step. Qed.

Lemma agree_assemble_mass_action (p : ParabolicProblem) (u0 : loc) :
  agree (assemble_mass_action p u0) (assemble_mass_action p u0).
Proof. unfold assemble_mass_action. repeat agree_step. Qed.

Lemma agree_bc_apply (bc : DirichletBC) (A rhs : loc) :
  agree (bc_apply bc A rhs) (bc_apply bc A rhs).
Proof. unfold bc_apply. repeat agree_step. Qed.

Section Verbose.
Context `{Backend}.
Hypothesis Hmonitor : monitor_only_reports.

Lemma agree_KrylovSolver_solve (s1 s2 : KrylovSolver) (A : loc)
    (P : option loc) (x rhs : loc) :
  quiet_solver s1 = quiet_solver s2 →
  agree (KrylovSolver_solve s1 A P x rhs) (KrylovSolver_solve s2 A P x rhs).
Proof.
  intros Hs. unfold KrylovSolver_solve.
  apply agree_bind; [apply agree_get_matrix|intros Av].
  apply agree_bind; [destruct P; repeat agree_step|intros Pv].
  apply agree_bind; [apply agree_vector|intros bv].
  apply agree_bind; [apply agree_vector|intros x0].
  apply agree_bind; [apply agree_log_call; simpl; by rewrite Hs|intros _].
  destruct Hmonitor as [Hk _].
  rewrite (Hk s1), (Hk s2), Hs. repeat agree_step.
Qed.

Lemma quiet_krylov_params (tol : Qc) (maxiter : nat) (v1 v2 : bool)
    (method pc : string) :
  quiet_solver (mkKrylovSolver method pc (krylov_params tol maxiter v1))
  = quiet_solver (mkKrylovSolver method pc (krylov_params tol maxiter v2)).
Proof. reflexivity. Qed.

Lemma agree_ExplicitEuler_step (self : stepper) (u1 u0 : loc)
    (t dt tol : Qc) (maxiter : nat) (v1 v2 : bool) :
  agree (ExplicitEuler.step self u1 u0 t dt tol maxiter v1)
        (ExplicitEuler.step self u1 u0 t dt tol maxiter v2).
Proof.
  unfold ExplicitEuler.step. destruct (get_system _ _) as [L b].
  apply agree_bind; [apply agree_Function|intros Lu0].
  apply agree_bind; [apply agree_vector|intros u0v].
  apply agree_bind; [apply agree_set_vector|intros _].
  apply agree_bind; [apply agree_assemble_mass_action|intros rhs].
  apply agree_bind; [apply agree_vector|intros Lu0v].
  apply agree_bind; [apply agree_axpy|intros _].
  apply agree_bind;
    [apply agree_for_each; intros bc; apply agree_bc_apply|intros _].
  apply agree_KrylovSolver_solve, quiet_krylov_params.
Qed.

Lemma agree_ImplicitEuler_step (self : stepper) (u1 u0 : loc)
    (t dt tol : Qc) (maxiter : nat) (v1 v2 : bool)
    (krylov preconditioner : string) :
  agree (ImplicitEuler.step self u1 u0 t dt tol maxiter v1
                            krylov preconditioner)
        (ImplicitEuler.step self u1 u0 t dt tol maxiter v2
                            krylov preconditioner).
Proof.
  unfold ImplicitEuler.step. destruct (get_system _ _) as [L b].
  apply agree_bind; [apply agree_get_matrix|intros Mv].
  apply agree_bind; [apply agree_new_matrix|intros A].
  apply agree_bind; [apply agree_assemble_mass_action|intros rhs].
  apply agree_bind; [apply agree_axpy|intros _].
  apply agree_bind;
    [apply agree_for_each; intros bc; apply agree_bc_apply|intros _].
  apply agree_bind.
  { destruct (get_preconditioner _ _); repeat agree_step. }
  intros P. apply agree_KrylovSolver_solve, quiet_krylov_params.
Qed.

Lemma agree_Trapezoidal_step (self : stepper) (u1 u0 : loc)
    (t dt tol : Qc) (v1 v2 : bool) (maxiter : nat)
    (krylov preconditioner : string) :
  agree (Trapezoidal.step self u1 u0 t dt tol v1 maxiter
                          krylov preconditioner)
        (Trapezoidal.step self u1 u0 t dt tol v2 maxiter
                          krylov preconditioner).
Proof.
  unfold Trapezoidal.step. destruct (get_system _ t) as [L0 b0].
  destruct (get_system _ (t + dt)) as [L1 b1].
  apply agree_bind; [apply agree_Function|intros Lu0].
  apply agree_bind; [apply agree_vector|intros u0v].
  apply agree_bind; [apply agree_set_vector|intros _].
  apply agree_bind; [apply agree_assemble_mass_action|intros rhs].
  apply agree_bind; [apply agree_vector|intros Lu0v].
  apply agree_bind; [apply agree_axpy|intros _].
  apply agree_bind; [apply agree_axpy|intros _].
  apply agree_bind; [apply agree_get_matrix|intros Mv].
  apply agree_bind; [apply agree_new_matrix|intros A].
  apply agree_bind;
    [apply agree_for_each; intros bc; apply agree_bc_apply|intros _].
  apply agree_KrylovSolver_solve, quiet_krylov_params.
Qed.

Lemma ufl_eval_vecs (h1 h2 : heap) (e : ufl) :
  vecs h1 = vecs h2 → ufl_eval h1 e = ufl_eval h2 e.
Proof.
  intros Hv. induction e as [f|a IHa b IHb|c a IHa]; simpl.
  - by rewrite Hv.
  - by rewrite IHa, IHb.
  - by rewrite IHa.
Qed.

Lemma agree_assemble (L : form) : agree (assemble L) (assemble L).
Proof.
  intros h1 h2 Hq. destruct (quiet_heap_inv _ _ Hq) as (Hv & _ & _).
  unfold assemble. rewrite (ufl_eval_vecs h1 h2) by done.
  destruct (ufl_eval h2 _); unfold observable; simpl; by rewrite Hq.
Qed.

Lemma agree_solve_variational (V : FunctionSpace) (L : form) (target : loc)
    (bcs : list DirichletBC) (p1 p2 : solver_parameters) :
  quiet_solver_parameters p1 = quiet_solver_parameters p2 →
  agree (solve_variational V L target bcs p1)
        (solve_variational V L target bcs p2).
Proof.
  intros Hp. unfold solve_variational.
  apply agree_bind; [apply agree_assemble|intros Lv].
  apply agree_bind; [apply agree_vector|intros x0].
  apply agree_bind; [apply agree_log_call; simpl; by rewrite Hp|intros _].
  destruct Hmonitor as [_ Hv].
  rewrite (Hv p1), (Hv p2), Hp. repeat agree_step.
Qed.

Lemma agree_stage (A : matrix) (c : list Qc) (V : FunctionSpace)
    (F : Qc → vec → vec) (u0 : loc) (t dt : Qc) (p1 p2 : solver_parameters)
    (st : list loc * list DirichletBC) (i : nat) :
  quiet_solver_parameters p1 = quiet_solver_parameters p2 →
  agree (RungeKutta.stage A c V F u0 t dt p1 st i)
        (RungeKutta.stage A c V F u0 t dt p2 st i).
Proof.
  intros Hp. unfold RungeKutta.stage. destruct st as [k BCS1].
  apply agree_bind.
  { unfold RungeKutta.stage_state. apply agree_for_fold.
    intros U j. repeat agree_step. }
  intros U. apply agree_bind; [apply agree_lift_option|intros ci].
  apply agree_bind; [apply agree_Function|intros ki].
  apply agree_bind; [apply agree_lift_option|intros ki'].
  apply agree_bind; [by apply agree_solve_variational|intros _].
  apply agree_mret.
Qed.

Lemma agree_runge_kutta_step (A : list (list Qc)) (b c : list Qc)
    (V : FunctionSpace) (F : Qc → vec → vec) (u0 : loc) (t dt : Qc)
    (sympy_dirichlet_bcs : list ((vec → bool) * sympy_expr)) (tol : Qc)
    (v1 v2 : bool) :
  agree (RungeKutta.runge_kutta_step A b c V F u0 t dt sympy_dirichlet_bcs
                                     tol v1)
        (RungeKutta.runge_kutta_step A b c V F u0 t dt sympy_dirichlet_bcs
                                     tol v2).
Proof.
  unfold RungeKutta.runge_kutta_step.
  apply agree_bind.
  { unfold RungeKutta.numpy_array. destruct A as [|r A]; [apply agree_mret|].
    destruct (forallb _ _); [apply agree_mret|apply agree_raise]. }
  intros A'. apply agree_bind.
  { unfold RungeKutta.fancy_index.
    destruct A'; [apply agree_raise|apply agree_lift_option]. }
  intros upper. apply agree_bind.
  { unfold RungeKutta.assert.
    destruct (forallb _ _); [apply agree_mret|apply agree_raise]. }
  intros _. apply agree_bind; [apply agree_lift_option|intros BCS0].
  apply agree_bind; [apply agree_lift_option|intros BCS1].
  apply agree_bind.
  { apply agree_for_fold. intros st i. by apply agree_stage. }
  intros [k BCS1']. apply agree_bind.
  { unfold RungeKutta.combine. apply agree_for_fold.
    intros U i. repeat agree_step. }
  intros U. apply agree_bind; [apply agree_Function|intros theta].
  apply agree_bind; [by apply agree_solve_variational|intros _].
  apply agree_mret.
Qed.

(** C9. Provided the solvers' monitoring flag selects progress reporting
    only, two runs of a step on the same heap with the same arguments
    that differ in [verbose] alone end alike: the same return value or
    the same exception, the same contents of every vector and matrix
    object, and the same sequence of solver requests, which differ only in
    the monitoring flag they carry.  This holds for [Dummy],
    [ExplicitEuler], [ImplicitEuler], [Trapezoidal] and
    [runge_kutta_step]. *)
Theorem verbose_only_reports (v1 v2 : bool) (h : heap)
    (self : stepper) (u1 u0 : loc) (t dt tol : Qc) (maxiter : nat)
    (krylov preconditioner : string) (bcs1 : list DirichletBC)
    (A : list (list Qc)) (b c : list Qc) (V : FunctionSpace)
    (F : Qc → vec → vec)
    (sympy_dirichlet_bcs : list ((vec → bool) * sympy_expr)) :
  observable (Dummy.step (problem self) u0 t dt bcs1 tol v1 h)
  = observable (Dummy.step (problem self) u0 t dt bcs1 tol v2 h)
  ∧ observable (ExplicitEuler.step self u1 u0 t dt tol maxiter v1 h)
    = observable (ExplicitEuler.step self u1 u0 t dt tol maxiter v2 h)
  ∧ observable (ImplicitEuler.step self u1 u0 t dt tol maxiter v1
                                   krylov preconditioner h)
    = observable (ImplicitEuler.step self u1 u0 t dt tol maxiter v2
                                     krylov preconditioner h)
  ∧ observable (Trapezoidal.step self u1 u0 t dt tol v1 maxiter
                                 krylov preconditioner h)
    = observable (Trapezoidal.step self u1 u0 t dt tol v2 maxiter
                                   krylov preconditioner h)
  ∧ observable (RungeKutta.runge_kutta_step A b c V F u0 t dt
                  sympy_dirichlet_bcs tol v1 h)
    = observable (RungeKutta.runge_kutta_step A b c V F u0 t dt
                    sympy_dirichlet_bcs tol v2 h).
Proof.
  split; [reflexivity|].
  split; [by apply agree_ExplicitEuler_step|].
  split; [by apply agree_ImplicitEuler_step|].
  split; [by apply agree_Trapezoidal_step|].
  by apply agree_runge_kutta_step.
Qed.

End Verbose.

(** ** The explicitness check of [runge_kutta_step] *)

Lemma triu_indices_elem (s i j : nat) :
  (i, j) ∈ RungeKutta.triu_indices s ↔ (i ≤ j < s)%nat.
Proof.
  unfold RungeKutta.triu_indices. rewrite list_elem_of_bind. split.
  - intros (i' & (j' & Hret & Hj)%list_elem_of_bind & Hi).
    apply list_elem_of_ret in Hret. injection Hret as -> ->.
    apply elem_of_seq in Hi, Hj. lia.
  - intros Hij. exists i. split; [|apply elem_of_seq; lia].
    apply list_elem_of_bind. exists j.
    split; [by apply list_elem_of_ret|apply elem_of_seq; lia].
Qed.

Section Explicitness.
Context `{Backend}.

(** C7 (amended).  For every [s x s] tableau matrix, [s = len(b)], that
    has an entry of absolute value at least [1e-15] on or above the
    diagonal, [runge_kutta_step] fails with an assertion error and leaves
    the heap as it was: no object is created or changed and no linear
    solve is requested. *)
Theorem runge_kutta_step_rejects (A : list (list Qc)) (b c : list Qc)
    (V : FunctionSpace) (F : Qc → vec → vec) (u0 : loc) (t dt : Qc)
    (sympy_dirichlet_bcs : list ((vec → bool) * sympy_expr)) (tol : Qc)
    (verbose : bool) (h : heap) (i j : nat) (a : Qc) :
  length A = length b →
  Forall (λ r, length r = length b) A →
  (i ≤ j < length b)%nat →
  (r ← A !! i; r !! j) = Some a →
  RungeKutta.eps ≤ Qcabs.Qcabs a →
  RungeKutta.runge_kutta_step A b c V F u0 t dt sympy_dirichlet_bcs tol
                              verbose h
  = (Raise AssertionError, h).
Proof.
  intros Hrows Hcols Hij Ha Hbig. unfold RungeKutta.runge_kutta_step.
  (* numpy.array(A) succeeds *)
  rewrite bind_run.
  assert (RungeKutta.numpy_array A h = (Ok A, h)) as ->.
  { unfold RungeKutta.numpy_array. destruct A as [|r A']; [done|].
    assert (forallb (λ r', bool_decide (length r' = length r)) (r :: A')
            = true) as ->; [|done].
    apply forallb_forall. intros r' Hr'.
    apply bool_decide_eq_true_2.
    rewrite Forall_forall in Hcols.
    rewrite (Hcols r') by done. symmetry. apply Hcols. by left. }
  (* the upper triangle is in range *)
  assert (∃ upper, mapM (λ '(i, j), r ← A !! i; r !! j)
                        (RungeKutta.triu_indices (length b)) = Some upper)
    as [upper Hupper].
  { apply mapM_is_Some, Forall_forall. intros [i' j'] Hin%list_elem_of_In%triu_indices_elem.
    simpl. destruct (lookup_lt_is_Some_2 A i') as [r Hr]; [lia|].
    rewrite Hr; simpl. apply lookup_lt_is_Some_2.
    rewrite Forall_forall in Hcols.
    rewrite (Hcols r); [lia|].
    apply list_elem_of_In. by eapply list_elem_of_lookup_2. }
  cbv beta iota. rewrite bind_run.
  assert (RungeKutta.fancy_index A (RungeKutta.triu_indices (length b)) h
          = (Ok upper, h)) as ->.
  { unfold RungeKutta.fancy_index. destruct A as [|r A']; [|by rewrite Hupper].
    simpl in Hrows. lia. }
  (* the offending entry is among the checked ones *)
  assert (a ∈ upper) as Hin.
  { apply mapM_Some_1 in Hupper.
    assert ((i, j) ∈ RungeKutta.triu_indices (length b)) as Hidx
      by by apply triu_indices_elem.
    apply list_elem_of_lookup in Hidx as [n Hn].
    destruct (Forall2_lookup_l _ _ _ _ _ Hupper Hn) as (y & Hy & Hf).
    simpl in Hf. rewrite Ha in Hf. injection Hf as <-.
    by eapply list_elem_of_lookup_2. }
  cbv beta iota. rewrite bind_run.
  assert (forallb (λ a, bool_decide (Qcabs.Qcabs a < RungeKutta.eps)) upper
          = false) as ->; [|done].
  apply not_true_is_false. intros Hall.
  rewrite forallb_forall in Hall.
  specialize (Hall a (proj1 (list_elem_of_In _ _) Hin)).
  apply bool_decide_eq_true_1 in Hall. by apply Qclt_not_le in Hall.
Qed.

End Explicitness.

Lemma runge_kutta_step_rejects_witness :
  RungeKutta.runge_kutta_step [[q 1 100]] [q 1 1] [q 0 1] Sample.V1
    Sample.decay 0 (q 0 1) (q 1 10) [] Sample.tol10 true Sample.heap1
  = (Raise AssertionError, Sample.heap1).
Proof.
  apply (runge_kutta_step_rejects (H := Reference.backend)
           [[q 1 100]] [q 1 1] [q 0 1] Sample.V1 Sample.decay 0 (q 0 1)
           (q 1 10) [] Sample.tol10 true Sample.heap1 0 0 (q 1 100)).
  - reflexivity.
  - repeat constructor.
  - simpl; lia.
  - reflexivity.
  - vm_compute. discriminate.
Defined.

(** C7, counterexample.  The one-stage tableau with [A = [[1e-16]]] has
    a nonzero entry on the diagonal, yet [runge_kutta_step] accepts it:
    the step returns normally after two linear solves. *)
Lemma tiny_diagonal_entry_accepted :
  let r := RungeKutta.runge_kutta_step Sample.tiny_tableau [q 1 1] [q 0 1]
             Sample.V1 Sample.decay 0 (q 0 1) (q 1 10) [] Sample.tol10 true
             Sample.heap1 in
  (∃ a, (r ← Sample.tiny_tableau !! 0%nat; r !! 0%nat) = Some a ∧ a ≠ 0)
  ∧ r.1 = Ok 2%nat
  ∧ length (solves Sample.heap1) = 0%nat
  ∧ length (solves r.2) = 2%nat.
Proof.
  split.
  - eexists. split; [reflexivity|]. apply (bool_decide_eq_false_1 _).
    vm_compute. reflexivity.
  - vm_compute. auto.
Qed.

(** ** What the Runge-Kutta step hands to its solves *)

Lemma logs_bind (P : solve_call → Prop) {A B} (m : St A) (f : A → St B)
    (Q : A → Prop) (R : B → Prop) :
  logs P m Q → (∀ a, Q a → logs P (f a) R) → logs P (m ≫= f) R.
Proof.
  intros Hm Hf h. rewrite bind_run.
  destruct (Hm h) as (new & Hlog & HP & HQ).
  destruct (m h) as [[a|e] h']; simpl in *.
  - destruct (Hf a (HQ a eq_refl) h') as (new' & Hlog' & HP' & HR).
    exists (new ++ new'). rewrite Hlog', Hlog, app_assoc.
    split; [done|]. split; [by apply Forall_app|done].
  - exists new. split; [done|]. split; [done|]. intros b [=].
Qed.

Lemma logs_weaken (P : solve_call → Prop) {A} (m : St A)
    (Q Q' : A → Prop) :
  logs P m Q → (∀ a, Q a → Q' a) → logs P m Q'.
Proof.
  intros Hm HQ h. destruct (Hm h) as (new & Hlog & HP & Hres).
  exists new. split; [done|]. split; [done|]. intros a Ha. by apply HQ, Hres.
Qed.

Lemma logs_mono (P P' : solve_call → Prop) {A} (m : St A) (Q : A → Prop) :
  logs P m Q → (∀ c, P c → P' c) → logs P' m Q.
Proof.
  intros Hm HP h. destruct (Hm h) as (new & Hlog & Hnew & Hres).
  exists new. split; [done|]. split; [|done].
  eapply Forall_impl; [exact HP|exact Hnew].
Qed.

Lemma logs_silent (P : solve_call → Prop) {A} (m : St A) (Q : A → Prop) :
  (∀ h, solves (m h).2 = solves h) → (∀ h a, (m h).1 = Ok a → Q a) →
  logs P m Q.
Proof.
  intros Hm HQ h. exists []. rewrite app_nil_r.
  split; [apply Hm|]. split; [constructor|apply HQ].
Qed.

Lemma logs_any (P : solve_call → Prop) {A} (m : St A) :
  (∀ h, solves (m h).2 = solves h) → logs P m (λ _, True).
Proof. intros Hm. by apply logs_silent. Qed.

Lemma logs_mret (P : solve_call → Prop) {A} (a : A) (Q : A → Prop) :
  Q a → logs P (mret a) Q.
Proof. intros Ha. apply logs_silent; [done|]. by intros h a' [= <-]. Qed.

Lemma logs_lift_option (P : solve_call → Prop) {A} (e : exn) (o : option A) :
  logs P (lift_option e o) (λ _, True).
Proof. apply logs_any. intros h. by destruct o. Qed.

Lemma logs_lift_option_eq (P : solve_call → Prop) {A} (e : exn)
    (o : option A) :
  logs P (lift_option e o) (λ a, o = Some a).
Proof.
  apply logs_silent; intros h; [by destruct o|].
  destruct o as [x|]; simpl; [by intros a' [= <-]|by intros a' [=]].
Qed.

Lemma logs_vector (P : solve_call → Prop) (r : loc) :
  logs P (vector r) (λ _, True).
Proof. apply logs_any. intros h. unfold vector. by destruct (_ !! _). Qed.

Lemma logs_log_call (P : solve_call → Prop) (c : solve_call) :
  P c → logs P (log_call c) (λ _, True).
Proof.
  intros Hc h. exists [c]. split; [done|]. split; [|done].
  by repeat constructor.
Qed.

Lemma logs_for_fold (P : solve_call → Prop) {A S} (l : list A)
    (body : S → A → St S) (I : S → Prop) (s : S) :
  (∀ s x, I s → logs P (body s x) I) → I s →
  logs P (for_fold l body s) I.
Proof.
  intros Hbody. revert s. induction l as [|x l IH]; intros s Hs; simpl.
  - by apply logs_mret.
  - eapply logs_bind; [by apply Hbody|]. intros s' Hs'. by apply IH.
Qed.

Lemma boundary_values_set_attr_t (tau : Qc) (g : DirichletBC) :
  boundary_values (RungeKutta.set_attr_t tau g) = boundary_values g.
Proof. reflexivity. Qed.

Lemma boundary_values_set_attr_t_list (tau : Qc) (bcs : list DirichletBC) :
  boundary_values <$> (RungeKutta.set_attr_t tau <$> bcs)
  = boundary_values <$> bcs.
Proof.
  induction bcs as [|g bcs IH]; [done|].
  rewrite !fmap_cons, IH. by rewrite boundary_values_set_attr_t.
Qed.

Lemma make_BCS_data (V : FunctionSpace)
    (sympy_dirichlet_bcs : list ((vec → bool) * sympy_expr)) (t dt : Qc)
    (order : nat) (BCS : list DirichletBC) :
  RungeKutta.make_BCS V sympy_dirichlet_bcs t dt !! order = Some BCS →
  boundary_values <$> BCS
  = Spec.rk_dirichlet_data V sympy_dirichlet_bcs order (t + dt).
Proof.
  unfold RungeKutta.make_BCS, Spec.rk_dirichlet_data.
  rewrite list_lookup_fmap. intros Hk.
  destruct (seq 0 2 !! order) as [k|] eqn:Hseq; [|done].
  apply lookup_seq in Hseq as [-> _]. injection Hk as <-.
  rewrite <- list_fmap_compose. apply list_fmap_ext.
  by intros _ [boundary expr] _.
Qed.

Section Solves.
Context `{Backend}.

Lemma logs_solve_variational (P : solve_call → Prop) (V : FunctionSpace)
    (L : form) (target : loc) (bcs : list DirichletBC)
    (params : solver_parameters) :
  (∀ Lv x0, P (VariationalCall params (mass_dx V) Lv bcs x0)) →
  logs P (solve_variational V L target bcs params) (λ _, True).
Proof.
  intros HP. unfold solve_variational.
  eapply logs_bind.
  { apply (logs_any P). intros h. unfold assemble.
    by destruct (ufl_eval _ _). }
  intros Lv _. eapply logs_bind; [apply logs_vector|intros x0 _].
  eapply logs_bind; [apply logs_log_call, HP|intros _ _].
  eapply logs_bind; [apply logs_lift_option|intros xv _].
  by apply logs_any.
Qed.

(** Every stage solve of [runge_kutta_step], for every tableau and every
    stage, is given as Dirichlet data the first time derivative of the
    prescribed expressions at time [t + dt]: the stage time [t + c[i] dt]
    does not enter. *)
Lemma stage_loop_boundary_data (A : matrix) (c : list Qc)
    (V : FunctionSpace) (F : Qc → vec → vec) (u0 : loc) (t dt : Qc)
    (sympy_dirichlet_bcs : list ((vec → bool) * sympy_expr))
    (params : solver_parameters) (stages : list nat)
    (BCS1 : list DirichletBC) :
  RungeKutta.make_BCS V sympy_dirichlet_bcs t dt !! 1%nat = Some BCS1 →
  logs (λ call, call_dirichlet_data call
                = Spec.rk_dirichlet_data V sympy_dirichlet_bcs 1 (t + dt))
       (for_fold stages (RungeKutta.stage A c V F u0 t dt params)
                 ([], BCS1))
       (λ _, True).
Proof.
  intros HBCS. apply make_BCS_data in HBCS.
  set (D := Spec.rk_dirichlet_data V sympy_dirichlet_bcs 1 (t + dt)) in *.
  apply (logs_weaken _ _ (λ st, boundary_values <$> st.2 = D)); [|done].
  apply logs_for_fold; [|done].
  intros [k bcs] i Hinv. simpl in Hinv. unfold RungeKutta.stage.
  eapply logs_bind.
  { apply (logs_for_fold _ _ _ (λ _, True)); [|done]. intros U j _.
    eapply logs_bind; [apply logs_lift_option|intros a _].
    eapply logs_bind; [apply logs_lift_option|intros kj _].
    by apply logs_mret. }
  intros U _. eapply logs_bind; [apply logs_lift_option|intros ci _].
  eapply logs_bind; [by apply logs_any|intros ki _].
  eapply logs_bind; [apply logs_lift_option|intros ki' _].
  eapply logs_bind.
  { apply logs_solve_variational. intros Lv x0.
    unfold call_dirichlet_data; simpl.
    by rewrite boundary_values_set_attr_t_list. }
  intros _ _. apply logs_mret. simpl.
  by rewrite boundary_values_set_attr_t_list.
Qed.

(** X5. No solve requested by [runge_kutta_step] is given boundary data of
    any time other than [t + dt]: each request carries the prescribed
    expressions or their first time derivatives at [t + dt]. *)
Lemma runge_kutta_step_boundary_data (A : list (list Qc)) (b c : list Qc)
    (V : FunctionSpace) (F : Qc → vec → vec) (u0 : loc) (t dt : Qc)
    (sympy_dirichlet_bcs : list ((vec → bool) * sympy_expr)) (tol : Qc)
    (verbose : bool) :
  logs (λ call, ∃ order, (order < 2)%nat
          ∧ call_dirichlet_data call
            = Spec.rk_dirichlet_data V sympy_dirichlet_bcs order (t + dt))
       (RungeKutta.runge_kutta_step A b c V F u0 t dt sympy_dirichlet_bcs
                                    tol verbose)
       (λ _, True).
Proof.
  unfold RungeKutta.runge_kutta_step. cbv zeta.
  eapply logs_bind.
  { apply logs_any. intros h. unfold RungeKutta.numpy_array.
    destruct A; [done|]. by destruct (forallb _ _). }
  intros A' _. eapply logs_bind.
  { apply logs_any. intros h. unfold RungeKutta.fancy_index.
    destruct A'; [done|]. by destruct (mapM _ _). }
  intros upper _. eapply logs_bind.
  { apply logs_any. intros h. unfold RungeKutta.assert.
    by destruct (forallb _ _). }
  intros _ _. eapply logs_bind; [apply logs_lift_option_eq|intros BCS0 H0].
  eapply logs_bind; [apply logs_lift_option_eq|intros BCS1 H1].
  eapply logs_bind.
  { eapply logs_mono; [apply stage_loop_boundary_data, H1|].
    intros call Hcall. exists 1%nat. split; [lia|done]. }
  intros [k BCS1'] _. eapply logs_bind.
  { unfold RungeKutta.combine.
    apply (logs_for_fold _ _ _ (λ _, True)); [|done]. intros U i _.
    eapply logs_bind; [apply logs_lift_option|intros bi _].
    eapply logs_bind; [apply logs_lift_option|intros ki _].
    by apply logs_mret. }
  intros U _. eapply logs_bind; [by apply logs_any|intros theta _].
  eapply logs_bind; [|intros _ _; by apply logs_mret].
  apply logs_solve_variational. intros Lv x0. exists 0%nat.
  split; [lia|]. unfold call_dirichlet_data; simpl.
  rewrite boundary_values_set_attr_t_list. by apply make_BCS_data.
Qed.

End Solves.

(** The combination loop of [runge_kutta_step] and the expression it
    leaves in [U]. *)
Lemma combine_from (b : list Qc) (u0 : loc) (k : list loc) (h : heap)
    (m n : nat) (U : ufl) :
  (n + m)%nat = length b → length k = length b →
  for_fold (seq n m)
    (λ U i,
       bi ← lift_option IndexError (b !! i);
       ki ← lift_option IndexError (k !! i);
       mret (Sum U (Scaled bi (Coefficient ki)))) U h
  = (Ok (foldl (λ U bk, Sum U (Scaled bk.1 (Coefficient bk.2))) U
               (zip (drop n b) (drop n k))), h).
Proof.
  revert n U. induction m as [|m IH]; intros n U Hn Hk; simpl.
  - rewrite !drop_ge by lia. reflexivity.
  - destruct (lookup_lt_is_Some_2 b n) as [bi Hbi]; [lia|].
    destruct (lookup_lt_is_Some_2 k n) as [ki Hki]; [lia|].
    rewrite bind_run, bind_run, Hbi. simpl.
    rewrite bind_run, Hki. simpl.
    rewrite IH by lia.
    by rewrite (drop_S b bi n Hbi), (drop_S k ki n Hki).
Qed.

Lemma combine_run (b : list Qc) (u0 : loc) (k : list loc) (h : heap) :
  length k = length b →
  RungeKutta.combine b u0 k (length b) h = (Ok (combined b u0 k), h).
Proof.
  intros Hk. unfold RungeKutta.combine, combined.
  by rewrite combine_from.
Qed.

Lemma combined_eval_from (h : heap) (b : list Qc) (k : list loc)
    (kv : list vec) (U : ufl) (W : vec) :
  Forall2 (λ ki v, vecs h !! ki = Some v) k kv →
  ufl_eval h U = Some W →
  ufl_eval h (foldl (λ U bk, Sum U (Scaled bk.1 (Coefficient bk.2))) U
                    (zip b k))
  = Some (foldl (λ W bv, vadd W (vscale bv.1 bv.2)) W (zip b kv)).
Proof.
  intros Hk. revert b U W.
  induction Hk as [|ki v k kv Hki Hk IH]; intros b U W HU.
  - by destruct b.
  - destruct b as [|bi b]; [done|]. simpl. apply IH.
    simpl. by rewrite HU, Hki.
Qed.

(** For every weight vector [b] and all stage derivatives, the
    right-hand side form of the combining solve evaluates to
    [u0 + dt (u0 + b[0] k[0] + b[1] k[1] + ...)]: the inner sum starts at
    [u0], not at zero. *)
Lemma final_form_eval (h : heap) (b : list Qc) (u0 : loc) (k : list loc)
    (dt : Qc) (u0v : vec) (kv : list vec) :
  vecs h !! u0 = Some u0v →
  Forall2 (λ ki v, vecs h !! ki = Some v) k kv →
  ufl_eval h (Sum (Coefficient u0) (Scaled dt (combined b u0 k)))
  = Some (vadd u0v
            (vscale dt (foldl (λ W bv, vadd W (vscale bv.1 bv.2)) u0v
                              (zip b kv)))).
Proof.
  intros Hu0 Hk. simpl. rewrite Hu0. simpl. unfold combined.
  by rewrite (combined_eval_from h b k kv (Coefficient u0) u0v Hk Hu0).
Qed.

(** ** Evaluating the steps on the sample data *)

(** Equalities between concrete rational data are decided by
    computation. *)
Ltac by_compute := apply (bool_decide_eq_true_1 _); vm_compute; reflexivity.

Section OnSamples.
Import Sample RungeKutta.

(** The tableau [heun_step] computes from [alpha = 2/3]. *)
Example heun_tableau_values :
  let alpha := q 2 1 / q 3 1 in
  [[q 0 1; q 0 1]; [alpha; q 0 1]] = heun_A
  ∧ [q 1 1 - q 1 1 / (q 2 1 * alpha); q 1 1 / (q 2 1 * alpha)] = heun_b
  ∧ [q 0 1; alpha] = heun_c.
Proof. repeat split; by_compute. Qed.

(** The three tableaux of the module pass the explicitness check: on the
    scalar decay problem each step runs its [s + 1] solves. *)
Example builtin_tableaux_accepted :
  let run (step : FunctionSpace → (Qc → vec → vec) → loc → Qc → Qc →
                  list ((vec → bool) * sympy_expr) → Qc → bool → St loc) :=
    let r := step V1 decay 0%nat (q 0 1) (q 1 10) [] tol10 true heap1 in
    (r.1, length (solves r.2)) in
  run heun_step = (Ok 3%nat, 3%nat)
  ∧ run rk4_step = (Ok 5%nat, 5%nat)
  ∧ run rkf_step = (Ok 7%nat, 7%nat).
Proof. repeat split; vm_compute; reflexivity. Qed.

Lemma Dummy_step_copies_witness :
  ∃ (u1 : loc) (h' : heap),
    Dummy.step heat 0 (q 0 1) (q 1 1) [] tol10 true heap2 = (Ok u1, h')
    ∧ u1 ≠ 0%nat
    ∧ vecs heap2 !! u1 = None
    ∧ vecs h' !! u1 = Some [q 1 1; q 1 1]
    ∧ (∀ r : loc, r ≠ u1 → vecs h' !! r = vecs heap2 !! r)
    ∧ mats h' = mats heap2
    ∧ solves h' = solves heap2.
Proof.
  apply (Dummy_step_copies heat 0 (q 0 1) (q 1 1) [] tol10 true heap2
           [q 1 1; q 1 1]).
  reflexivity.
Defined.

Lemma Reference_monitor_only_reports :
  monitor_only_reports (H := Reference.backend).
Proof. split; intros; reflexivity. Qed.

Lemma verbose_only_reports_witness :
  observable (Dummy.step heat 0 (q 0 1) (q 1 10) [] tol10 true heap2)
  = observable (Dummy.step heat 0 (q 0 1) (q 1 10) [] tol10 false heap2)
  ∧ observable (ExplicitEuler.step stepper2 1 0 (q 0 1) (q 1 10) tol10 100
                                   true heap2)
    = observable (ExplicitEuler.step stepper2 1 0 (q 0 1) (q 1 10) tol10 100
                                     false heap2)
  ∧ observable (ImplicitEuler.step stepper2 1 0 (q 0 1) (q 1 10) tol10 100
                                   true "gmres" "ilu" heap2)
    = observable (ImplicitEuler.step stepper2 1 0 (q 0 1) (q 1 10) tol10 100
                                     false "gmres" "ilu" heap2)
  ∧ observable (Trapezoidal.step stepper2 1 0 (q 0 1) (q 1 10) tol10 true
                                 100 "gmres" "ilu" heap2)
    = observable (Trapezoidal.step stepper2 1 0 (q 0 1) (q 1 10) tol10 false
                                   100 "gmres" "ilu" heap2)
  ∧ observable (runge_kutta_step heun_A heun_b heun_c V2_lumped decay 0
                  (q 0 1) (q 1 10) t_squared tol10 true heap2)
    = observable (runge_kutta_step heun_A heun_b heun_c V2_lumped decay 0
                    (q 0 1) (q 1 10) t_squared tol10 false heap2).
Proof.
  apply (verbose_only_reports (H := Reference.backend)
           Reference_monitor_only_reports true false heap2 stepper2 1 0
           (q 0 1) (q 1 10) tol10 100 "gmres" "ilu" [] heun_A heun_b heun_c
           V2_lumped decay t_squared).
Defined.

(** C4.  On a later step [ExplicitEuler.step] does not solve the system
    of the scheme.  On the sample problem whose condition at [x = 0] is
    lifted after [t = 1], the first step (from [t = 0] to [t = 1]) leaves
    a unit row in [self.M]; the second step (from [t = 1] to [t = 2],
    where nothing is constrained) then hands the solver the operator
    [[1 0] [1 2]] where the scheme has the mass operator [[2 1] [1 2]],
    and the [u1 = (3, 0)] it computes does not satisfy
    [M u1 = M u0 + dt (b(t) - L(t) u0)]. *)
Theorem ExplicitEuler_later_step_system :
  let solver := mkKrylovSolver "cg" "amg" (krylov_params tol10 100 true) in
  let first :=
    (self ← ExplicitEuler.init released;
     ExplicitEuler.step self 1 0 (q 0 1) (q 1 1) tol10 100 true;;
     mret (M self)) heap0 in
  let self := mkStepper released 0 in
  let second :=
    ExplicitEuler.step self 1 0 (q 1 1) (q 1 1) tol10 100 true first.2 in
  let sys :=
    Spec.explicit_euler_system released [q 1 1; q 1 1] (q 1 1) (q 1 1) in
  first.1 = Ok (M self)
  ∧ vecs first.2 !! 0%nat = Some [q 1 1; q 1 1]
  ∧ get_bcs released (q 1 1 + q 1 1) = []
  ∧ sys = ([[q 2 1; q 1 1]; [q 1 1; q 2 1]], [q 3 1; q 3 1])
  ∧ second.1 = Ok tt
  ∧ call_operator <$> solves second.2 !! 1%nat
    = Some [[q 1 1; q 0 1]; [q 1 1; q 2 1]]
  ∧ call_rhs <$> solves second.2 !! 1%nat = Some [q 3 1; q 3 1]
  ∧ vecs second.2 !! 1%nat = Some [q 3 1; q 0 1]
  ∧ mvmul sys.1 [q 3 1; q 0 1] ≠ sys.2
  ∧ ∀ x0 : vec, ¬ solved_by solver sys None x0 1 first.2 second.
Proof.
  split; [vm_compute; reflexivity|]. split; [by_compute|].
  split; [vm_compute; reflexivity|]. split; [by_compute|].
  split; [vm_compute; reflexivity|]. split; [by_compute|].
  split; [by_compute|]. split; [by_compute|].
  split; [apply (bool_decide_eq_false_1 _); vm_compute; reflexivity|].
  intros x0 [Hlog _].
  apply (f_equal (λ l, call_operator <$> l !! 1%nat)) in Hlog.
  revert Hlog. apply (bool_decide_eq_false_1 _). vm_compute. reflexivity.
Qed.

(** C3.  [ExplicitEuler.step] changes the mass matrix of its stepper:
    on the sample problem the matrix assembled by the constructor is
    [[2 1] [1 2]], and after one step its first row, the row of the
    constrained degree of freedom, has become the unit row. *)
Theorem ExplicitEuler_step_overwrites_M :
  let built := ExplicitEuler.init heat heap0 in
  let r := ExplicitEuler.step stepper2 1 0 (q 0 1) (q 1 1) tol10 100 true
                              built.2 in
  built.1 = Ok stepper2
  ∧ mats built.2 !! M stepper2 = Some [[q 2 1; q 1 1]; [q 1 1; q 2 1]]
  ∧ r.1 = Ok tt
  ∧ mats r.2 !! M stepper2 = Some [[q 1 1; q 0 1]; [q 1 1; q 2 1]].
Proof.
  split; [reflexivity|]. split; [reflexivity|].
  split; [vm_compute; reflexivity|]. by_compute.
Qed.

(** C1.  Heun's scheme on the sample problem ([F(t, u) = -u],
    [u0 = (1, 1)], [t = 0], [dt = 1/10], the value [t^2] prescribed at
    the first degree of freedom).  The stage derivatives are
    [k0 = (1/5, -1)] and [k1 = (1/5, -14/15)].  The combining solve is
    given the Dirichlet data of the specification (the expression itself
    at [t + dt]), but its right-hand side is [(28/25, 201/200)], which is
    [u0 + dt (u0 + sum_i b[i] k[i])], and not the [(51/50, 181/200)] of
    [u0 + dt sum_i b[i] k[i]].  For the scalar decay problem with
    [u0 = 1] the step returns [201/200]. *)
Theorem heun_step_combines_with_extra_u0 :
  let r := heun_step V2_lumped decay 0 (q 0 1) (q 1 10) t_squared tol10 true
                     heap2 in
  let k0 := [q 1 5; q (-1) 1] in
  let k1 := [q 1 5; q (-14) 15] in
  let u0 := [q 1 1; q 1 1] in
  r.1 = Ok 4%nat
  ∧ vecs r.2 !! 2%nat = Some k0
  ∧ vecs r.2 !! 3%nat = Some k1
  ∧ call_rhs <$> solves r.2 !! 2%nat = Some [q 28 25; q 201 200]
  ∧ Spec.rk_final_rhs V2_lumped u0 (q 1 10) heun_b [k0; k1]
    = [q 51 50; q 181 200]
  ∧ mvmul (mass_dx V2_lumped)
          (vadd u0 (vscale (q 1 10)
                      (vadd u0 (Spec.weighted_sum 2 heun_b [k0; k1]))))
    = [q 28 25; q 201 200]
  ∧ call_dirichlet_data <$> solves r.2 !! 2%nat
    = Some (Spec.rk_dirichlet_data V2_lumped t_squared 0 (q 0 1 + q 1 10))
  ∧ let r1 := heun_step V1 decay 0 (q 0 1) (q 1 10) [] tol10 true heap1 in
    r1.1 = Ok 3%nat ∧ vecs r1.2 !! 3%nat = Some [q 201 200].
Proof.
  split; [vm_compute; reflexivity|].
  repeat (split; [by_compute|]).
  split; [vm_compute; reflexivity|by_compute].
Qed.

(** C2.  In the same run of Heun's scheme ([c = (0, 2/3)]) the
    right-hand side of each stage solve is [F(t + c[i] dt, U_i)] with
    [U_i = u0 + dt sum_{j<i} A[i][j] k[j]], as specified.  The Dirichlet
    data of both stage solves, however, is the first time derivative
    [2 t] of the prescribed expression at [t + dt = 1/10], the value
    [1/5], whereas at [t + c[i] dt] it is [0] for stage 0 and [2/15] for
    stage 1: the assignment of the stage time went to the attribute [t]
    of the boundary-condition objects, not to their expressions. *)
Theorem heun_stage_boundary_time :
  let r := heun_step V2_lumped decay 0 (q 0 1) (q 1 10) t_squared tol10 true
                     heap2 in
  let k0 := [q 1 5; q (-1) 1] in
  let u0 := [q 1 1; q 1 1] in
  let t := q 0 1 in
  let dt := q 1 10 in
  r.1 = Ok 4%nat
  ∧ vecs r.2 !! 2%nat = Some k0
  ∧ call_rhs <$> take 2 (solves r.2)
    = [decay (t + q 0 1 * dt) (Spec.rk_stage_state u0 dt [q 0 1; q 0 1] []);
       decay (t + q 2 3 * dt)
             (Spec.rk_stage_state u0 dt [q 2 3; q 0 1] [k0])]
  ∧ call_dirichlet_data <$> take 2 (solves r.2)
    = [[[(0%nat, q 1 5)]]; [[(0%nat, q 1 5)]]]
  ∧ (λ c, (λ g, (expr_t (bc_value g), bc_attr_t g)) <$> call_bcs c)
      <$> take 2 (solves r.2)
    = [[(q 1 10, Some (q 0 1))]; [(q 1 10, Some (q 1 15))]]
  ∧ Spec.rk_dirichlet_data V2_lumped t_squared 1 (t + dt)
    = [[(0%nat, q 1 5)]]
  ∧ Spec.rk_dirichlet_data V2_lumped t_squared 1 (t + q 0 1 * dt)
    = [[(0%nat, q 0 1)]]
  ∧ Spec.rk_dirichlet_data V2_lumped t_squared 1 (t + q 2 3 * dt)
    = [[(0%nat, q 2 15)]].
Proof.
  split; [vm_compute; reflexivity|].
  repeat (split; [by_compute|]). by_compute.
Qed.

End OnSamples.

(** ** How many solves a step requests *)

Lemma requests_bind (n1 n2 : nat) {A B} (m : St A) (f : A → St B) :
  requests n1 m → (∀ a, requests n2 (f a)) → requests (n1 + n2) (m ≫= f).
Proof.
  intros Hm Hf h. rewrite bind_run.
  destruct (Hm h) as (new & Hlog & Hle & Hok).
  destruct (m h) as [[a|e] h']; simpl in *.
  - destruct (Hf a h') as (new' & Hlog' & Hle' & Hok').
    exists (new ++ new'). rewrite Hlog', Hlog, app_assoc, length_app.
    specialize (Hok a eq_refl).
    split; [done|]. split; [lia|]. intros b Hb. rewrite (Hok' b Hb). lia.
  - exists new. split; [done|]. split; [lia|]. intros b [=].
Qed.

Lemma requests_zero {A} (m : St A) :
  (∀ h, solves (m h).2 = solves h) → requests 0 m.
Proof.
  intros Hm h. exists []. rewrite app_nil_r. split; [apply Hm|]. by split.
Qed.

Lemma requests_mret {A} (a : A) : requests 0 (mret a).
Proof. by apply requests_zero. Qed.

Lemma requests_lift_option {A} (e : exn) (o : option A) :
  requests 0 (lift_option e o).
Proof. apply requests_zero. intros h. by destruct o. Qed.

Lemma requests_vector (r : loc) : requests 0 (vector r).
Proof. apply requests_zero. intros h. unfold vector. by destruct (_ !! _). Qed.

Lemma requests_get_matrix (r : loc) : requests 0 (get_matrix r).
Proof.
  apply requests_zero. intros h. unfold get_matrix. by destruct (_ !! _).
Qed.

Lemma requests_log_call (c : solve_call) : requests 1 (log_call c).
Proof. intros h. exists [c]. by repeat split. Qed.

Lemma requests_for_each_zero {A} (l : list A) (body : A → St unit) :
  (∀ x, requests 0 (body x)) → requests 0 (for_each l body).
Proof.
  intros Hb. induction l as [|x l IH]; simpl; [apply requests_mret|].
  apply (requests_bind 0 0); [apply Hb|by intros _].
Qed.

Lemma requests_for_fold_zero {A S} (l : list A) (body : S → A → St S)
    (s : S) :
  (∀ s x, requests 0 (body s x)) → requests 0 (for_fold l body s).
Proof.
  intros Hb. revert s. induction l as [|x l IH]; intros s; simpl;
    [apply requests_mret|].
  apply (requests_bind 0 0); [apply Hb|apply IH].
Qed.

Lemma requests_for_fold_one {A S} (l : list A) (body : S → A → St S)
    (s : S) (n : nat) :
  length l = n →
  (∀ s x, requests 1 (body s x)) → requests n (for_fold l body s).
Proof.
  intros <- Hb. revert s. induction l as [|x l IH]; intros s; simpl;
    [apply requests_mret|].
  apply (requests_bind 1 (length l)); [apply Hb|apply IH].
Qed.

(** Chaining operations that request no solve. *)
Ltac requests_zero_step :=
  first
    [ apply requests_mret | apply requests_lift_option
    | apply requests_vector | apply requests_get_matrix
    | apply requests_zero; intros ?; reflexivity
    | apply (requests_bind 0 0); [|intros ?] ].

Lemma requests_axpy (y : loc) (a : Qc) (x : vec) : requests 0 (axpy y a x).
Proof. unfold axpy. repeat requests_zero_step. Qed.

Lemma requests_assemble_mass_action (p : ParabolicProblem) (u0 : loc) :
  requests 0 (assemble_mass_action p u0).
Proof. unfold assemble_mass_action. repeat requests_zero_step. Qed.

Lemma requests_bc_apply (bc : DirichletBC) (A rhs : loc) :
  requests 0 (bc_apply bc A rhs).
Proof. unfold bc_apply. repeat requests_zero_step. Qed.

Lemma requests_assemble (L : form) : requests 0 (assemble L).
Proof.
  apply requests_zero. intros h. unfold assemble. by destruct (ufl_eval _ _).
Qed.

Section Counting.
Context `{Backend}.

Lemma requests_KrylovSolver_solve (solver : KrylovSolver) (A : loc)
    (P : option loc) (x rhs : loc) :
  requests 1 (KrylovSolver_solve solver A P x rhs).
Proof.
  unfold KrylovSolver_solve.
  apply (requests_bind 0 1); [apply requests_get_matrix|intros Av].
  apply (requests_bind 0 1); [destruct P; repeat requests_zero_step|].
  intros Pv. apply (requests_bind 0 1); [apply requests_vector|intros bv].
  apply (requests_bind 0 1); [apply requests_vector|intros x0].
  apply (requests_bind 1 0); [apply requests_log_call|intros _].
  repeat requests_zero_step.
Qed.

Lemma requests_solve_variational (V : FunctionSpace) (L : form)
    (target : loc) (bcs : list DirichletBC) (params : solver_parameters) :
  requests 1 (solve_variational V L target bcs params).
Proof.
  unfold solve_variational.
  apply (requests_bind 0 1); [apply requests_assemble|intros Lv].
  apply (requests_bind 0 1); [apply requests_vector|intros x0].
  apply (requests_bind 1 0); [apply requests_log_call|intros _].
  repeat requests_zero_step.
Qed.

Lemma requests_stage (A : matrix) (c : list Qc) (V : FunctionSpace)
    (F : Qc → vec → vec) (u0 : loc) (t dt : Qc) (params : solver_parameters)
    (st : list loc * list DirichletBC) (i : nat) :
  requests 1 (RungeKutta.stage A c V F u0 t dt params st i).
Proof.
  unfold RungeKutta.stage. destruct st as [k BCS1].
  apply (requests_bind 0 1).
  { unfold RungeKutta.stage_state. apply requests_for_fold_zero.
    intros U j. repeat requests_zero_step. }
  intros U. apply (requests_bind 0 1); [apply requests_lift_option|].
  intros ci. apply (requests_bind 0 1); [by apply requests_zero|].
  intros ki. apply (requests_bind 0 1); [apply requests_lift_option|].
  intros ki'. apply (requests_bind 1 0); [apply requests_solve_variational|].
  intros _. apply requests_mret.
Qed.

(** X1. On every path, [runge_kutta_step] requests at most [s + 1] linear
    solves, [s = len(b)], and exactly [s + 1] when it returns: one per
    stage and the combining one. *)
Theorem runge_kutta_step_requests (A : list (list Qc)) (b c : list Qc)
    (V : FunctionSpace) (F : Qc → vec → vec) (u0 : loc) (t dt : Qc)
    (sympy_dirichlet_bcs : list ((vec → bool) * sympy_expr)) (tol : Qc)
    (verbose : bool) :
  requests (length b + 1)
           (RungeKutta.runge_kutta_step A b c V F u0 t dt
                                        sympy_dirichlet_bcs tol verbose).
Proof.
  unfold RungeKutta.runge_kutta_step. cbv zeta.
  apply (requests_bind 0 (length b + 1)).
  { apply requests_zero. intros h. unfold RungeKutta.numpy_array.
    destruct A; [done|]. by destruct (forallb _ _). }
  intros A'. apply (requests_bind 0 (length b + 1)).
  { apply requests_zero. intros h. unfold RungeKutta.fancy_index.
    destruct A'; [done|]. by destruct (mapM _ _). }
  intros upper. apply (requests_bind 0 (length b + 1)).
  { apply requests_zero. intros h. unfold RungeKutta.assert.
    by destruct (forallb _ _). }
  intros _. apply (requests_bind 0 (length b + 1));
    [apply requests_lift_option|intros BCS0].
  apply (requests_bind 0 (length b + 1));
    [apply requests_lift_option|intros BCS1].
  apply (requests_bind (length b) 1).
  { apply requests_for_fold_one; [apply length_seq|].
    intros st i. apply requests_stage. }
  intros [k BCS1']. apply (requests_bind 0 1).
  { unfold RungeKutta.combine. apply requests_for_fold_zero.
    intros U i. repeat requests_zero_step. }
  intros U. apply (requests_bind 0 1); [by apply requests_zero|].
  intros theta. apply (requests_bind 1 0);
    [apply requests_solve_variational|intros _; apply requests_mret].
Qed.

(** X2. On every path, each of [ExplicitEuler.step], [ImplicitEuler.step] and
    [Trapezoidal.step] requests at most one linear solve, and exactly one
    when it returns. *)
Theorem euler_steps_request_one_solve (self : stepper) (u1 u0 : loc)
    (t dt tol : Qc) (maxiter : nat) (verbose : bool)
    (krylov preconditioner : string) :
  requests 1 (ExplicitEuler.step self u1 u0 t dt tol maxiter verbose)
  ∧ requests 1 (ImplicitEuler.step self u1 u0 t dt tol maxiter verbose
                                   krylov preconditioner)
  ∧ requests 1 (Trapezoidal.step self u1 u0 t dt tol verbose maxiter
                                 krylov preconditioner).
Proof.
  split; [|split].
  - unfold ExplicitEuler.step. destruct (get_system _ _) as [L b].
    apply (requests_bind 0 1); [by apply requests_zero|intros Lu0].
    apply (requests_bind 0 1); [apply requests_vector|intros u0v].
    apply (requests_bind 0 1); [by apply requests_zero|intros _].
    apply (requests_bind 0 1); [apply requests_assemble_mass_action|].
    intros rhs. apply (requests_bind 0 1); [apply requests_vector|].
    intros Lu0v. apply (requests_bind 0 1); [apply requests_axpy|intros _].
    apply (requests_bind 0 1).
    { apply requests_for_each_zero. intros bc. apply requests_bc_apply. }
    intros _. apply requests_KrylovSolver_solve.
  - unfold ImplicitEuler.step. destruct (get_system _ _) as [L b].
    apply (requests_bind 0 1); [apply requests_get_matrix|intros Mv].
    apply (requests_bind 0 1); [by apply requests_zero|intros A].
    apply (requests_bind 0 1); [apply requests_assemble_mass_action|].
    intros rhs. apply (requests_bind 0 1); [apply requests_axpy|intros _].
    apply (requests_bind 0 1).
    { apply requests_for_each_zero. intros bc. apply requests_bc_apply. }
    intros _. apply (requests_bind 0 1).
    { destruct (get_preconditioner _ _); repeat requests_zero_step. }
    intros P. apply requests_KrylovSolver_solve.
  - unfold Trapezoidal.step. destruct (get_system _ t) as [L0 b0].
    destruct (get_system _ (t + dt)) as [L1 b1].
    apply (requests_bind 0 1); [by apply requests_zero|intros Lu0].
    apply (requests_bind 0 1); [apply requests_vector|intros u0v].
    apply (requests_bind 0 1); [by apply requests_zero|intros _].
    apply (requests_bind 0 1); [apply requests_assemble_mass_action|].
    intros rhs. apply (requests_bind 0 1); [apply requests_vector|].
    intros Lu0v. apply (requests_bind 0 1); [apply requests_axpy|intros _].
    apply (requests_bind 0 1); [apply requests_axpy|intros _].
    apply (requests_bind 0 1); [apply requests_get_matrix|intros Mv].
    apply (requests_bind 0 1); [by apply requests_zero|intros A].
    apply (requests_bind 0 1).
    { apply requests_for_each_zero. intros bc. apply requests_bc_apply. }
    intros _. apply requests_KrylovSolver_solve.
Qed.

End Counting.

(** ** Which objects a step writes *)

Lemma vkeeps_bind (n : nat) (x : loc) {A B} (m : St A) (f : A → St B)
    (Q : A → Prop) (R : B → Prop) :
  vkeeps n x m Q → (∀ a, Q a → vkeeps n x (f a) R) →
  vkeeps n x (m ≫= f) R.
Proof.
  intros Hm Hf h Hn. rewrite bind_run.
  destruct (Hm h Hn) as (Hlen & Hkeep & HQ).
  destruct (m h) as [[a|e] h']; simpl in *.
  - destruct (Hf a (HQ a eq_refl) h' Hlen) as (Hlen' & Hkeep' & HR).
    split; [done|]. split; [|done].
    intros r Hr Hx. by rewrite Hkeep', Hkeep.
  - split; [done|]. split; [done|]. intros b [=].
Qed.

Lemma vkeeps_same (n : nat) (x : loc) {A} (m : St A) :
  (∀ h, vecs (m h).2 = vecs h) → vkeeps n x m (λ _, True).
Proof. intros Hm h Hn. by rewrite Hm. Qed.

Lemma vkeeps_weaken (n : nat) (x : loc) {A} (m : St A) (Q Q' : A → Prop) :
  vkeeps n x m Q → (∀ a, Q a → Q' a) → vkeeps n x m Q'.
Proof.
  intros Hm HQ h Hn. destruct (Hm h Hn) as (Hlen & Hkeep & Hres).
  split; [done|]. split; [done|]. intros a Ha. by apply HQ, Hres.
Qed.

Lemma vkeeps_mret (n : nat) (x : loc) {A} (a : A) (Q : A → Prop) :
  Q a → vkeeps n x (mret a) Q.
Proof. intros Ha h Hn. split; [done|]. split; [done|]. by intros a' [= <-]. Qed.

Lemma vkeeps_lift_option (n : nat) (x : loc) {A} (e : exn) (o : option A) :
  vkeeps n x (lift_option e o) (λ a, o = Some a).
Proof.
  intros h Hn. destruct o as [a|]; simpl; (split; [done|]); (split; [done|]).
  - by intros a' [= <-].
  - by intros a' [=].
Qed.

Lemma vkeeps_vector (n : nat) (x r : loc) : vkeeps n x (vector r) (λ _, True).
Proof. apply vkeeps_same. intros h. unfold vector. by destruct (_ !! _). Qed.

Lemma vkeeps_get_matrix (n : nat) (x r : loc) :
  vkeeps n x (get_matrix r) (λ _, True).
Proof.
  apply vkeeps_same. intros h. unfold get_matrix. by destruct (_ !! _).
Qed.

Lemma vkeeps_new_vector (n : nat) (x : loc) (v : vec) :
  vkeeps n x (new_vector v) (λ a, (n ≤ a)%nat).
Proof.
  intros h Hn. simpl. rewrite length_app. split; [lia|]. split.
  - intros r Hr _. apply lookup_app_l. lia.
  - by intros a [= <-].
Qed.

Lemma vkeeps_set_vector (n : nat) (x r : loc) (v : vec) :
  (n ≤ r)%nat ∨ r = x → vkeeps n x (set_vector r v) (λ _, True).
Proof.
  intros Hr h Hn. simpl. rewrite length_insert. split; [done|].
  split; [|done]. intros r' Hr' Hx.
  apply list_lookup_insert_ne. destruct Hr as [Hr| ->]; [lia|done].
Qed.

Lemma vkeeps_for_each (n : nat) (x : loc) {A} (l : list A)
    (body : A → St unit) :
  (∀ a, vkeeps n x (body a) (λ _, True)) →
  vkeeps n x (for_each l body) (λ _, True).
Proof.
  intros Hb. induction l as [|a l IH]; simpl; [by apply vkeeps_mret|].
  eapply vkeeps_bind; [apply Hb|]. by intros _ _.
Qed.

Lemma vkeeps_for_fold (n : nat) (x : loc) {A S} (l : list A)
    (body : S → A → St S) (I : S → Prop) (s : S) :
  (∀ s a, I s → vkeeps n x (body s a) I) → I s →
  vkeeps n x (for_fold l body s) I.
Proof.
  intros Hb. revert s. induction l as [|a l IH]; intros s Hs; simpl.
  - by apply vkeeps_mret.
  - eapply vkeeps_bind; [by apply Hb|]. intros s' Hs'. by apply IH.
Qed.

(** Chaining operations that write no vector below [n] other than [x]. *)
Ltac vkeeps_step :=
  first
    [ apply vkeeps_mret; done
    | apply vkeeps_vector | apply vkeeps_get_matrix
    | apply vkeeps_same; intros ?; reflexivity
    | apply vkeeps_set_vector; first [assumption | by left | by right]
    | eapply vkeeps_bind; [apply vkeeps_new_vector | intros ? ?]
    | eapply vkeeps_bind; [apply vkeeps_lift_option | intros ? ?]
    | eapply vkeeps_bind; [vkeeps_step | intros ? _] ].

Lemma vkeeps_axpy (n : nat) (x y : loc) (a : Qc) (v : vec) :
  (n ≤ y)%nat ∨ y = x → vkeeps n x (axpy y a v) (λ _, True).
Proof. intros Hy. unfold axpy. repeat vkeeps_step. Qed.

Lemma vkeeps_assemble_mass_action (n : nat) (x : loc) (p : ParabolicProblem)
    (u0 : loc) :
  vkeeps n x (assemble_mass_action p u0) (λ a, (n ≤ a)%nat).
Proof.
  unfold assemble_mass_action.
  eapply vkeeps_bind; [apply vkeeps_vector|intros u0v _].
  apply vkeeps_new_vector.
Qed.

Lemma vkeeps_bc_apply (n : nat) (x : loc) (bc : DirichletBC) (A rhs : loc) :
  (n ≤ rhs)%nat ∨ rhs = x → vkeeps n x (bc_apply bc A rhs) (λ _, True).
Proof. intros Hr. unfold bc_apply. repeat vkeeps_step. Qed.

Lemma vkeeps_assemble (n : nat) (x : loc) (L : form) :
  vkeeps n x (assemble L) (λ _, True).
Proof.
  apply vkeeps_same. intros h. unfold assemble. by destruct (ufl_eval _ _).
Qed.

Lemma vkeeps_lookup (n : nat) (x : loc) {A} (m : St A) (Q : A → Prop)
    (h : heap) (r : loc) (v : vec) :
  vkeeps n x m Q → n = length (vecs h) → r ≠ x →
  vecs h !! r = Some v → vecs (m h).2 !! r = Some v.
Proof.
  intros Hm -> Hx Hr. destruct (Hm h (le_n _)) as (_ & Hkeep & _).
  rewrite Hkeep; [done| |done]. by eapply lookup_lt_Some.
Qed.

Lemma mats_unchanged_bind {A B} (m : St A) (f : A → St B) :
  mats_unchanged m → (∀ a, mats_unchanged (f a)) → mats_unchanged (m ≫= f).
Proof.
  intros Hm Hf h. rewrite bind_run. specialize (Hm h).
  destruct (m h) as [[a|e] h']; simpl in *; [|done]. by rewrite Hf.
Qed.

Lemma mats_unchanged_lift_option {A} (e : exn) (o : option A) :
  mats_unchanged (lift_option e o).
Proof. intros h. by destruct o. Qed.

Lemma mats_unchanged_vector (r : loc) : mats_unchanged (vector r).
Proof. intros h. unfold vector. by destruct (_ !! _). Qed.

Lemma mats_unchanged_for_fold {A S} (l : list A) (body : S → A → St S)
    (s : S) :
  (∀ s a, mats_unchanged (body s a)) → mats_unchanged (for_fold l body s).
Proof.
  intros Hb. revert s. induction l as [|a l IH]; intros s; simpl; [done|].
  apply mats_unchanged_bind; [apply Hb|apply IH].
Qed.

Ltac mats_unchanged_step :=
  first
    [ apply mats_unchanged_lift_option | apply mats_unchanged_vector
    | intros ?; reflexivity
    | apply mats_unchanged_bind; [|intros ?] ].

Section Frames.
Context `{Backend}.

Lemma vkeeps_KrylovSolver_solve (n : nat) (x : loc) (solver : KrylovSolver)
    (A : loc) (P : option loc) (rhs : loc) :
  vkeeps n x (KrylovSolver_solve solver A P x rhs) (λ _, True).
Proof.
  unfold KrylovSolver_solve.
  eapply vkeeps_bind; [apply vkeeps_get_matrix|intros Av _].
  eapply (vkeeps_bind _ _ _ _ (λ _, True)).
  { destruct P; repeat vkeeps_step. }
  intros Pv _. repeat vkeeps_step.
Qed.

Lemma vkeeps_solve_variational (n : nat) (x : loc) (V : FunctionSpace)
    (L : form) (target : loc) (bcs : list DirichletBC)
    (params : solver_parameters) :
  (n ≤ target)%nat ∨ target = x →
  vkeeps n x (solve_variational V L target bcs params) (λ _, True).
Proof.
  intros Ht. unfold solve_variational.
  eapply vkeeps_bind; [apply vkeeps_assemble|intros Lv _].
  repeat vkeeps_step.
Qed.

Lemma mats_unchanged_solve_variational (V : FunctionSpace) (L : form)
    (target : loc) (bcs : list DirichletBC) (params : solver_parameters) :
  mats_unchanged (solve_variational V L target bcs params).
Proof.
  unfold solve_variational. apply mats_unchanged_bind.
  { intros h. unfold assemble. by destruct (ufl_eval _ _). }
  intros Lv. repeat mats_unchanged_step.
Qed.

(** X3. On every path, the three Euler-type steps write no vector object
    that existed at entry other than [u1]: the previous state [u0] (when
    it is not the object passed as [u1]) and every other vector keep their
    values. *)
Theorem euler_steps_write_only_u1 (self : stepper) (u1 u0 : loc)
    (t dt tol : Qc) (maxiter : nat) (verbose : bool)
    (krylov preconditioner : string) (h : heap) (r : loc) (v : vec) :
  vecs h !! r = Some v → r ≠ u1 →
  vecs (ExplicitEuler.step self u1 u0 t dt tol maxiter verbose h).2 !! r
  = Some v
  ∧ vecs (ImplicitEuler.step self u1 u0 t dt tol maxiter verbose
                             krylov preconditioner h).2 !! r = Some v
  ∧ vecs (Trapezoidal.step self u1 u0 t dt tol verbose maxiter
                           krylov preconditioner h).2 !! r = Some v.
Proof.
  intros Hr Hx. set (n := length (vecs h)).
  split; [|split];
    (eapply (vkeeps_lookup n u1 _ (λ _, True)); [|done|done|done]).
  - unfold ExplicitEuler.step. destruct (get_system _ _) as [L b].
    eapply vkeeps_bind; [apply vkeeps_new_vector|intros Lu0 HLu0].
    eapply vkeeps_bind; [apply vkeeps_vector|intros u0v _].
    eapply vkeeps_bind; [apply vkeeps_set_vector; by left|intros _ _].
    eapply vkeeps_bind; [apply vkeeps_assemble_mass_action|intros rhs Hrhs].
    eapply vkeeps_bind; [apply vkeeps_vector|intros Lu0v _].
    eapply vkeeps_bind; [apply vkeeps_axpy; by left|intros _ _].
    eapply vkeeps_bind.
    { apply vkeeps_for_each. intros bc. apply vkeeps_bc_apply. by left. }
    intros _ _. apply vkeeps_KrylovSolver_solve.
  - unfold ImplicitEuler.step. destruct (get_system _ _) as [L b].
    eapply vkeeps_bind; [apply vkeeps_get_matrix|intros Mv _].
    eapply vkeeps_bind; [by apply vkeeps_same|intros A _].
    eapply vkeeps_bind; [apply vkeeps_assemble_mass_action|intros rhs Hrhs].
    eapply vkeeps_bind; [apply vkeeps_axpy; by left|intros _ _].
    eapply vkeeps_bind.
    { apply vkeeps_for_each. intros bc. apply vkeeps_bc_apply. by left. }
    intros _ _. eapply (vkeeps_bind _ _ _ _ (λ _, True)).
    { destruct (get_preconditioner _ _); repeat vkeeps_step. }
    intros P _. apply vkeeps_KrylovSolver_solve.
  - unfold Trapezoidal.step. destruct (get_system _ t) as [L0 b0].
    destruct (get_system _ (t + dt)) as [L1 b1].
    eapply vkeeps_bind; [apply vkeeps_new_vector|intros Lu0 HLu0].
    eapply vkeeps_bind; [apply vkeeps_vector|intros u0v _].
    eapply vkeeps_bind; [apply vkeeps_set_vector; by left|intros _ _].
    eapply vkeeps_bind; [apply vkeeps_assemble_mass_action|intros rhs Hrhs].
    eapply vkeeps_bind; [apply vkeeps_vector|intros Lu0v _].
    eapply vkeeps_bind; [apply vkeeps_axpy; by left|intros _ _].
    eapply vkeeps_bind; [apply vkeeps_axpy; by left|intros _ _].
    eapply vkeeps_bind; [apply vkeeps_get_matrix|intros Mv _].
    eapply vkeeps_bind; [by apply vkeeps_same|intros A _].
    eapply vkeeps_bind.
    { apply vkeeps_for_each. intros bc. apply vkeeps_bc_apply. by left. }
    intros _ _. apply vkeeps_KrylovSolver_solve.
Qed.

Lemma vkeeps_stage (n : nat) (A : matrix) (c : list Qc) (V : FunctionSpace)
    (F : Qc → vec → vec) (u0 : loc) (t dt : Qc) (params : solver_parameters)
    (st : list loc * list DirichletBC) (i : nat) :
  Forall (λ ki, (n ≤ ki)%nat) st.1 →
  vkeeps n n (RungeKutta.stage A c V F u0 t dt params st i)
         (λ st', Forall (λ ki, (n ≤ ki)%nat) st'.1).
Proof.
  intros Hk. unfold RungeKutta.stage. destruct st as [k BCS1]. simpl in Hk.
  eapply (vkeeps_bind _ _ _ _ (λ _, True)).
  { unfold RungeKutta.stage_state.
    apply (vkeeps_for_fold _ _ _ _ (λ _, True)); [|done]. intros U j _.
    eapply vkeeps_bind; [apply vkeeps_lift_option|intros a _].
    eapply vkeeps_bind; [apply vkeeps_lift_option|intros kj _].
    by apply vkeeps_mret. }
  intros U _. eapply vkeeps_bind; [apply vkeeps_lift_option|intros ci _].
  eapply vkeeps_bind; [apply vkeeps_new_vector|intros ki Hki].
  assert (Forall (λ ki, (n ≤ ki)%nat) (k ++ [ki])) as Hk'.
  { apply Forall_app. split; [done|]. by repeat constructor. }
  eapply vkeeps_bind; [apply vkeeps_lift_option|intros ki' Hki'].
  eapply vkeeps_bind.
  { apply vkeeps_solve_variational. left.
    eapply (Forall_lookup_1 _ _ _ _ Hk'). exact Hki'. }
  intros _ _. by apply vkeeps_mret.
Qed.

(** X4. On every path, [runge_kutta_step] writes only vector objects it has
    created itself: the vectors that existed at entry, the state [u0]
    included, are a prefix of the vectors afterwards, and no matrix object
    is created or changed. *)
Theorem runge_kutta_step_writes_only_new (A : list (list Qc)) (b c : list Qc)
    (V : FunctionSpace) (F : Qc → vec → vec) (u0 : loc) (t dt : Qc)
    (sympy_dirichlet_bcs : list ((vec → bool) * sympy_expr)) (tol : Qc)
    (verbose : bool) (h : heap) :
  let h' := (RungeKutta.runge_kutta_step A b c V F u0 t dt
               sympy_dirichlet_bcs tol verbose h).2 in
  vecs h `prefix_of` vecs h' ∧ mats h' = mats h.
Proof.
  split.
  - set (n := length (vecs h)).
    assert (vkeeps n n (RungeKutta.runge_kutta_step A b c V F u0 t dt
              sympy_dirichlet_bcs tol verbose) (λ _, True)) as Hrk.
    { unfold RungeKutta.runge_kutta_step. cbv zeta.
      eapply (vkeeps_bind _ _ _ _ (λ _, True)).
      { apply vkeeps_same. intros h0. unfold RungeKutta.numpy_array.
        destruct A; [done|]. by destruct (forallb _ _). }
      intros A' _. eapply (vkeeps_bind _ _ _ _ (λ _, True)).
      { apply vkeeps_same. intros h0. unfold RungeKutta.fancy_index.
        destruct A'; [done|]. by destruct (mapM _ _). }
      intros upper _. eapply (vkeeps_bind _ _ _ _ (λ _, True)).
      { apply vkeeps_same. intros h0. unfold RungeKutta.assert.
        by destruct (forallb _ _). }
      intros _ _.
      eapply vkeeps_bind; [apply vkeeps_lift_option|intros BCS0 _].
      eapply vkeeps_bind; [apply vkeeps_lift_option|intros BCS1 _].
      eapply vkeeps_bind.
      { apply (vkeeps_for_fold _ _ _ _
                 (λ st, Forall (λ ki, (n ≤ ki)%nat) st.1)); [|done].
        intros st i Hst. by apply vkeeps_stage. }
      intros [k BCS1'] Hk. eapply (vkeeps_bind _ _ _ _ (λ _, True)).
      { unfold RungeKutta.combine.
        apply (vkeeps_for_fold _ _ _ _ (λ _, True)); [|done]. intros U i _.
        eapply vkeeps_bind; [apply vkeeps_lift_option|intros bi _].
        eapply vkeeps_bind; [apply vkeeps_lift_option|intros ki _].
        by apply vkeeps_mret. }
      intros U _. eapply vkeeps_bind; [apply vkeeps_new_vector|].
      intros theta Htheta. eapply vkeeps_bind.
      { apply vkeeps_solve_variational. by left. }
      intros _ _. by apply vkeeps_mret. }
    destruct (Hrk h (le_n _)) as (Hlen & Hkeep & _).
    replace (vecs h) with (take n (vecs (RungeKutta.runge_kutta_step A b c V
               F u0 t dt sympy_dirichlet_bcs tol verbose h).2)).
    { apply prefix_take. }
    apply list_eq. intros r. destruct (decide (r < n)%nat) as [Hr|Hr].
    + rewrite lookup_take_lt by done. apply Hkeep; [done|lia].
    + rewrite lookup_take_ge by lia. symmetry. apply lookup_ge_None_2.
      unfold n in Hr. lia.
  - revert h. change (mats_unchanged (RungeKutta.runge_kutta_step A b c V F
                        u0 t dt sympy_dirichlet_bcs tol verbose)).
    unfold RungeKutta.runge_kutta_step. cbv zeta.
    apply mats_unchanged_bind.
    { intros h. unfold RungeKutta.numpy_array.
      destruct A; [done|]. by destruct (forallb _ _). }
    intros A'. apply mats_unchanged_bind.
    { intros h. unfold RungeKutta.fancy_index.
      destruct A'; [done|]. by destruct (mapM _ _). }
    intros upper. apply mats_unchanged_bind.
    { intros h. unfold RungeKutta.assert. by destruct (forallb _ _). }
    intros _. apply mats_unchanged_bind;
      [apply mats_unchanged_lift_option|intros BCS0].
    apply mats_unchanged_bind; [apply mats_unchanged_lift_option|intros BCS1].
    apply mats_unchanged_bind.
    { apply mats_unchanged_for_fold. intros [k bcs] i.
      unfold RungeKutta.stage. apply mats_unchanged_bind.
      { unfold RungeKutta.stage_state. apply mats_unchanged_for_fold.
        intros U j. repeat mats_unchanged_step. }
      intros U. apply mats_unchanged_bind;
        [apply mats_unchanged_lift_option|intros ci].
      apply mats_unchanged_bind; [by intros ?|intros ki].
      apply mats_unchanged_bind;
        [apply mats_unchanged_lift_option|intros ki'].
      apply mats_unchanged_bind;
        [apply mats_unchanged_solve_variational|by intros _ ?]. }
    intros [k BCS1']. apply mats_unchanged_bind.
    { unfold RungeKutta.combine. apply mats_unchanged_for_fold.
      intros U i. repeat mats_unchanged_step. }
    intros U. apply mats_unchanged_bind; [by intros ?|intros theta].
    apply mats_unchanged_bind;
      [apply mats_unchanged_solve_variational|by intros _ ?].
Qed.

End Frames.

Lemma euler_steps_write_only_u1_witness :
  vecs (ExplicitEuler.step Sample.stepper2 1 0 (q 0 1) (q 1 1) Sample.tol10
          100 true Sample.heap2).2 !! 0%nat = Some [q 1 1; q 1 1]
  ∧ vecs (ImplicitEuler.step Sample.stepper2 1 0 (q 0 1) (q 1 1)
            Sample.tol10 100 true "gmres" "ilu" Sample.heap2).2 !! 0%nat
    = Some [q 1 1; q 1 1]
  ∧ vecs (Trapezoidal.step Sample.stepper2 1 0 (q 0 1) (q 1 1) Sample.tol10
            true 100 "gmres" "ilu" Sample.heap2).2 !! 0%nat
    = Some [q 1 1; q 1 1].
Proof.
  apply (euler_steps_write_only_u1 Sample.stepper2 1 0 (q 0 1) (q 1 1)
           Sample.tol10 100 true "gmres" "ilu" Sample.heap2 0
           [q 1 1; q 1 1]).
  - reflexivity.
  - lia.
Defined.

(** ** A complete run of [runge_kutta_step] *)

Lemma stage_state_from (A : matrix) (u0 : loc) (dt : Qc) (k : list loc)
    (i : nat) (Ai : list Qc) (h : heap) (m n0 : nat) (U : ufl) :
  A !! i = Some Ai → (n0 + m)%nat = length k →
  (length k ≤ length Ai)%nat →
  for_fold (seq n0 m)
    (λ U j,
       a ← lift_option IndexError (r ← A !! i; r !! j);
       kj ← lift_option IndexError (k !! j);
       mret (Sum U (Scaled (dt * a) (Coefficient kj)))) U h
  = (Ok (foldl (λ U ak, Sum U (Scaled (dt * ak.1) (Coefficient ak.2))) U
               (zip (drop n0 Ai) (drop n0 k))), h).
Proof.
  intros HAi.
  set (body := λ (U : ufl) (j : nat),
         a ← lift_option IndexError (r ← A !! i; r !! j);
         kj ← lift_option IndexError (k !! j);
         mret (Sum U (Scaled (dt * a) (Coefficient kj))) : St ufl).
  revert n0 U. induction m as [|m IH]; intros n0 U Hn Hk; simpl.
  - rewrite (drop_ge k) by lia. by rewrite zip_with_nil_r.
  - destruct (lookup_lt_is_Some_2 Ai n0) as [a Ha]; [lia|].
    destruct (lookup_lt_is_Some_2 k n0) as [kj Hkj]; [lia|].
    rewrite bind_run.
    assert (body U n0 h
            = (Ok (Sum U (Scaled (dt * a) (Coefficient kj))), h)) as ->.
    { unfold body. rewrite bind_run, HAi. simpl. rewrite Ha. simpl.
      by rewrite bind_run, Hkj. }
    cbv beta iota. rewrite IH by lia.
    by rewrite (drop_S Ai a n0 Ha), (drop_S k kj n0 Hkj).
Qed.

Lemma stage_state_run (A : matrix) (u0 : loc) (dt : Qc) (k : list loc)
    (Ai : list Qc) (h : heap) :
  A !! length k = Some Ai → (length k ≤ length Ai)%nat →
  RungeKutta.stage_state A u0 dt k (length k) h
  = (Ok (staged dt Ai u0 k), h).
Proof.
  intros HAi Hk. unfold RungeKutta.stage_state, staged.
  by rewrite (stage_state_from A u0 dt k (length k) Ai h (length k) 0).
Qed.

Lemma staged_eval_from (h : heap) (dt : Qc) (Ai : list Qc) (k : list loc)
    (kv : list vec) (U : ufl) (W : vec) :
  Forall2 (λ kj v, vecs h !! kj = Some v) k kv →
  ufl_eval h U = Some W →
  ufl_eval h (foldl (λ U ak, Sum U (Scaled (dt * ak.1) (Coefficient ak.2)))
                    U (zip Ai k))
  = Some (foldl (λ W av, vadd W (vscale (dt * av.1) av.2)) W (zip Ai kv)).
Proof.
  intros Hk. revert Ai U W.
  induction Hk as [|kj v k kv Hkj Hk IH]; intros Ai U W HU.
  - by destruct Ai.
  - destruct Ai as [|a Ai]; [done|]. simpl. apply IH.
    simpl. by rewrite HU, Hkj.
Qed.

Lemma staged_eval (h : heap) (dt : Qc) (Ai : list Qc) (u0 : loc)
    (k : list loc) (u0v : vec) (kv : list vec) :
  vecs h !! u0 = Some u0v →
  Forall2 (λ kj v, vecs h !! kj = Some v) k kv →
  ufl_eval h (staged dt Ai u0 k) = Some (stage_value u0v dt Ai kv).
Proof. intros Hu0 Hk. by apply staged_eval_from. Qed.

(** The objects created by the stages sit behind the vectors of the
    entry heap, in stage order. *)
Lemma stage_objects (l0 kv rest : list vec) (h : heap) :
  vecs h = l0 ++ kv ++ rest →
  Forall2 (λ kj v, vecs h !! kj = Some v) (seq (length l0) (length kv)) kv.
Proof.
  intros Hh. apply Forall2_same_length_lookup_2; [by rewrite length_seq|].
  intros i kj v [-> Hi]%lookup_seq Hv.
  rewrite Hh, lookup_app_r by lia.
  replace (length l0 + i - length l0)%nat with i by lia.
  by apply lookup_app_l_Some.
Qed.

Lemma set_attr_t_twice (tau tau' : Qc) (bcs : list DirichletBC) :
  RungeKutta.set_attr_t tau <$> (RungeKutta.set_attr_t tau' <$> bcs)
  = RungeKutta.set_attr_t tau <$> bcs.
Proof.
  induction bcs as [|g bcs IH]; [done|]. by rewrite !fmap_cons, IH.
Qed.

Lemma numpy_array_rectangular (A : list (list Qc)) (n : nat) (h : heap) :
  Forall (λ r, length r = n) A → RungeKutta.numpy_array A h = (Ok A, h).
Proof.
  intros Hcols. unfold RungeKutta.numpy_array. destruct A as [|r A']; [done|].
  assert (forallb (λ r', bool_decide (length r' = length r)) (r :: A')
          = true) as ->; [|done].
  apply forallb_forall. intros r' Hr'. apply bool_decide_eq_true_2.
  rewrite Forall_forall in Hcols.
  rewrite (Hcols r') by done. symmetry. apply Hcols. by left.
Qed.

Section RungeKuttaRun.
Context `{Backend}.
Context (A : matrix) (b c : list Qc) (V : FunctionSpace)
        (F : Qc → vec → vec) (u0 : loc) (u0v : vec) (t dt : Qc)
        (sympy_dirichlet_bcs : list ((vec → bool) * sympy_expr))
        (tol : Qc) (verbose : bool) (h : heap).

Hypothesis Hstages : (0 < length b)%nat.
Hypothesis Hrows : length A = length b.
Hypothesis Hcols : Forall (λ r, length r = length b) A.
Hypothesis Hexplicit : explicit_tableau A (length b) = true.
Hypothesis Hc : length c = length b.
Hypothesis Hu0 : vecs h !! u0 = Some u0v.
Hypothesis Hsolve :
  ∀ p a L bcs x0, is_Some (variational_solve p a L bcs x0).

Local Abbreviation params := (RungeKutta.solver_params tol verbose).
Local Abbreviation scall :=
  (stage_call A c V F u0v t dt sympy_dirichlet_bcs tol verbose).
Local Abbreviation fcall :=
  (final_call b V u0v t dt sympy_dirichlet_bcs tol verbose).
Local Abbreviation bcs_of := (rk_bcs V t dt sympy_dirichlet_bcs).
Local Abbreviation n := (length (vecs h)).
Local Abbreviation s := (length b).

Lemma stage_call_take (kv kv' : list vec) (i : nat) :
  take i kv = take i kv' → scall kv i = scall kv' i.
Proof. unfold stage_call. by intros ->. Qed.

Lemma stage_run (kv : list vec) (bcs : list DirichletBC)
    (log : list solve_call) (x : vec) :
  (length kv < s)%nat →
  (∀ tau, RungeKutta.set_attr_t tau <$> bcs = bcs_of 1%nat tau) →
  answer (scall kv (length kv)) = Some x →
  ∃ bcs',
    (∀ tau, RungeKutta.set_attr_t tau <$> bcs' = bcs_of 1%nat tau)
    ∧ RungeKutta.stage A c V F u0 t dt params (seq n (length kv), bcs)
        (length kv) (mkHeap (vecs h ++ kv) (mats h) log)
      = (Ok (seq n (S (length kv)), bcs'),
         mkHeap (vecs h ++ (kv ++ [x])) (mats h)
                (log ++ [scall kv (length kv)])).
Proof.
  intros Hi Hbcs Hx.
  destruct (lookup_lt_is_Some_2 A (length kv)) as [Ai HAi]; [lia|].
  destruct (lookup_lt_is_Some_2 c (length kv)) as [ci Hci]; [lia|].
  assert (length Ai = s) as HlenAi.
  { rewrite Forall_forall in Hcols. apply Hcols, list_elem_of_In.
    by eapply list_elem_of_lookup_2. }
  exists (RungeKutta.set_attr_t (t + ci * dt) <$> bcs). split.
  { intros tau. by rewrite set_attr_t_twice. }
  unfold answer, stage_call in Hx. rewrite HAi, Hci in Hx.
  cbn [default from_option id] in Hx. rewrite take_ge in Hx by lia.
  unfold stage_call. rewrite HAi, Hci.
  cbn [default from_option id]. rewrite take_ge by lia.
  unfold RungeKutta.stage.
  pose proof (stage_state_run A u0 dt (seq n (length kv)) Ai
                (mkHeap (vecs h ++ kv) (mats h) log)) as Hss.
  rewrite length_seq in Hss.
  rewrite bind_run, (Hss HAi) by lia. clear Hss.
  cbv beta iota. rewrite bind_run, Hci. unfold lift_option at 1.
  rewrite mret_run. cbv beta iota.
  rewrite bind_run, Function_run. cbv beta iota. cbn [vecs mats solves].
  rewrite bind_run.
  assert ((seq n (length kv) ++ [length (vecs h ++ kv)]) !! length kv
          = Some (n + length kv)%nat) as ->.
  { rewrite lookup_app_r by by rewrite length_seq.
    rewrite length_seq, length_app.
    by replace (length kv - length kv)%nat with 0%nat by lia. }
  unfold lift_option at 1. rewrite mret_run. cbv beta iota.
  rewrite bind_run.
  unfold solve_variational.
  rewrite bind_run. unfold assemble. cbn [form_coefficient form_load].
  erewrite (staged_eval _ dt Ai u0 _ u0v kv); last first.
  { apply (stage_objects (vecs h) kv [vzero (dim V)]). simpl.
    by rewrite <- app_assoc. }
  { simpl. rewrite <- app_assoc. by apply lookup_app_l_Some. }
  cbv beta iota.
  rewrite bind_run.
  erewrite vector_ok; last first.
  { simpl. rewrite <- length_app. apply lookup_snoc. }
  cbv beta iota. rewrite bind_run, log_call_run. cbv beta iota.
  cbn [vecs mats solves].
  rewrite bind_run, !Hbcs, Hx. unfold lift_option. rewrite mret_run.
  cbv beta iota. rewrite set_vector_run, mret_run. cbn [vecs mats solves].
  rewrite <- length_app, insert_snoc, <- (app_assoc (vecs h) kv [x]).
  by rewrite length_app, seq_S.
Qed.

Lemma stage_loop_run (m : nat) :
  ∀ (kv : list vec) (bcs : list DirichletBC) (log : list solve_call),
    (length kv + m)%nat = s →
    (∀ tau, RungeKutta.set_attr_t tau <$> bcs = bcs_of 1%nat tau) →
    (∀ j, (j < length kv)%nat → answer (scall kv j) = kv !! j) →
    ∃ (kv' : list vec) (bcs' : list DirichletBC),
      length kv' = s
      ∧ take (length kv) kv' = kv
      ∧ (∀ j, (j < s)%nat → answer (scall kv' j) = kv' !! j)
      ∧ for_fold (seq (length kv) m)
          (RungeKutta.stage A c V F u0 t dt params)
          (seq n (length kv), bcs) (mkHeap (vecs h ++ kv) (mats h) log)
        = (Ok (seq n s, bcs'),
           mkHeap (vecs h ++ kv') (mats h)
                  (log ++ (scall kv' <$> seq (length kv) m))).
Proof.
  induction m as [|m IH]; intros kv bcs log Hlen Hbcs Hans.
  - exists kv, bcs. split; [lia|]. split; [by apply take_ge|].
    split; [intros j Hj; apply Hans; lia|].
    simpl. rewrite app_nil_r. by replace (length kv) with s by lia.
  - assert (is_Some (answer (scall kv (length kv)))) as [x Hx]
      by apply Hsolve.
    destruct (stage_run kv bcs log x ltac:(lia) Hbcs Hx) as (bcs1 & Hbcs1 & Hst).
    destruct (IH (kv ++ [x]) bcs1 (log ++ [scall kv (length kv)]))
      as (kv' & bcs' & Hlen' & Htake & Hans' & Hloop).
    { rewrite length_app. simpl. lia. }
    { done. }
    { intros j Hj. rewrite length_app in Hj. simpl in Hj.
      destruct (decide (j < length kv)%nat) as [Hlt|Hge].
      - rewrite (stage_call_take (kv ++ [x]) kv)
          by (rewrite take_app_le by lia; done).
        rewrite Hans by done. symmetry. by apply lookup_app_l.
      - assert (j = length kv) as -> by lia.
        rewrite (stage_call_take (kv ++ [x]) kv)
          by (rewrite take_app_length, take_ge by lia; done).
        rewrite Hx. symmetry. apply lookup_snoc. }
    rewrite length_app in Htake, Hloop. simpl in Htake, Hloop.
    replace (length kv + 1)%nat with (S (length kv)) in Htake, Hloop by lia.
    assert (take (length kv) kv' = kv) as Htake'.
    { replace (length kv) with (min (length kv) (S (length kv))) at 1 by lia.
      rewrite <- take_take, Htake. by rewrite take_app_length. }
    exists kv', bcs'. split; [done|]. split; [done|]. split; [done|].
    change (seq (length kv) (S m))
      with (length kv :: seq (S (length kv)) m).
    cbn [for_fold]. rewrite bind_run, Hst. cbv beta iota. rewrite Hloop.
    rewrite <- app_assoc, fmap_cons. cbn [app].
    rewrite (stage_call_take kv kv' (length kv)); [done|].
    rewrite Htake'. by apply take_ge.
Qed.

(** The whole step on a well-formed explicit tableau with solves that
    all return: the stage derivatives [kv] and the result [theta] are the
    backend's answers to the requests [stage_call] and [final_call], which
    are logged in this order; the new vector objects follow the old ones. *)
Lemma runge_kutta_step_run :
  ∃ (kv : list vec) (theta : vec),
    length kv = s
    ∧ (∀ j, (j < s)%nat → answer (scall kv j) = kv !! j)
    ∧ answer (fcall kv) = Some theta
    ∧ RungeKutta.runge_kutta_step A b c V F u0 t dt sympy_dirichlet_bcs
                                  tol verbose h
      = (Ok (n + s)%nat,
         mkHeap (vecs h ++ kv ++ [theta]) (mats h)
                (solves h ++ (scall kv <$> seq 0 s) ++ [fcall kv])).
Proof.
  destruct (stage_loop_run s []
              (default [] (RungeKutta.make_BCS V sympy_dirichlet_bcs t dt
                             !! 1%nat)) (solves h))
    as (kv & bcs' & Hlen & _ & Hans & Hloop).
  { done. }
  { done. }
  { simpl. intros j Hj. lia. }
  assert (is_Some (answer (fcall kv))) as [theta Htheta] by apply Hsolve.
  exists kv, theta. split; [done|]. split; [done|]. split; [done|].
  cbn [length] in Hloop. change (seq n 0) with (@nil nat) in Hloop.
  rewrite app_nil_r, heap_eta in Hloop.
  unfold RungeKutta.runge_kutta_step. cbv zeta.
  rewrite bind_run, (numpy_array_rectangular A s) by done. cbv beta iota.
  unfold explicit_tableau in Hexplicit.
  destruct (upper_triangle A s) as [upper|] eqn:Hupper; [|done].
  rewrite bind_run.
  assert (RungeKutta.fancy_index A (RungeKutta.triu_indices s) h
          = (Ok upper, h)) as ->.
  { unfold RungeKutta.fancy_index. unfold upper_triangle in Hupper.
    destruct A as [|r A']; [simpl in Hrows; lia|]. by rewrite Hupper. }
  cbv beta iota. rewrite bind_run, Hexplicit. cbv beta iota.
  unfold RungeKutta.assert at 1. rewrite mret_run. cbv beta iota.
  rewrite bind_run.
  change (RungeKutta.make_BCS V sympy_dirichlet_bcs t dt !! 0%nat)
    with (Some (default [] (RungeKutta.make_BCS V sympy_dirichlet_bcs t dt
                              !! 0%nat))).
  unfold lift_option at 1. rewrite mret_run. cbv beta iota.
  rewrite bind_run.
  change (RungeKutta.make_BCS V sympy_dirichlet_bcs t dt !! 1%nat)
    with (Some (default [] (RungeKutta.make_BCS V sympy_dirichlet_bcs t dt
                              !! 1%nat))).
  unfold lift_option at 1. rewrite mret_run. cbv beta iota.
  rewrite bind_run.
  rewrite Hloop. cbv beta iota.
  rewrite bind_run.
  rewrite (combine_run b u0 (seq n s)) by apply length_seq.
  cbv beta iota. rewrite bind_run, Function_run. cbv beta iota.
  cbn [vecs mats solves].
  rewrite bind_run. unfold solve_variational.
  rewrite bind_run. unfold assemble. cbn [form_coefficient form_load].
  rewrite (final_form_eval _ b u0 (seq n s) dt u0v kv); first last.
  { rewrite <- Hlen. apply (stage_objects (vecs h) kv [vzero (dim V)]).
    simpl. by rewrite <- app_assoc. }
  { simpl. rewrite <- app_assoc. by apply lookup_app_l_Some. }
  cbv beta iota. rewrite bind_run.
  erewrite vector_ok by (simpl; apply lookup_snoc).
  cbv beta iota. rewrite bind_run, log_call_run. cbv beta iota.
  cbn [vecs mats solves].
  unfold answer, final_call, rk_bcs, combined_value in Htheta.
  rewrite bind_run, Htheta. unfold lift_option. rewrite mret_run.
  cbv beta iota. rewrite set_vector_run. cbv beta iota. rewrite mret_run.
  cbn [vecs mats solves].
  rewrite insert_snoc, length_app, Hlen, <- !app_assoc.
  reflexivity.
Qed.

End RungeKuttaRun.

Section RungeKuttaResults.
Context `{Backend}.
Context (A : matrix) (b c : list Qc) (V : FunctionSpace)
        (F : Qc → vec → vec) (u0 : loc) (u0v : vec) (t dt : Qc)
        (sympy_dirichlet_bcs : list ((vec → bool) * sympy_expr))
        (tol : Qc) (verbose : bool) (h : heap).

Local Abbreviation run :=
  (RungeKutta.runge_kutta_step A b c V F u0 t dt sympy_dirichlet_bcs tol
                               verbose h).

(** X6. On an accepted tableau, with a valid state [u0] and solves that all
    return, [runge_kutta_step] returns normally.  The function it returns
    is a newly created object, the last of the [s + 1] vectors the step
    has created, and holds the backend's answer to the last of the
    [s + 1] requests the step has logged. *)
Theorem runge_kutta_step_returns :
  tableau_accepted A b c → solves_return → vecs h !! u0 = Some u0v →
  ∃ (theta : loc) (last_call : solve_call),
    run.1 = Ok theta
    ∧ vecs h !! theta = None
    ∧ length (vecs run.2) = (length (vecs h) + length b + 1)%nat
    ∧ theta = (length (vecs h) + length b)%nat
    ∧ length (solves run.2) = (length (solves h) + length b + 1)%nat
    ∧ solves run.2 !! (length (solves h) + length b)%nat = Some last_call
    ∧ answer last_call = vecs run.2 !! theta.
Proof.
  intros (Hs & Hrows & Hcols & Hexp & Hc) Hsolve Hu0.
  destruct (runge_kutta_step_run A b c V F u0 u0v t dt sympy_dirichlet_bcs
              tol verbose h Hs Hrows Hcols Hexp Hc Hu0 Hsolve)
    as (kv & theta & Hlen & Hans & Htheta & Hrun).
  rewrite Hrun. cbn [fst snd vecs mats solves].
  eexists _, _. split; [reflexivity|].
  split; [apply lookup_ge_None_2; lia|].
  split; [rewrite !length_app, Hlen; simpl; lia|].
  split; [reflexivity|].
  split; [rewrite !length_app, length_fmap, length_seq; simpl; lia|].
  split.
  - rewrite lookup_app_r by lia.
    replace (length (solves h) + length b - length (solves h))%nat
      with (length b) by lia.
    rewrite lookup_app_r by by rewrite length_fmap, length_seq.
    rewrite length_fmap, length_seq.
    by replace (length b - length b)%nat with 0%nat by lia.
  - rewrite Htheta. symmetry. rewrite app_assoc.
    rewrite <- Hlen, <- length_app. apply lookup_snoc.
Qed.

(** X7. Under the same conditions, the request of stage [i] is the one of
    the closed form [stage_call]: the mass form against
    [F(t + c[i] dt, U_i)] with
    [U_i = u0 + (dt A[i][0]) k[0] + ... + (dt A[i][i-1]) k[i-1]], where
    [k[j]] are the vectors the earlier stages have stored; and the vector
    stored for stage [i] is the backend's answer to that request. *)
Theorem runge_kutta_step_stage_system (i : nat) :
  tableau_accepted A b c → solves_return → vecs h !! u0 = Some u0v →
  (i < length b)%nat →
  let kv := drop (length (vecs h)) (vecs run.2) in
  let call :=
    stage_call A c V F u0v t dt sympy_dirichlet_bcs tol verbose kv i in
  solves run.2 !! (length (solves h) + i)%nat = Some call
  ∧ answer call = vecs run.2 !! (length (vecs h) + i)%nat.
Proof.
  intros (Hs & Hrows & Hcols & Hexp & Hc) Hsolve Hu0 Hi.
  destruct (runge_kutta_step_run A b c V F u0 u0v t dt sympy_dirichlet_bcs
              tol verbose h Hs Hrows Hcols Hexp Hc Hu0 Hsolve)
    as (kv & theta & Hlen & Hans & Htheta & Hrun).
  rewrite Hrun. cbn [fst snd vecs mats solves].
  rewrite drop_app_length.
  assert (stage_call A c V F u0v t dt sympy_dirichlet_bcs tol verbose
            (kv ++ [theta]) i
          = stage_call A c V F u0v t dt sympy_dirichlet_bcs tol verbose kv i)
    as ->.
  { unfold stage_call. by rewrite take_app_le by lia. }
  split.
  - rewrite lookup_app_r by lia.
    replace (length (solves h) + i - length (solves h))%nat with i by lia.
    rewrite lookup_app_l by (rewrite length_fmap, length_seq; lia).
    rewrite list_lookup_fmap, lookup_seq_lt by done. reflexivity.
  - rewrite Hans by done. rewrite lookup_app_r by lia.
    replace (length (vecs h) + i - length (vecs h))%nat with i by lia.
    symmetry. apply lookup_app_l. lia.
Qed.

(** X8. Under the same conditions, the request of the combining solve is the
    one of the closed form [final_call]: the mass form against the mass
    form applied to [u0 + dt (u0 + b[0] k[0] + ... + b[s-1] k[s-1])], with
    the conditions of [BCS[0]]; [k[j]] are the vectors the stages have
    stored. *)
Theorem runge_kutta_step_final_system :
  tableau_accepted A b c → solves_return → vecs h !! u0 = Some u0v →
  let kv := take (length b) (drop (length (vecs h)) (vecs run.2)) in
  solves run.2 !! (length (solves h) + length b)%nat
  = Some (final_call b V u0v t dt sympy_dirichlet_bcs tol verbose kv).
Proof.
  intros (Hs & Hrows & Hcols & Hexp & Hc) Hsolve Hu0.
  destruct (runge_kutta_step_run A b c V F u0 u0v t dt sympy_dirichlet_bcs
              tol verbose h Hs Hrows Hcols Hexp Hc Hu0 Hsolve)
    as (kv & theta & Hlen & Hans & Htheta & Hrun).
  rewrite Hrun. cbn [fst snd vecs mats solves].
  rewrite drop_app_length, <- Hlen, take_app_length.
  rewrite lookup_app_r by lia.
  replace (length (solves h) + length kv - length (solves h))%nat
    with (length kv) by lia.
  rewrite lookup_app_r by (rewrite length_fmap, length_seq; lia).
  rewrite length_fmap, length_seq, Hlen.
  by replace (length b - length b)%nat with 0%nat by lia.
Qed.

End RungeKuttaResults.

(** ** The results of [runge_kutta_step] on the Heun tableau *)

Lemma heun_tableau_accepted :
  tableau_accepted Sample.heun_A Sample.heun_b Sample.heun_c.
Proof.
  repeat split; try reflexivity.
  - simpl; lia.
  - repeat constructor.
Defined.

Lemma Sweeps_solves_return : solves_return (H := Sweeps.backend).
Proof. intros p a L bcs x0. by eexists. Defined.

Lemma runge_kutta_step_returns_witness :
  let run := RungeKutta.runge_kutta_step (H := Sweeps.backend)
               Sample.heun_A Sample.heun_b Sample.heun_c Sample.V2_lumped
               Sample.decay 0 (q 0 1) (q 1 10) Sample.t_squared Sample.tol10
               true Sample.heap2 in
  ∃ (theta : loc) (last_call : solve_call),
    run.1 = Ok theta
    ∧ vecs Sample.heap2 !! theta = None
    ∧ length (vecs run.2) = (2 + 2 + 1)%nat
    ∧ theta = (2 + 2)%nat
    ∧ length (solves run.2) = (0 + 2 + 1)%nat
    ∧ solves run.2 !! (0 + 2)%nat = Some last_call
    ∧ answer (H := Sweeps.backend) last_call = vecs run.2 !! theta.
Proof.
  exact (runge_kutta_step_returns (H := Sweeps.backend)
           Sample.heun_A Sample.heun_b Sample.heun_c Sample.V2_lumped
           Sample.decay 0 [q 1 1; q 1 1] (q 0 1) (q 1 10) Sample.t_squared
           Sample.tol10 true Sample.heap2
           heun_tableau_accepted Sweeps_solves_return eq_refl).
Defined.

Lemma runge_kutta_step_stage_system_witness :
  let run := RungeKutta.runge_kutta_step (H := Sweeps.backend)
               Sample.heun_A Sample.heun_b Sample.heun_c Sample.V2_lumped
               Sample.decay 0 (q 0 1) (q 1 10) Sample.t_squared Sample.tol10
               true Sample.heap2 in
  let kv := drop 2 (vecs run.2) in
  let call :=
    stage_call Sample.heun_A Sample.heun_c Sample.V2_lumped Sample.decay
               [q 1 1; q 1 1] (q 0 1) (q 1 10) Sample.t_squared Sample.tol10
               true kv 1 in
  solves run.2 !! (0 + 1)%nat = Some call
  ∧ answer (H := Sweeps.backend) call = vecs run.2 !! (2 + 1)%nat.
Proof.
  exact (runge_kutta_step_stage_system (H := Sweeps.backend)
           Sample.heun_A Sample.heun_b Sample.heun_c Sample.V2_lumped
           Sample.decay 0 [q 1 1; q 1 1] (q 0 1) (q 1 10) Sample.t_squared
           Sample.tol10 true Sample.heap2 1
           heun_tableau_accepted Sweeps_solves_return eq_refl
           ltac:(simpl; lia)).
Defined.

Lemma runge_kutta_step_final_system_witness :
  let run := RungeKutta.runge_kutta_step (H := Sweeps.backend)
               Sample.heun_A Sample.heun_b Sample.heun_c Sample.V2_lumped
               Sample.decay 0 (q 0 1) (q 1 10) Sample.t_squared Sample.tol10
               true Sample.heap2 in
  let kv := take 2 (drop 2 (vecs run.2)) in
  solves run.2 !! (0 + 2)%nat
  = Some (final_call Sample.heun_b Sample.V2_lumped [q 1 1; q 1 1] (q 0 1)
                     (q 1 10) Sample.t_squared Sample.tol10 true kv).
Proof.
  exact (runge_kutta_step_final_system (H := Sweeps.backend)
           Sample.heun_A Sample.heun_b Sample.heun_c Sample.V2_lumped
           Sample.decay 0 [q 1 1; q 1 1] (q 0 1) (q 1 10) Sample.t_squared
           Sample.tol10 true Sample.heap2
           heun_tableau_accepted Sweeps_solves_return eq_refl).
Defined.

(** ** Constructing a stepper, then stepping *)

Section ConstructThenStep.
Context `{Backend}.

(** X9. A stepper obtained from the constructor solves, on its first step,
    the system of its scheme: the constructor stores the assembled mass
    form in a new matrix object [self.M], and the step that follows hands
    the solver the system built from it (explicit Euler, implicit Euler
    and trapezoidal, in this order). *)
Theorem constructed_stepper_solves_system (p : ParabolicProblem)
    (u1 u0 : loc) (t dt tol : Qc) (maxiter : nat) (verbose : bool)
    (krylov preconditioner : string) (h : heap) (u0v x0 : vec) :
  vecs h !! u0 = Some u0v →
  vecs h !! u1 = Some x0 →
  let params := krylov_params tol maxiter verbose in
  solved_by (mkKrylovSolver "cg" "amg" params)
            (Spec.explicit_euler_system p u0v t dt) None x0 u1 h
            ((self ← ExplicitEuler.init p;
              ExplicitEuler.step self u1 u0 t dt tol maxiter verbose) h)
  ∧ solved_by (mkKrylovSolver krylov preconditioner params)
              (Spec.implicit_euler_system p u0v t dt)
              ((λ P, madd (mass_form p) (mscale dt P))
                 <$> get_preconditioner p (t + dt))
              x0 u1 h
              ((self ← ImplicitEuler.init p;
                ImplicitEuler.step self u1 u0 t dt tol maxiter verbose
                                   krylov preconditioner) h)
  ∧ solved_by (mkKrylovSolver krylov preconditioner params)
              (Spec.trapezoidal_system p u0v t dt) None x0 u1 h
              ((self ← Trapezoidal.init p;
                Trapezoidal.step self u1 u0 t dt tol verbose maxiter
                                 krylov preconditioner) h).
Proof.
  intros Hu0 Hu1 params.
  pose proof (lookup_lt_Some _ _ _ Hu1) as Hlt.
  set (h1 := mkHeap (vecs h) (mats h ++ [mass_form p]) (solves h)).
  set (self := mkStepper p (length (mats h))).
  assert (mats h1 !! M self = Some (mass_form (problem self))) as HM
    by apply lookup_snoc.
  assert (∀ init, init = ExplicitEuler.init → init p h = (Ok self, h1))
    as Hinit.
  { intros init ->. unfold ExplicitEuler.init, assemble_mass.
    by rewrite bind_run, new_matrix_run. }
  split; [|split]; rewrite bind_run.
  - rewrite (Hinit _ eq_refl). cbv beta iota.
    rewrite (ExplicitEuler_step_run _ _ _ _ _ _ _ _ _ _ _ _ HM Hu0 Hu1).
    rewrite explicit_rhs. apply solve_outcome_solved_by; simpl; [done|].
    rewrite length_app. lia.
  - rewrite (Hinit ImplicitEuler.init eq_refl). cbv beta iota.
    rewrite (ImplicitEuler_step_run _ _ _ _ _ _ _ _ _ _ _ _ _ _ HM Hu0 Hu1).
    apply solve_outcome_solved_by; simpl; [done|].
    rewrite length_app. lia.
  - rewrite (Hinit Trapezoidal.init eq_refl). cbv beta iota.
    rewrite (Trapezoidal_step_run _ _ _ _ _ _ _ _ _ _ _ _ _ _ HM Hu0 Hu1).
    rewrite trapezoidal_rhs. apply solve_outcome_solved_by; simpl; [done|].
    rewrite length_app. lia.
Qed.

End ConstructThenStep.

Lemma constructed_stepper_solves_system_witness :
  let params := krylov_params Sample.tol10 100 true in
  solved_by (mkKrylovSolver "cg" "amg" params)
            (Spec.explicit_euler_system Sample.heat [q 1 1; q 1 1] (q 0 1)
                                        (q 1 10))
            None [q 0 1; q 0 1] 1 Sample.heap0
            ((self ← ExplicitEuler.init Sample.heat;
              ExplicitEuler.step self 1 0 (q 0 1) (q 1 10) Sample.tol10 100
                                 true) Sample.heap0)
  ∧ solved_by (mkKrylovSolver "gmres" "ilu" params)
              (Spec.implicit_euler_system Sample.heat [q 1 1; q 1 1] (q 0 1)
                                          (q 1 10))
              ((λ P, madd (mass_form Sample.heat) (mscale (q 1 10) P))
                 <$> get_preconditioner Sample.heat (q 0 1 + q 1 10))
              [q 0 1; q 0 1] 1 Sample.heap0
              ((self ← ImplicitEuler.init Sample.heat;
                ImplicitEuler.step self 1 0 (q 0 1) (q 1 10) Sample.tol10 100
                                   true "gmres" "ilu") Sample.heap0)
  ∧ solved_by (mkKrylovSolver "gmres" "ilu" params)
              (Spec.trapezoidal_system Sample.heat [q 1 1; q 1 1] (q 0 1)
                                       (q 1 10))
              None [q 0 1; q 0 1] 1 Sample.heap0
              ((self ← Trapezoidal.init Sample.heat;
                Trapezoidal.step self 1 0 (q 0 1) (q 1 10) Sample.tol10 true
                                 100 "gmres" "ilu") Sample.heap0).
Proof.
  exact (constructed_stepper_solves_system (H := Reference.backend)
           Sample.heat 1 0 (q 0 1) (q 1 10) Sample.tol10 100 true
           "gmres" "ilu" Sample.heap0 [q 1 1; q 1 1] [q 0 1; q 0 1]
           eq_refl eq_refl).
Defined.

(** ** Tableaux that [runge_kutta_step] does not run through *)

Lemma fails_bind_l {A B} (m : St A) (f : A → St B) :
  fails m → fails (m ≫= f).
Proof.
  intros Hm h. rewrite bind_run. destruct (Hm h) as [e He].
  destruct (m h) as [[a|e'] h']; simpl in *; [done|by exists e'].
Qed.

Lemma fails_bind_r {A B} (m : St A) (f : A → St B) :
  (∀ a, fails (f a)) → fails (m ≫= f).
Proof.
  intros Hf h. rewrite bind_run.
  destruct (m h) as [[a|e'] h']; [apply Hf|by exists e'].
Qed.

Lemma fails_for_fold {A S} (l : list A) (body : S → A → St S) (x : A) :
  x ∈ l → (∀ s, fails (body s x)) → ∀ s, fails (for_fold l body s).
Proof.
  intros Hx Hbody. induction l as [|y l IH]; intros s.
  { by apply elem_of_nil in Hx. }
  simpl. apply elem_of_cons in Hx as [<-|Hx].
  - apply fails_bind_l, Hbody.
  - apply fails_bind_r. intros s'. by apply IH.
Qed.

Section Rejected.
Context `{Backend}.
Context (A : list (list Qc)) (b c : list Qc) (V : FunctionSpace)
        (F : Qc → vec → vec) (u0 : loc) (t dt : Qc)
        (sympy_dirichlet_bcs : list ((vec → bool) * sympy_expr))
        (tol : Qc) (verbose : bool).

(** X10. A rectangular [A] with fewer than [s = len(b)] rows or columns is
    refused by the index step of the explicitness check: the step raises
    IndexError and leaves the heap (and the log of solves) as it was. *)
Theorem runge_kutta_step_small_A (w : nat) (h : heap) :
  Forall (λ r, length r = w) A →
  (length A < length b ∨ w < length b)%nat →
  RungeKutta.runge_kutta_step A b c V F u0 t dt sympy_dirichlet_bcs tol
                              verbose h
  = (Raise IndexError, h).
Proof.
  intros Hcols Hsmall. unfold RungeKutta.runge_kutta_step. cbv zeta.
  rewrite bind_run, (numpy_array_rectangular A w) by done. cbv beta iota.
  rewrite bind_run.
  assert (RungeKutta.fancy_index A (RungeKutta.triu_indices (length b)) h
          = (Raise IndexError, h)) as ->; [|done].
  unfold RungeKutta.fancy_index. destruct A as [|r A'] eqn:EA; [done|].
  rewrite <- EA in *.
  assert (mapM (λ '(i, j), r ← A !! i; r !! j)
               (RungeKutta.triu_indices (length b)) = None) as ->; [|done].
  apply mapM_None. apply Exists_exists.
  exists (length b - 1, length b - 1)%nat. split.
  - apply list_elem_of_In, triu_indices_elem. lia.
  - destruct (A !! (length b - 1)%nat) as [row|] eqn:Hrow; [|done].
    simpl. apply lookup_ge_None_2.
    rewrite Forall_lookup in Hcols. rewrite (Hcols _ _ Hrow).
    destruct Hsmall as [Hsmall|Hsmall]; [|lia].
    apply lookup_lt_Some in Hrow. lia.
Qed.

(** X11. With fewer entries in [c] than in [b] the step never returns
    normally: no length check precedes the stage loop, and the stage
    [len(c)] fails at [c[i]]. *)
Theorem runge_kutta_step_short_c :
  (length c < length b)%nat →
  fails (RungeKutta.runge_kutta_step A b c V F u0 t dt sympy_dirichlet_bcs
                                     tol verbose).
Proof.
  intros Hc. unfold RungeKutta.runge_kutta_step. cbv zeta.
  do 5 (apply fails_bind_r; intros ?).
  apply fails_bind_l.
  apply (fails_for_fold _ _ (length c)); [apply elem_of_seq; lia|].
  intros [k BCS1]. unfold RungeKutta.stage.
  apply fails_bind_r; intros U. apply fails_bind_l.
  intros h. rewrite lookup_ge_None_2 by done. by exists IndexError.
Qed.

End Rejected.

Lemma runge_kutta_step_small_A_witness :
  RungeKutta.runge_kutta_step (H := Sweeps.backend) [[q 0 1]]
    Sample.heun_b Sample.heun_c Sample.V1 Sample.decay 0 (q 0 1) (q 1 10) []
    Sample.tol10 true Sample.heap1
  = (Raise IndexError, Sample.heap1).
Proof.
  apply (runge_kutta_step_small_A (H := Sweeps.backend) [[q 0 1]]
           Sample.heun_b Sample.heun_c Sample.V1 Sample.decay 0 (q 0 1)
           (q 1 10) [] Sample.tol10 true 1 Sample.heap1).
  - repeat constructor.
  - left. simpl. lia.
Defined.

Lemma runge_kutta_step_short_c_witness :
  ∃ e : exn,
    (RungeKutta.runge_kutta_step (H := Sweeps.backend) Sample.heun_A
       Sample.heun_b [q 0 1] Sample.V2_lumped Sample.decay 0 (q 0 1)
       (q 1 10) Sample.t_squared Sample.tol10 true Sample.heap2).1
    = Raise e.
Proof.
  apply (runge_kutta_step_short_c (H := Sweeps.backend) Sample.heun_A
           Sample.heun_b [q 0 1] Sample.V2_lumped Sample.decay 0 (q 0 1)
           (q 1 10) Sample.t_squared Sample.tol10 true).
  simpl. lia.
Defined.

(** ** Which entries of the tableau enter the result *)

Lemma for_fold_ext {A S} (l : list A) (body body' : S → A → St S) :
  (∀ s x h, x ∈ l → body s x h = body' s x h) →
  ∀ s h, for_fold l body s h = for_fold l body' s h.
Proof.
  induction l as [|x l IH]; intros Hbody s h; [done|].
  simpl. rewrite !bind_run, Hbody by by left.
  destruct (body' s x h) as [[s'|e] h']; [|done].
  apply IH. intros s'' y h'' Hy. apply Hbody. by right.
Qed.

Section LowerTriangle.
Context `{Backend}.
Context (A A' : list (list Qc)) (b c : list Qc) (V : FunctionSpace)
        (F : Qc → vec → vec) (u0 : loc) (t dt : Qc)
        (sympy_dirichlet_bcs : list ((vec → bool) * sympy_expr))
        (tol : Qc) (verbose : bool).

Hypothesis Hlower : ∀ i j : nat, (j < i < length b)%nat →
  (r ← A !! i; r !! j) = (r ← A' !! i; r !! j).

Lemma stage_state_lower (k : list loc) (i : nat) (h : heap) :
  (i < length b)%nat →
  RungeKutta.stage_state A u0 dt k i h = RungeKutta.stage_state A' u0 dt k i h.
Proof.
  intros Hi. unfold RungeKutta.stage_state. apply for_fold_ext.
  intros U j h' Hj. apply elem_of_seq in Hj.
  rewrite !bind_run. by rewrite Hlower by lia.
Qed.

(** X12. Two accepted tableaux that agree strictly below the diagonal of [A]
    give the same step: the entries on and above the diagonal, which the
    explicitness check lets pass when they are below [1e-15] in absolute
    value, are never read by the stage loop. *)
Theorem runge_kutta_step_reads_lower_triangle (h : heap) :
  tableau_accepted A b c → tableau_accepted A' b c →
  RungeKutta.runge_kutta_step A b c V F u0 t dt sympy_dirichlet_bcs tol
                              verbose h
  = RungeKutta.runge_kutta_step A' b c V F u0 t dt sympy_dirichlet_bcs tol
                                verbose h.
Proof.
  intros (Hs & Hrows & Hcols & Hexp & Hc) (_ & Hrows' & Hcols' & Hexp' & _).
  unfold RungeKutta.runge_kutta_step. cbv zeta.
  rewrite !bind_run.
  rewrite (numpy_array_rectangular A (length b)) by done.
  rewrite (numpy_array_rectangular A' (length b)) by done.
  cbv beta iota. rewrite !bind_run.
  unfold explicit_tableau in Hexp, Hexp'.
  destruct (upper_triangle A (length b)) as [upper|] eqn:Hupper; [|done].
  destruct (upper_triangle A' (length b)) as [upper'|] eqn:Hupper'; [|done].
  assert (∀ B up, B ≠ [] → upper_triangle B (length b) = Some up →
            RungeKutta.fancy_index B (RungeKutta.triu_indices (length b)) h
            = (Ok up, h)) as Hindex.
  { intros B up HB Hup. unfold RungeKutta.fancy_index.
    unfold upper_triangle in Hup. destruct B; [done|]. by rewrite Hup. }
  rewrite (Hindex A upper), (Hindex A' upper'); try done;
    try (intros ->; simpl in *; lia).
  cbv beta iota. rewrite !bind_run, Hexp, Hexp'.
  unfold RungeKutta.assert at 1 2. rewrite !mret_run. cbv beta iota.
  rewrite !bind_run.
  destruct (lift_option IndexError
              (RungeKutta.make_BCS V sympy_dirichlet_bcs t dt !! 0%nat) h)
    as [[BCS0|e] h0]; [|done].
  rewrite !bind_run.
  destruct (lift_option IndexError
              (RungeKutta.make_BCS V sympy_dirichlet_bcs t dt !! 1%nat) h0)
    as [[BCS1|e] h1]; [|done].
  rewrite !bind_run.
  rewrite (for_fold_ext _ _
             (RungeKutta.stage A' c V F u0 t dt
                (RungeKutta.solver_params tol verbose))); [done|].
  intros [k bcs] i h' Hi. apply elem_of_seq in Hi.
  unfold RungeKutta.stage. rewrite !bind_run.
  by rewrite stage_state_lower by lia.
Qed.

End LowerTriangle.

Lemma runge_kutta_step_reads_lower_triangle_witness :
  let tiny := q 1 10000000000000000 in
  RungeKutta.runge_kutta_step (H := Sweeps.backend)
    [[tiny; - tiny]; [q 2 3; tiny]] Sample.heun_b Sample.heun_c
    Sample.V2_lumped Sample.decay 0 (q 0 1) (q 1 10) Sample.t_squared
    Sample.tol10 true Sample.heap2
  = RungeKutta.runge_kutta_step (H := Sweeps.backend)
      Sample.heun_A Sample.heun_b Sample.heun_c
      Sample.V2_lumped Sample.decay 0 (q 0 1) (q 1 10) Sample.t_squared
      Sample.tol10 true Sample.heap2.
Proof.
  intros tiny.
  apply (runge_kutta_step_reads_lower_triangle (H := Sweeps.backend)
           [[tiny; - tiny]; [q 2 3; tiny]] Sample.heun_A Sample.heun_b
           Sample.heun_c Sample.V2_lumped Sample.decay 0 (q 0 1) (q 1 10)
           Sample.t_squared Sample.tol10 true).
  - intros [|[|i]] [|j] Hij; simpl in Hij; try lia. by_compute.
  - repeat split; try reflexivity; [simpl; lia|repeat constructor].
  - exact heun_tableau_accepted.
Defined.

(** ** The three methods of the module *)

Section Builtin.
Context `{Backend}.
Context (V : FunctionSpace) (F : Qc → vec → vec) (u0 : loc) (u0v : vec)
        (t dt : Qc) (sympy_dirichlet_bcs : list ((vec → bool) * sympy_expr))
        (tol : Qc) (verbose : bool) (h : heap).

Lemma accepted_step_returns_after (A : matrix) (b c : list Qc) :
  tableau_accepted A b c → solves_return → vecs h !! u0 = Some u0v →
  returns_after h (length b)
    (RungeKutta.runge_kutta_step A b c V F u0 t dt sympy_dirichlet_bcs tol
                                 verbose h).
Proof.
  intros (Hs & Hrows & Hcols & Hexp & Hc) Hsolve Hu0.
  destruct (runge_kutta_step_run A b c V F u0 u0v t dt sympy_dirichlet_bcs
              tol verbose h Hs Hrows Hcols Hexp Hc Hu0 Hsolve)
    as (kv & theta & Hlen & _ & _ & Hrun).
  rewrite Hrun. unfold returns_after. cbn [fst snd vecs mats solves].
  rewrite !length_app, length_fmap, length_seq, Hlen. simpl.
  repeat split; lia.
Qed.

(** X13. The tableaux written into [heun_step], [rk4_step] and [rkf_step] are
    well formed: with a valid state [u0] and solves that all return, each
    of the three returns normally, after 3, 5 and 7 solves respectively
    (one per stage and the combining one). *)
Theorem builtin_steps_return :
  solves_return → vecs h !! u0 = Some u0v →
  returns_after h 2 (RungeKutta.heun_step V F u0 t dt sympy_dirichlet_bcs tol
                                        verbose h)
  ∧ returns_after h 4 (RungeKutta.rk4_step V F u0 t dt sympy_dirichlet_bcs tol
                                         verbose h)
  ∧ returns_after h 6 (RungeKutta.rkf_step V F u0 t dt sympy_dirichlet_bcs tol
                                         verbose h).
Proof.
  intros Hsolve Hu0.
  unfold RungeKutta.heun_step, RungeKutta.rk4_step, RungeKutta.rkf_step.
  cbv zeta.
  (split; [|split]);
    match goal with
    | |- returns_after _ _
           (RungeKutta.runge_kutta_step ?A ?b ?c _ _ _ _ _ _ _ _ _) =>
        apply (accepted_step_returns_after A b c); [|done|done]
    end;
    (split; [simpl; lia|]; split; [reflexivity|];
     split; [repeat constructor|]; split; [vm_compute; reflexivity|];
     reflexivity).
Qed.

End Builtin.

Lemma builtin_steps_return_witness :
  returns_after Sample.heap2 2
    (RungeKutta.heun_step (H := Sweeps.backend) Sample.V2_lumped Sample.decay
       0 (q 0 1) (q 1 10) Sample.t_squared Sample.tol10 true Sample.heap2)
  ∧ returns_after Sample.heap2 4
      (RungeKutta.rk4_step (H := Sweeps.backend) Sample.V2_lumped
         Sample.decay 0 (q 0 1) (q 1 10) Sample.t_squared Sample.tol10 true
         Sample.heap2)
  ∧ returns_after Sample.heap2 6
      (RungeKutta.rkf_step (H := Sweeps.backend) Sample.V2_lumped
         Sample.decay 0 (q 0 1) (q 1 10) Sample.t_squared Sample.tol10 true
         Sample.heap2).
Proof.
  exact (builtin_steps_return (H := Sweeps.backend) Sample.V2_lumped
           Sample.decay 0 [q 1 1; q 1 1] (q 0 1) (q 1 10) Sample.t_squared
           Sample.tol10 true Sample.heap2 Sweeps_solves_return eq_refl).
Defined.

(** ** [self.M] of the explicit Euler stepper on the sample problem *)

Lemma ExplicitEuler_step_M_witness :
  mats (ExplicitEuler.step Sample.stepper2 1 0 (q 0 1) (q 1 10) Sample.tol10
          100 true Sample.heap2).2 !! M Sample.stepper2
  = Some (ident_rows
            (constrained_dofs
               (get_bcs (problem Sample.stepper2) (q 0 1 + q 1 10)))
            (mass_form Sample.heat)).
Proof.
  exact (ExplicitEuler_step_M (H := Reference.backend) Sample.stepper2 1 0
           (q 0 1) (q 1 10) Sample.tol10 100 true Sample.heap2
           (mass_form Sample.heat) [q 1 1; q 1 1] [q 0 1; q 0 1]
           eq_refl eq_refl eq_refl).
Defined.

Lemma ExplicitEuler_step_system_reused_witness :
  let h := mkHeap [[q 1 1; q 1 1]; [q 0 1; q 0 1]]
                  [ident_rows [0%nat] (mass_form Sample.heat)] [] in
  solved_by (mkKrylovSolver "cg" "amg" (krylov_params Sample.tol10 100 true))
            (Spec.explicit_euler_system (problem Sample.stepper2)
               [q 1 1; q 1 1] (q 0 1) (q 1 10))
            None [q 0 1; q 0 1] 1 h
            (ExplicitEuler.step Sample.stepper2 1 0 (q 0 1) (q 1 10)
                                Sample.tol10 100 true h).
Proof.
  intros h.
  apply (ExplicitEuler_step_system_reused (H := Reference.backend)
           Sample.stepper2 1 0 (q 0 1) (q 1 10) Sample.tol10 100 true h
           [0%nat] [q 1 1; q 1 1] [q 0 1; q 0 1]).
  - reflexivity.
  - intros x Hx. apply list_elem_of_singleton in Hx as ->.
    vm_compute. left.
  - reflexivity.
  - reflexivity.
Defined.
